(** * ip_denylist_lookup: range flattener, sorted index, lookup, update lock

    A shallow embedding of the ingestion and lookup engine:
    - [loadToRedis.js] ([exports.load]): the sweep over endpoint events and
      the publication of the flattened records under a temporary key that is
      renamed over the live key;
    - [serve.js] ([lookupIP]): the cached point-in-interval query;
    - [updateLock.js] ([acquireLock], [releaseLock], [isLockStale]);
    - [launch.js] ([validateCsvFile] and the merge stage of [main]).

    Further functions of the same files are embedded after these:
    [getLockValue], [isLocked] and [cleanupStaleLock] of [updateLock.js],
    [ip2int] of [loadToRedis.js], [lookupDroneBL] of [serve.js],
    [checkRateLimit] of [websocket.js], and [updateStatus] and the whole of
    [main] of [launch.js].

    JavaScript numbers are modelled by [Z] (all coordinates are integers far
    below 2^53, where doubles are exact), strings by [string] whose
    characters stand for code units below 256, the Redis server by a finite
    map from keys to typed values, the file system by a finite map from
    paths to contents.  Built-ins that are not code of the repository
    ([JSON.parse], [JSON.stringify], the [ip-utils] package, the process
    table) are interfaces; a reference instance of each is given for running
    the code on concrete inputs. *)

From Stdlib Require Import ZArith String Ascii List Bool Lia.
From Stdlib Require Import DecimalString DecimalZ DecimalPos.
From stdpp Require Import base option list gmap strings.

Set Warnings "-clear-no-such-hyp".

Local Open Scope string_scope.
Local Open Scope list_scope.
Local Open Scope Z_scope.

(* ===================================================================== *)
(** * Part I: the embedding                                               *)
(* ===================================================================== *)

(** ** JavaScript built-ins used by the sources *)

Module JS.

(** [WhiteSpace] and [LineTerminator] code units below 256: the characters
    skipped by [String.prototype.trim] and by [parseInt]. *)
Definition isWhiteSpace (c : ascii) : bool :=
  let k := Z.of_nat (nat_of_ascii c) in
  ((9 <=? k) && (k <=? 13)) || (k =? 32) || (k =? 160).

Fixpoint trimStart (s : string) : string :=
  match s with
  | String c s' => if isWhiteSpace c then trimStart s' else s
  | EmptyString => EmptyString
  end.

(** [trimEnd] keeps a character when it is not white space or when
    something remains after it. *)
Fixpoint trimEnd (s : string) : string :=
  match s with
  | String c s' =>
      match trimEnd s' with
      | EmptyString => if isWhiteSpace c then EmptyString else String c EmptyString
      | r => String c r
      end
  | EmptyString => EmptyString
  end.

Definition trim (s : string) : string := trimEnd (trimStart s).

(** [s.split(sep)] for a one-character separator: never empty, the empty
    string gives one empty field. *)
Fixpoint split (sep : ascii) (s : string) : list string :=
  match s with
  | EmptyString => [EmptyString]
  | String c s' =>
      if Ascii.eqb c sep then EmptyString :: split sep s'
      else match split sep s' with
           | f :: fs => String c f :: fs
           | [] => [String c EmptyString]
           end
  end.

(** [s.includes(sub)] *)
Fixpoint includes (sub s : string) : bool :=
  String.prefix sub s ||
  match s with
  | String _ s' => includes sub s'
  | EmptyString => false
  end.

(** Value of a digit in radix [R]; letters count from ten, in either case. *)
Definition digitValue (R : Z) (c : ascii) : option Z :=
  let k := Z.of_nat (nat_of_ascii c) in
  let v := if (48 <=? k) && (k <=? 57) then Some (k - 48)
           else if (97 <=? k) && (k <=? 122) then Some (k - 87)
           else if (65 <=? k) && (k <=? 90) then Some (k - 55)
           else None in
  match v with
  | Some d => if d <? R then Some d else None
  | None => None
  end.

(** The longest prefix of radix-[R] digits, read as a number; [acc] is
    [None] until a digit has been read.  The value is exact: it is the
    number [parseInt] gives for numerals up to 2^53, which a double
    holds. *)
Fixpoint parseDigits (R : Z) (acc : option Z) (s : string) : option Z :=
  match s with
  | String c s' =>
      match digitValue R c with
      | Some d => parseDigits R (Some (default 0 acc * R + d)) s'
      | None => acc
      end
  | EmptyString => acc
  end.

Definition stripSign (s : string) : bool * string :=
  match s with
  | String c s' =>
      if Ascii.eqb c "-" then (true, s')
      else if Ascii.eqb c "+" then (false, s')
      else (false, s)
  | EmptyString => (false, s)
  end.

Definition applySign (neg : bool) (v : option Z) : option Z :=
  (fun z => if neg then - z else z) <$> v.

(** What follows a prefix [0x] or [0X], when there is one. *)
Definition stripHexPrefix (s : string) : option string :=
  match s with
  | String c0 (String c1 h) =>
      if Ascii.eqb c0 "0" && (Ascii.eqb c1 "x" || Ascii.eqb c1 "X")
      then Some h else None
  | _ => None
  end.

(** [parseInt(s)]: leading white space, a sign, an optional [0x] prefix
    selecting radix 16, then the longest prefix of digits.  [None] is
    [NaN]. *)
Definition parseInt (s : string) : option Z :=
  let '(neg, t) := stripSign (trimStart s) in
  match stripHexPrefix t with
  | Some h => applySign neg (parseDigits 16 None h)
  | None => applySign neg (parseDigits 10 None t)
  end.

(** [parseInt(s, 10)]: no prefix is stripped. *)
Definition parseInt10 (s : string) : option Z :=
  let '(neg, t) := stripSign (trimStart s) in
  applySign neg (parseDigits 10 None t).

(** [String(z)] and the template literal [`${z}`] of an integer (decimal,
    below 1e21). *)
Definition Number_toString (z : Z) : string :=
  NilZero.string_of_int (Z.to_int z).

(** A string is falsy exactly when it is empty. *)
Definition truthy (s : string) : bool :=
  match s with EmptyString => false | _ => true end.

(** [[...new Set(l)]]: the first occurrence of each element is kept, in
    order. *)
Fixpoint dedupAcc (seen l : list string) : list string :=
  match l with
  | [] => []
  | x :: l' =>
      if bool_decide (x ∈ seen) then dedupAcc seen l'
      else x :: dedupAcc (x :: seen) l'
  end.

Definition SetSpread (l : list string) : list string := dedupAcc [] l.

(** [i = l.indexOf(x); if (i > -1) l.splice(i, 1)] *)
Fixpoint spliceIndexOf (x : string) (l : list string) : list string :=
  match l with
  | [] => []
  | y :: l' => if bool_decide (y = x) then l' else y :: spliceIndexOf x l'
  end.

(** Exceptions. *)
Inductive exn : Type :=
| SyntaxError
| TypeError
| ReplyError (msg : string)
| Error (msg : string).

Inductive result (A : Type) : Type :=
| Ok (a : A)
| Throw (e : exn).
Global Arguments Ok {A} a.
Global Arguments Throw {A} e.

(** Sequencing: an exception skips the rest (stdpp's [x ← c; k]). *)
#[global] Instance result_bind : MBind result :=
  fun A B k r => match r with Ok a => k a | Throw e => Throw e end.
#[global] Instance result_ret : MRet result := fun A a => Ok a.

End JS.

(** ** JSON values *)

Module Json.

(** Parsed JSON; numbers are restricted to integers. *)
#[warnings="-register-all"] Inductive json : Type :=
| JNull
| JBool (b : bool)
| JNum (z : Z)
| JStr (s : string)
| JArr (items : list json)
| JObj (fields : list (string * json)).

(** The text codec is the engine's: [JSON_parse] gives [None] where
    [JSON.parse] throws a [SyntaxError]. *)
Class Codec : Type := {
  JSON_parse : string -> option json;
  JSON_stringify : json -> string
}.

(** [j[key]] on a parsed value; [None] is [undefined].  Only objects have
    own properties with arbitrary names. *)
Fixpoint assoc {A} (key : string) (fields : list (string * A)) : option A :=
  match fields with
  | [] => None
  | (k, v) :: fs => if bool_decide (k = key) then Some v else assoc key fs
  end.

Definition get (key : string) (j : json) : option json :=
  match j with
  | JObj fields => assoc key fields
  | _ => None
  end.

(** [delete j[key]] *)
Definition delete_key (key : string) (j : json) : json :=
  match j with
  | JObj fields => JObj (List.filter (fun kv => negb (bool_decide (kv.1 = key))) fields)
  | _ => j
  end.

(** [String(v)], which turns a value into a property name. *)
Fixpoint ToString (v : json) : string :=
  match v with
  | JNull => "null"
  | JBool true => "true"
  | JBool false => "false"
  | JNum z => JS.Number_toString z
  | JStr s => s
  | JArr items =>
      String.concat ","
        (List.map (fun x => match x with JNull => "" | _ => ToString x end) items)
  | JObj _ => "[object Object]"
  end.

Definition ToPropertyKey (v : option json) : string :=
  match v with
  | None => "undefined"
  | Some j => ToString j
  end.

(** Names that every object literal inherits from [Object.prototype]. *)
Definition inherited (key : string) : bool :=
  bool_decide (key ∈ ["constructor"; "__proto__"; "hasOwnProperty";
    "isPrototypeOf"; "propertyIsEnumerable"; "toLocaleString"; "toString";
    "valueOf"; "__defineGetter__"; "__defineSetter__"; "__lookupGetter__";
    "__lookupSetter__"]).

(** JavaScript truthiness of a value. *)
Definition truthy (v : option json) : bool :=
  match v with
  | None | Some JNull | Some (JBool false) | Some (JNum 0) | Some (JStr "") => false
  | Some _ => true
  end.

End Json.

(** ** The Redis server *)

Module Redis.

(** A key holds a string (with its time to live in seconds, when it has
    one), a sorted set, a list or a set. *)
Inductive value : Type :=
| VString (v : string) (ttl : option Z)
| VZSet (members : list (Z * string))
| VList (items : list string)
| VSet (items : list string).

(** The commands the sources send, as they are logged. *)
Inductive command : Type :=
| GET (key : string)
| DEL (key : string)
| EXISTS (key : string)
| SET_EX_NX (key v : string) (ttl : Z)
| SETEX (key : string) (ttl : Z) (v : string)
| ZADD (key : string) (score : Z) (member : string)
| ZCARD (key : string)
| ZRANGEBYSCORE_LIMIT1 (key : string) (min : Z)
| RENAME (src dst : string)
| SMEMBERS (key : string)
| LPUSH (key v : string)
| EVAL_COMPARE_DEL (key v : string).

(** The state of the server: the keyspace and the commands received. *)
Record state : Type := mkState {
  data : gmap string value;
  log : list command
}.

(** A client computation: it reads and writes the server and may throw;
    the server keeps what was written before the exception. *)
Definition M (A : Type) : Type := state -> JS.result A * state.

#[global] Instance M_ret : MRet M := fun A a st => (JS.Ok a, st).
#[global] Instance M_bind : MBind M := fun A B k c st =>
  match c st with
  | (JS.Ok a, st') => k a st'
  | (JS.Throw e, st') => (JS.Throw e, st')
  end.

Definition throw {A} (e : JS.exn) : M A := fun st => (JS.Throw e, st).

Definition lift {A} (r : JS.result A) : M A := fun st => (r, st).

(** [try { body } catch (e) { handler(e) }] *)
Definition try_catch {A} (body : M A) (handler : JS.exn -> M A) : M A :=
  fun st =>
    match body st with
    | (JS.Ok a, st') => (JS.Ok a, st')
    | (JS.Throw e, st') => handler e st'
    end.

(** [promise.catch(() => {})]: the outcome is dropped. *)
Definition swallow {A} (c : M A) : M unit :=
  fun st => (JS.Ok tt, (c st).2).

Definition record (c : command) : M unit :=
  fun st => (JS.Ok tt, mkState (data st) (log st ++ [c])).

Definition read : M (gmap string value) := fun st => (JS.Ok (data st), st).

Definition write (d : gmap string value) : M unit :=
  fun st => (JS.Ok tt, mkState d (log st)).

Definition WRONGTYPE : JS.exn :=
  JS.ReplyError "WRONGTYPE Operation against a key holding the wrong kind of value".

(** Sorted sets are kept in the server's order: by score, then by member. *)
Definition zlt (x y : Z * string) : bool :=
  (x.1 <? y.1) || ((x.1 =? y.1) && String.ltb x.2 y.2).

Fixpoint zinsert (x : Z * string) (z : list (Z * string)) : list (Z * string) :=
  match z with
  | [] => [x]
  | y :: z' => if zlt x y then x :: y :: z' else y :: zinsert x z'
  end.

(** A member occurs once: adding it again moves it to its new score. *)
Definition zset_add (score : Z) (member : string) (z : list (Z * string))
  : list (Z * string) :=
  zinsert (score, member)
    (List.filter (fun y => negb (bool_decide (y.2 = member))) z).

(** The first member, in the server's order, whose score is at least [min]. *)
Fixpoint zset_first_from (min : Z) (z : list (Z * string)) : option string :=
  match z with
  | [] => None
  | (score, member) :: z' =>
      if min <=? score then Some member else zset_first_from min z'
  end.

Definition get (key : string) : M (option string) :=
  _ ← record (GET key);
  d ← read;
  match d !! key with
  | None => mret None
  | Some (VString v _) => mret (Some v)
  | Some _ => throw WRONGTYPE
  end.

Definition del (key : string) : M Z :=
  _ ← record (DEL key);
  d ← read;
  _ ← write (delete key d);
  mret (if d !! key is Some _ then 1 else 0).

Definition exists_ (key : string) : M Z :=
  _ ← record (EXISTS key);
  d ← read;
  mret (if d !! key is Some _ then 1 else 0).

(** [SET key v EX ttl NX]: the reply is ["OK"] ([true]) or [null]. *)
Definition set_ex_nx (key v : string) (ttl : Z) : M bool :=
  _ ← record (SET_EX_NX key v ttl);
  d ← read;
  match d !! key with
  | Some _ => mret false
  | None => _ ← write (<[key := VString v (Some ttl)]> d); mret true
  end.

Definition setex (key : string) (ttl : Z) (v : string) : M unit :=
  _ ← record (SETEX key ttl v);
  d ← read;
  write (<[key := VString v (Some ttl)]> d).

Definition zadd (key : string) (score : Z) (member : string) : M unit :=
  _ ← record (ZADD key score member);
  d ← read;
  match d !! key with
  | None => write (<[key := VZSet [(score, member)]]> d)
  | Some (VZSet z) => write (<[key := VZSet (zset_add score member z)]> d)
  | Some _ => throw WRONGTYPE
  end.

Definition zcard (key : string) : M Z :=
  _ ← record (ZCARD key);
  d ← read;
  match d !! key with
  | None => mret 0
  | Some (VZSet z) => mret (Z.of_nat (length z))
  | Some _ => throw WRONGTYPE
  end.

(** [ZRANGEBYSCORE key min +inf LIMIT 0 1] *)
Definition zrangebyscore_limit1 (key : string) (min : Z) : M (list string) :=
  _ ← record (ZRANGEBYSCORE_LIMIT1 key min);
  d ← read;
  match d !! key with
  | None => mret []
  | Some (VZSet z) => mret (option_list (zset_first_from min z))
  | Some _ => throw WRONGTYPE
  end.

Definition rename (src dst : string) : M unit :=
  _ ← record (RENAME src dst);
  d ← read;
  match d !! src with
  | None => throw (JS.ReplyError "ERR no such key")
  | Some v => write (<[dst := v]> (delete src d))
  end.

Definition smembers (key : string) : M (list string) :=
  _ ← record (SMEMBERS key);
  d ← read;
  match d !! key with
  | None => mret []
  | Some (VSet items) => mret items
  | Some _ => throw WRONGTYPE
  end.

Definition lpush (key v : string) : M unit :=
  _ ← record (LPUSH key v);
  d ← read;
  match d !! key with
  | None => write (<[key := VList [v]]> d)
  | Some (VList items) => write (<[key := VList (v :: items)]> d)
  | Some _ => throw WRONGTYPE
  end.

End Redis.

(** ** loadToRedis.js: the range flattener and loader *)

Module LoadToRedis.
Import Json.

(** A data line as [csv-parser] splits it at the separator: the texts of
    the columns [start_int], [end_int] and [list]. *)
Record line : Type := mkLine {
  start_text : string;
  end_text : string;
  list_text : string
}.

(** A value after [mapValues]: the text of the column [list], and in any
    other column the number that [parseInt] reads, [None] being [NaN]. *)
Inductive cell : Type :=
| Text (s : string)
| Number (n : option Z).

Definition mapValues (header value : string) : cell :=
  if bool_decide (header = "list") then Text value
  else Number (JS.parseInt value).

(** The object that the ['data'] handler receives for a line. *)
Definition parsed (l : line) : cell * cell * cell :=
  (mapValues "start_int" (start_text l),
   mapValues "end_int" (end_text l),
   mapValues "list" (list_text l)).

(** A row of the merged CSV after [mapValues], when [parseInt] has read
    both bounds: [start_int] and [end_int] are numbers, the [list] column is
    the tag's JSON text.  A line with a bound that is [NaN] has no row: the
    comparator of the event sort is not consistent on such events and
    [Array.prototype.sort] then leaves the order to the engine. *)
Record row : Type := mkRow {
  start_int : Z;
  end_int : Z;
  r_list : string
}.

(** What the CSV stream delivers: its rows, or an error event. *)
Inductive csv : Type :=
| Rows (rows : list row)
| Broken (err : JS.exn).

(** An entry [{n, a, e}] of [scratch]: coordinate, tag text, end flag. *)
Record event : Type := mkEvent {
  ev_n : Z;
  ev_a : string;
  ev_e : bool
}.

(** The ['data'] handler pushes a start and an end event for each row. *)
Definition events (rows : list row) : list event :=
  List.concat (List.map (fun r =>
    [mkEvent (start_int r) (r_list r) false;
     mkEvent (end_int r) (r_list r) true]) rows).

(** The comparator given to [scratch.sort]; on booleans [false < true]. *)
Definition compare (a b : event) : Z :=
  if ev_n a <? ev_n b then -1
  else if ev_n b <? ev_n a then 1
  else if negb (ev_e a) && ev_e b then -1
  else if ev_e a && negb (ev_e b) then 1
  else 0.

(** [Array.prototype.sort] is stable: an insertion sort that never moves an
    element past an equal one gives the same array. *)
Fixpoint insert (x : event) (l : list event) : list event :=
  match l with
  | [] => [x]
  | y :: l' => if compare x y <=? 0 then x :: y :: l' else y :: insert x l'
  end.

Fixpoint sort (l : list event) : list event :=
  match l with
  | [] => []
  | x :: l' => insert x (sort l')
  end.

(** One iteration of the sweep up to the test [n <= m && s.length]: the
    active list after the push or the splice, and the bounds [n] and [m]. *)
Definition advance (s : list string) (cur nex : event)
  : list string * Z * Z :=
  let s := if ev_e cur then JS.spliceIndexOf (ev_a cur) s
           else s ++ [ev_a cur] in
  let n := if ev_e cur then ev_n cur + 1 else ev_n cur in
  let m := if ev_e nex then ev_n nex else ev_n nex - 1 in
  (s, n, m).

Definition emits (s : list string) (n m : Z) : bool :=
  (n <=? m) && negb (bool_decide (s = [])).

(** The sweep without its writes: the records [(n, m, s)] in the order the
    loop emits them, [s] being the active list as reassigned by
    [s = [...new Set(s)]]. *)
Fixpoint sweep (s : list string) (scratch : list event)
  : list (Z * Z * list string) :=
  match scratch with
  | cur :: ((nex :: _) as rest) =>
      let '(s, n, m) := advance s cur nex in
      if emits s n m then
        let s := JS.SetSpread s in
        (n, m, s) :: sweep s rest
      else sweep s rest
  | _ => []
  end.

Definition flatten (rows : list row) : list (Z * Z * list string) :=
  sweep [] (sort (events rows)).

Section WithCodec.
Context `{Codec}.

(** [data[type].push(j)] on an entry that exists. *)
Fixpoint push (type : string) (j : json) (data : list (string * list json))
  : list (string * list json) :=
  match data with
  | [] => []
  | (t, arr) :: data' =>
      if bool_decide (t = type) then (t, arr ++ [j]) :: data'
      else (t, arr) :: push type j data'
  end.

(** The loop [for (const i of s)] that fills [data], keys in insertion order.
    [JSON.parse] may throw; reading [.type] of [null] throws; a type named
    like a member of [Object.prototype] finds that member, which has no
    [push]. *)
Fixpoint group (data : list (string * list json)) (s : list string)
  : JS.result (list (string * list json)) :=
  match s with
  | [] => JS.Ok data
  | i :: s' =>
      match JSON_parse i with
      | None => JS.Throw JS.SyntaxError
      | Some JNull => JS.Throw JS.TypeError
      | Some j =>
          let type := ToPropertyKey (get "type" j) in
          let j := delete_key "type" j in
          match assoc type data with
          | Some _ => group (push type j data) s'
          | None =>
              if inherited type then JS.Throw JS.TypeError
              else group (data ++ [(type, [j])]) s'
          end
      end
  end.

Definition payload (data : list (string * list json)) : json :=
  JObj (List.map (fun '(t, arr) => (t, JArr arr)) data).

(** The member [`${n}|${m}|${JSON.stringify(data)}`] *)
Definition member (n m : Z) (data : json) : string :=
  JS.Number_toString n +:+ "|" +:+ JS.Number_toString m +:+ "|"
    +:+ JSON_stringify data.

Definition tempKey : string := "arfa45e13grh785gEV4wfw$WF7h".

Definition batchSize : Z := 100000.

(** What the loader does not control: the clock, which index writes the
    server refuses, what other clients do to the keyspace between the
    rename and its verification, and whether the first [DEL], which is not
    awaited, had been sent when an error of the stream disconnects the
    client. *)
Record world : Type := mkWorld {
  now : string;
  zadd_fails : Z -> bool;
  concurrent : gmap string Redis.value -> gmap string Redis.value;
  first_del_sent : bool
}.

Section WithWorld.
Variable w : world.

(** A queued [pipeline.zadd], with the iteration that queued it. *)
Definition queued : Type := Z * string * Z * string.

(** [pipeline.exec()]: every command is sent; each reply is an error
    ([true]) or not. *)
Fixpoint exec (pipeline : list queued) : Redis.M (list bool) :=
  match pipeline with
  | [] => mret []
  | (k, key, score, mem) :: rest =>
      failed ← (if zadd_fails w k then mret true
                else Redis.try_catch (_ ← Redis.zadd key score mem; mret false)
                                     (fun _ => mret true));
      replies ← exec rest;
      mret (failed :: replies)
  end.

(** The flattening loop [for (let k = 0; k < scratch.length - 1; k++)];
    it returns the pipeline that is still to be executed. *)
Fixpoint flatten_loop (k : Z) (scratch : list event) (s : list string)
  (pipeline : list queued) : Redis.M (list queued) :=
  match scratch with
  | cur :: ((nex :: _) as rest) =>
      pipeline ← (if k mod batchSize =? 0
                  then _ ← exec pipeline; mret []
                  else mret pipeline);
      let '(s, n, m) := advance s cur nex in
      if emits s n m then
        let s := JS.SetSpread s in
        data ← Redis.lift (group [] s);
        flatten_loop (k + 1) rest s
          (pipeline ++ [(k, tempKey, m, member n m (payload data))])
      else flatten_loop (k + 1) rest s pipeline
  | _ => mret pipeline
  end.

Definition interfere : Redis.M unit :=
  d ← Redis.read; Redis.write (concurrent w d).

(** [exports.load(file, redisPrefix, gc)]; forcing a collection has no
    effect on the result.  The first [DEL] is queued without being awaited.
    The commands of the ['end'] handler follow it on the same connection.
    The ['error'] handlers of the stream and of the parser disconnect the
    client and reject with the error, without any cleanup: the [DEL] has
    reached the server only if it had been sent by then. *)
Definition load (file : csv) (redisPrefix : string) : Redis.M unit :=
  match file with
  | Broken err =>
      _ ← (if first_del_sent w then Redis.swallow (Redis.del tempKey)
           else mret tt);
      Redis.throw err
  | Rows rows =>
      _ ← Redis.swallow (Redis.del tempKey);
      let k := Z.of_nat (length rows) in
      let scratch := events rows in
      Redis.try_catch
        (lists ← Redis.smembers (redisPrefix +:+ "lists");
         _ ← Redis.lpush (redisPrefix +:+ "ipListSize")
               (JSON_stringify (JObj [("date", JStr (now w));
                                      ("size", JNum k);
                                      ("lists", JArr (List.map JStr lists))]));
         let scratch := sort scratch in
         pipeline ← flatten_loop 0 scratch [] [];
         pipelineResults ← exec pipeline;
         let errors := List.filter (fun r => r) pipelineResults in
         _ ← (if 0 <? Z.of_nat (length errors)
              then Redis.throw (JS.Error ("Pipeline errors: "
                     +:+ JS.Number_toString (Z.of_nat (length errors))
                     +:+ " commands failed"))
              else mret tt);
         tempKeySize ← Redis.zcard tempKey;
         _ ← (if tempKeySize =? 0
              then Redis.throw (JS.Error "No data to load - temp key is empty")
              else mret tt);
         _ ← Redis.rename tempKey (redisPrefix +:+ "ranges");
         _ ← interfere;
         finalKeySize ← Redis.zcard (redisPrefix +:+ "ranges");
         _ ← (if negb (finalKeySize =? tempKeySize)
              then Redis.throw
                     (JS.Error "Key size mismatch after rename - possible corruption")
              else mret tt);
         _ ← Redis.swallow (Redis.del tempKey);
         mret tt)
        (fun error =>
           _ ← Redis.swallow
                 (tempKeyExists ← Redis.exists_ tempKey;
                  if negb (tempKeyExists =? 0) then Redis.del tempKey
                  else mret 0);
           Redis.throw error)
  end.

End WithWorld.
End WithCodec.

End LoadToRedis.

(** ** serve.js: the lookup engine *)

Module Serve.
Import Json.

(** The [ip-utils] package. *)
Class IpUtils : Type := {
  isValidIpv4 : string -> bool;
  toLong : string -> Z
}.

(** What the lookup does not control: the answer of the DroneBL resolver
    ([lookupDroneBL], [None] for [null]) and whether the server refuses the
    cache write. *)
Record world : Type := mkWorld {
  lookupDroneBL : string -> option json;
  cache_write_fails : bool
}.

(** The values [lookupIP] returns for an invalid address and for an address
    on no list. *)
Definition Invalid : json := JBool false.
Definition NotFound : json := JNull.

(** [a[i]] of an array of strings, through [String(...)] as [parseInt] reads
    it. *)
Definition field (parts : list string) (i : nat) : string :=
  default "undefined" (parts !! i).

(** [obj[key] = v] on the fields of an object. *)
Fixpoint set_field (key : string) (v : json) (fields : list (string * json))
  : list (string * json) :=
  match fields with
  | [] => [(key, v)]
  | (k, x) :: fs =>
      if bool_decide (k = key) then (k, v) :: fs else (k, x) :: set_field key v fs
  end.

(** [if (!result.list) result.list = []]: assigning a property of a number,
    a string or a boolean throws in strict mode; on an array it leaves the
    elements as they are. *)
Definition ensure_list (result : json) : JS.result json :=
  if truthy (get "list" result) then JS.Ok result
  else match result with
       | JObj fields => JS.Ok (JObj (set_field "list" (JArr []) fields))
       | JArr items => JS.Ok (JArr items)
       | _ => JS.Throw JS.TypeError
       end.

(** [result.list.push(x)], after [ensure_list].  On an array the property
    [list] was set on the array object and takes the push; it is no element
    and does not show in the JSON text of the array, which is all that is
    kept of it here. *)
Definition push_list (x : json) (result : json) : JS.result json :=
  match result with
  | JObj fields =>
      match assoc "list" fields with
      | Some (JArr items) => JS.Ok (JObj (set_field "list" (JArr (items ++ [x])) fields))
      | _ => JS.Throw JS.TypeError
      end
  | JArr items => JS.Ok (JArr items)
  | _ => JS.Throw JS.TypeError
  end.

Section WithInterfaces.
Context `{Codec} `{IpUtils}.
Variable w : world.
Variable redisPrefix : string.

(** The containment test and the parse of the member [answer[0]]; [JNull] is
    [null]. *)
Definition redisResult_of (long : Z) (answer : list string) : JS.result json :=
  match answer with
  | item :: _ =>
      let parts := JS.split "|" item in
      let startInt := field parts 0 in
      let endInt := field parts 1 in
      match JS.parseInt startInt, JS.parseInt endInt with
      | Some s, Some e =>
          if (s <=? long) && (long <=? e) then
            match parts !! 2%nat with
            | Some lists =>
                match JSON_parse lists with
                | Some j => JS.Ok j
                | None => JS.Throw JS.SyntaxError
                end
            | None => JS.Throw JS.SyntaxError
            end
          else JS.Ok JNull
      | _, _ => JS.Ok JNull
      end
  | [] => JS.Ok JNull
  end.

(** The merge of the index result with the DroneBL result. *)
Definition merge (redisResult : json) (droneblResult : option json)
  : JS.result json :=
  match redisResult, droneblResult with
  | JNull, None => JS.Ok JNull
  | _, _ =>
      let result := if truthy (Some redisResult) then redisResult
                    else JObj [("list", JArr []); ("geo", JArr [])] in
      result ← ensure_list result;
      match droneblResult with
      | Some d => if truthy (Some d) then push_list d result else JS.Ok result
      | None => JS.Ok result
      end
  end.

(** [lookupIP(ip, includeDroneBL)] *)
Definition lookupIP (ip : string) (includeDroneBL : bool) : Redis.M json :=
  if negb (isValidIpv4 ip) then mret Invalid
  else
    let cacheKey := redisPrefix +:+ "cache:" +:+ ip
                      +:+ (if includeDroneBL then ":dronebl" else "") in
    let cacheTTL := 48 * 60 * 60 in
    cachedResult ← Redis.get cacheKey;
    let hit :=
      match cachedResult with
      | None => None
      | Some c => if bool_decide (c = "null") then Some NotFound else JSON_parse c
      end in
    match hit with
    | Some r => mret r
    | None =>
        let long := toLong ip in
        answer ← Redis.zrangebyscore_limit1 (redisPrefix +:+ "ranges") long;
        let droneblResult := if includeDroneBL then lookupDroneBL w ip else None in
        redisResult ← Redis.lift (redisResult_of long answer);
        result ← Redis.lift (merge redisResult droneblResult);
        let cacheValue := match result with
                          | JNull => "null"
                          | _ => JSON_stringify result
                          end in
        _ ← Redis.swallow
              (if cache_write_fails w
               then _ ← Redis.record (Redis.SETEX cacheKey cacheTTL cacheValue);
                    Redis.throw (JS.ReplyError "ERR")
               else Redis.setex cacheKey cacheTTL cacheValue);
        mret result
    end.

End WithInterfaces.
End Serve.

(** ** updateLock.js: the update lock *)

Module UpdateLock.

(** The process and its host: [process.pid], the clock, and whether
    [process.kill(pid, 0)] finds a process (it fails with a code other than
    [ESRCH] or does not fail). *)
Record host : Type := mkHost {
  pid : Z;
  Date_now : Z;
  isProcessRunning : Z -> bool
}.

Section WithHost.
Variable h : host.

(** [isLockStale(lockKey)] *)
Definition isLockStale (lockKey : string) : Redis.M bool :=
  Redis.try_catch
    (lockValue ← Redis.get lockKey;
     match lockValue with
     | None => mret false
     | Some v =>
         if negb (JS.truthy v) then mret false
         else
           let parts := JS.split "-" (JS.trim v) in
           if (length parts <? 1)%nat then mret false
           else
             match JS.parseInt10 (default "undefined" (parts !! 0%nat)) with
             | None => mret false
             | Some p =>
                 if p =? pid h then mret false
                 else mret (negb (isProcessRunning h p))
             end
     end)
    (fun _ => mret false).

(** [acquireLock(lockKey, ttlSeconds)] *)
Definition acquireLock (lockKey : string) (ttlSeconds : Z) : Redis.M bool :=
  existingLock ← Redis.get lockKey;
  held ← (if JS.truthy (default "" existingLock) then
            isStale ← isLockStale lockKey;
            if (isStale : bool) then _ ← Redis.del lockKey; mret false
            else mret true
          else mret false : Redis.M bool);
  if (held : bool) then mret false
  else
    let lockValue := JS.Number_toString (pid h) +:+ "-"
                       +:+ JS.Number_toString (Date_now h) in
    Redis.set_ex_nx lockKey lockValue ttlSeconds.

(** The script of [releaseLock]: compare the stored value with the argument
    and delete the key when they are equal; the reply is the number of keys
    deleted. *)
Definition compare_and_delete (key arg : string) : Redis.M Z :=
  _ ← Redis.record (Redis.EVAL_COMPARE_DEL key arg);
  d ← Redis.read;
  match d !! key with
  | None => mret 0
  | Some (Redis.VString current _) =>
      if bool_decide (current = arg) then
        _ ← Redis.write (delete key d); mret 1
      else mret 0
  | Some _ => Redis.throw Redis.WRONGTYPE
  end.

(** [releaseLock(lockKey, lockValue)]; [None] is [null] or [undefined]. *)
Definition releaseLock (lockKey : string) (lockValue : option string)
  : Redis.M bool :=
  Redis.try_catch
    (match lockValue with
     | None => mret false
     | Some v =>
         if negb (JS.truthy v) then mret false
         else
           let trimmedLockValue := JS.trim v in
           result ← compare_and_delete lockKey trimmedLockValue;
           if result =? 1 then mret true
           else
             currentLockValue ← Redis.get lockKey;
             mret false
     end)
    (fun _ => mret false).

End WithHost.
End UpdateLock.

(** ** launch.js: validation and installation of the merged CSV *)

Module Launch.

Definition LF : ascii := ascii_of_nat 10.
Definition CR : ascii := ascii_of_nat 13.

(** The lines [readline] delivers: a line ends at LF, CR LF or CR; a final
    terminator opens no further line. *)
Fixpoint readline (s : string) : list string :=
  match s with
  | EmptyString => []
  | String c s' =>
      if Ascii.eqb c LF then EmptyString :: readline s'
      else if Ascii.eqb c CR then
        match s' with
        | String c' s'' =>
            if Ascii.eqb c' LF then EmptyString :: readline s''
            else EmptyString :: readline s'
        | EmptyString => [EmptyString]
        end
      else match readline s' with
           | l :: ls => String c l :: ls
           | [] => [String c EmptyString]
           end
  end.

Definition isNaN (v : option Z) : bool :=
  match v with None => true | Some _ => false end.

(** The loop [for await (const line of rl)] from a given [lineCount] and
    [headerFound]; [None] when it returns [false] from inside. *)
Fixpoint scan (lineCount : Z) (headerFound : bool) (rl : list string)
  : option (Z * bool) :=
  match rl with
  | [] => Some (lineCount, headerFound)
  | line :: rest =>
      let lineCount := lineCount + 1 in
      if lineCount =? 1 then
        scan lineCount
          (if JS.includes "start_int" line && JS.includes "end_int" line
              && JS.includes "list" line then true else headerFound)
          rest
      else if lineCount <=? 10 then
        let parts := JS.split "|" line in
        if negb (length parts =? 3)%nat then None
        else if isNaN (JS.parseInt (default "undefined" (parts !! 0%nat)))
                || isNaN (JS.parseInt (default "undefined" (parts !! 1%nat)))
        then None
        else scan lineCount headerFound rest
      else Some (lineCount, headerFound)
  end.

(** [validateCsvFile(file)] on a file system given as a map from paths to
    contents; [stats.size] is the length of the content. *)
Definition validateCsvFile (fs : gmap string string) (file : string) : bool :=
  match fs !! file with
  | None => false
  | Some content =>
      let size := Z.of_nat (String.length content) in
      if size =? 0 then false
      else if size <? 20 then false
      else
        match scan 0 false (readline content) with
        | None => false
        | Some (lineCount, headerFound) =>
            if negb headerFound then false
            else if lineCount <? 2 then false
            else true
        end
  end.

Definition renameSync (src dst : string) (fs : gmap string string)
  : gmap string string :=
  match fs !! src with
  | Some content => <[dst := content]> (delete src fs)
  | None => fs
  end.

(** [file.match(/^\./)] *)
Definition hidden (file : string) : bool :=
  match file with String "." _ => true | _ => false end.

Section WithPaths.
Variable csvFile : string.

Definition tempCsvFile : string := csvFile +:+ ".tmp".

(** The block [if (args.process)] of [main]: [staging] lists the staging
    directory in [readdirSync] order, names with contents. *)
Definition process (staging : list (string * string)) (fs : gmap string string)
  : JS.result unit * gmap string string :=
  let merged :=
    fold_left (fun acc f => if hidden f.1 then acc else acc +:+ f.2) staging
      ("start_int|end_int|list" +:+ String LF EmptyString) in
  let fs := <[tempCsvFile := merged]> fs in
  let isValid := validateCsvFile fs tempCsvFile in
  if negb isValid then (JS.Throw (JS.Error "CSV validation failed"), fs)
  else
    let fs := if bool_decide (is_Some (fs !! csvFile))
              then renameSync csvFile (csvFile +:+ ".backup") fs else fs in
    (JS.Ok tt, renameSync tempCsvFile csvFile fs).

(** The block followed by the part of [main]'s [catch] that removes the
    temporary file before the error is thrown again. *)
Definition process_or_cleanup (staging : list (string * string))
  (fs : gmap string string) : JS.result unit * gmap string string :=
  match process staging fs with
  | (JS.Throw error, fs) => (JS.Throw error, delete tempCsvFile fs)
  | r => r
  end.

End WithPaths.
End Launch.

(** ** updateLock.js: the queries on the lock *)

Module LockQueries.
Import UpdateLock.

Section WithHost.
Variable h : host.

(** [getLockValue(lockKey)] *)
Definition getLockValue (lockKey : string) : Redis.M (option string) :=
  Redis.try_catch
    (value ← Redis.get lockKey;
     mret (match value with
           | Some v => if JS.truthy v then Some (JS.trim v) else None
           | None => None
           end))
    (fun _ => mret None).

(** [isLocked(lockKey)] *)
Definition isLocked (lockKey : string) : Redis.M bool :=
  Redis.try_catch
    (value ← Redis.get lockKey;
     mret (bool_decide (is_Some value)))
    (fun _ => mret false).

(** [cleanupStaleLock(lockKey)] *)
Definition cleanupStaleLock (lockKey : string) : Redis.M bool :=
  Redis.try_catch
    (isStale ← isLockStale h lockKey;
     if negb isStale then mret false
     else _ ← Redis.del lockKey; mret true)
    (fun _ => mret false).

End WithHost.
End LockQueries.

(** ** loadToRedis.js: [ip2int] *)

Module Ip2Int.

(** [ToUint32] and [ToInt32] of an integer. *)
Definition ToUint32 (z : Z) : Z := z mod 2 ^ 32.

Definition ToInt32 (z : Z) : Z :=
  let m := z mod 2 ^ 32 in if m <? 2 ^ 31 then m else m - 2 ^ 32.

(** [x << k] for [k] below 32; [None] is [NaN], which the conversion of the
    operand turns into zero. *)
Definition shl (x : option Z) (k : Z) : Z :=
  ToInt32 (Z.shiftl (ToInt32 (default 0 x)) k).

(** [x + y] on numbers: [NaN] when an operand is. *)
Definition add (x y : option Z) : option Z :=
  match x, y with
  | Some a, Some b => Some (a + b)
  | _, _ => None
  end.

(** [ip2int(ip)]: the reduction over the fields, then [>>> 0]. *)
Definition ip2int (ip : string) : Z :=
  ToUint32 (default 0
    (fold_left (fun ipInt octet => add (Some (shl ipInt 8)) (JS.parseInt10 octet))
       (JS.split "." ip) (Some 0))).

End Ip2Int.

(** ** serve.js: the DroneBL query *)

Module DroneBL.
Import Serve.

(** The object [{name, source, type}] that [lookupDroneBL] returns; a type
    of [None] is [NaN]. *)
Record listing : Type := mkListing {
  name : string;
  source : string;
  type : option Z
}.

(** [`${x}`] of a number. *)
Definition show (x : option Z) : string :=
  match x with
  | Some z => JS.Number_toString z
  | None => "NaN"
  end.

(** [parts.reverse().join('.')] followed by the zone of the list. *)
Definition dnsblHostname (ip : string) : string :=
  String.concat "." (rev (JS.split "." ip)) +:+ ".dnsbl.dronebl.org".

Section WithResolver.
Context `{IpUtils}.

(** [dns.resolve4]: the addresses of the A records, or an error. *)
Variable resolve4 : string -> JS.result (list string).

(** [lookupDroneBL(ip)]; [None] is [null].  Every error of the resolver is
    caught. *)
Definition lookupDroneBL (ip : string) : option listing :=
  if negb (isValidIpv4 ip) then None
  else
    match resolve4 (dnsblHostname ip) with
    | JS.Ok (typeIP :: _) =>
        let typeParts := JS.split "." typeIP in
        let typeCode := JS.parseInt10 (default "undefined" (last typeParts)) in
        Some (mkListing ("dronebl_type_" +:+ show typeCode) "dronebl" typeCode)
    | JS.Ok [] => None
    | JS.Throw _ => None
    end.

End WithResolver.
End DroneBL.

(** ** websocket.js: the rate limit of a connection *)

Module WebSocket.

(** The entry [{count, resetTime}] of a connection in [messageCounts]. *)
Record counts : Type := mkCounts {
  count : Z;
  resetTime : Z
}.

Section WithConfig.
Variable rateLimitWindow : Z.
Variable maxMessages : Z.

(** [checkRateLimit(connectionId)] at the time [now] of [Date.now()]: the
    answer and [messageCounts] afterwards. *)
Definition checkRateLimit (now : Z) (connectionId : string)
  (messageCounts : gmap string counts) : bool * gmap string counts :=
  let c := default (mkCounts 0 (now + rateLimitWindow))
             (messageCounts !! connectionId) in
  let c := if resetTime c <? now then mkCounts 0 (now + rateLimitWindow) else c in
  let c := mkCounts (count c + 1) (resetTime c) in
  (maxMessages <? count c, <[connectionId := c]> messageCounts).

End WithConfig.
End WebSocket.

(** ** launch.js: [main] *)

Module Main.
Import Json.

(** What [main] does not control: the process and its host, the clock as
    [toISOString] prints it (read as one instant), the flags of the command
    line, the plugins with the outcome of their [load()] (name,
    [abortOnFail], rejected), the staging directory as the merge finds it
    once the plugins have run, what the CSV stream of the loader makes of
    the live file, the world of the loader, and the messages of the errors.
    The ten-minute timer of the download stage throws from its own callback,
    outside the promise of [main]; the runs described are those in which it
    does not fire. *)
Record world : Type := mkWorld {
  host : UpdateLock.host;
  toISOString : string;
  args_download : bool;
  args_process : bool;
  args_load : bool;
  plugins : list (string * bool * bool);
  staging : list (string * string);
  read_csv : option string -> LoadToRedis.csv;
  loader : LoadToRedis.world;
  message : JS.exn -> string
}.

(** The state [main] works on: the Redis server, the file system, and its
    variable [lockValue]. *)
Record store : Type := mkStore {
  redis : Redis.state;
  files : gmap string string;
  lockValue : option string
}.

Definition M (A : Type) : Type := store -> JS.result A * store.

#[global] Instance M_ret : MRet M := fun A a s => (JS.Ok a, s).
#[global] Instance M_bind : MBind M := fun A B k c s =>
  match c s with
  | (JS.Ok a, s') => k a s'
  | (JS.Throw e, s') => (JS.Throw e, s')
  end.

Definition throw {A} (e : JS.exn) : M A := fun s => (JS.Throw e, s).

Definition try_catch {A} (body : M A) (handler : JS.exn -> M A) : M A :=
  fun s =>
    match body s with
    | (JS.Ok a, s') => (JS.Ok a, s')
    | (JS.Throw e, s') => handler e s'
    end.

(** A computation of a Redis client, on the server of the store. *)
Definition on_redis {A} (c : Redis.M A) : M A :=
  fun s => let '(r, st) := c (redis s) in (r, mkStore st (files s) (lockValue s)).

Definition on_files {A} (f : gmap string string -> JS.result A * gmap string string)
  : M A :=
  fun s => let '(r, fs) := f (files s) in (r, mkStore (redis s) fs (lockValue s)).

Definition lift {A} (r : JS.result A) : M A := fun s => (r, s).

Definition get_files : M (gmap string string) := fun s => (JS.Ok (files s), s).

Definition get_lockValue : M (option string) := fun s => (JS.Ok (lockValue s), s).

Definition set_lockValue (v : option string) : M unit :=
  fun s => (JS.Ok tt, mkStore (redis s) (files s) v).

(** [SET key value]: the value the key held goes, with its time to live.
    The log of the server keeps the commands of the index, the cache and
    the lock; this one is not among them. *)
Definition set (key v : string) : Redis.M unit :=
  d ← Redis.read; Redis.write (<[key := Redis.VString v None]> d).

(** [{...fields, ...metadata}]: a name that is there keeps its place and
    takes the later value. *)
Definition spread (fields metadata : list (string * json)) : list (string * json) :=
  fold_left (fun acc kv => Serve.set_field kv.1 kv.2 acc) metadata fields.

Section WithWorld.
Context `{Codec}.
Variable w : world.
Variable redisPrefix : string.
Variable csvFile : string.

Definition lockKey : string := redisPrefix +:+ "update_lock".
Definition statusKey : string := redisPrefix +:+ "update_status".

(** [updateStatus(status, metadata)]: whatever fails is logged and
    dropped. *)
Definition updateStatus (status : string) (metadata : list (string * json))
  : Redis.M unit :=
  Redis.swallow
    (set statusKey
       (JSON_stringify
          (JObj (spread [("status", JStr status);
                         ("timestamp", JStr (toISOString w));
                         ("pid", JNum (UpdateLock.pid (host w)))]
                   metadata)))).

(** The loop over the settled results of the plugins. *)
Fixpoint settle (results : list (string * bool * bool)) : JS.result unit :=
  match results with
  | [] => JS.Ok tt
  | (name, abortOnFail, rejected) :: rest =>
      if rejected && abortOnFail
      then JS.Throw (JS.Error ("Abort: plugin [" +:+ name
                                 +:+ "] has been set to abort process on fail."))
      else settle rest
  end.

(** The block [if (args.download)]: the plugins have settled; a plugin
    that was rejected and aborts on failure ends the update. *)
Definition download : M unit :=
  if args_download w then
    _ ← on_redis (updateStatus "in_progress" [("stage", JStr "downloading")]);
    lift (settle (plugins w))
  else mret tt.

(** The block [if (args.process)]: the merge of [Launch.process]. *)
Definition process : M unit :=
  if args_process w then
    _ ← on_redis (updateStatus "in_progress" [("stage", JStr "processing")]);
    on_files (Launch.process csvFile (staging w))
  else mret tt.

(** The block [if (args.load)]: the loader reads the live CSV. *)
Definition load : M unit :=
  if args_load w then
    _ ← on_redis (updateStatus "in_progress" [("stage", JStr "loading")]);
    fs ← get_files;
    on_redis (LoadToRedis.load (loader w) (read_csv w (fs !! csvFile)) redisPrefix)
  else mret tt.

(** [if (lockValue) await updateLock.releaseLock(lockKey, lockValue)] *)
Definition release : M unit :=
  lv ← get_lockValue;
  if JS.truthy (default "" lv)
  then _ ← on_redis (UpdateLock.releaseLock lockKey lv); mret tt
  else mret tt.

(** The body of the [try] of [main]. *)
Definition attempt : M string :=
  acquired ← on_redis (UpdateLock.acquireLock (host w) lockKey 3600);
  if negb acquired then
    isLocked ← on_redis (LockQueries.isLocked lockKey);
    if (isLocked : bool) then
      _ ← on_redis (updateStatus "skipped" [("reason", JStr "Lock already held")]);
      mret "skipped"
    else throw (JS.Error "Failed to acquire update lock")
  else
    v ← on_redis (LockQueries.getLockValue lockKey);
    _ ← set_lockValue v;
    _ ← on_redis (updateStatus "in_progress" [("stage", JStr "starting")]);
    _ ← download;
    _ ← process;
    _ ← load;
    _ ← on_redis (updateStatus "completed" [("timestamp", JStr (toISOString w))]);
    _ ← release;
    mret "success".

(** The [catch] of [main]: the status, the lock, the temporary file, and
    the error again. *)
Definition recover (error : JS.exn) : M string :=
  _ ← on_redis (updateStatus "failed" [("error", JStr (message w error));
                                        ("timestamp", JStr (toISOString w))]);
  _ ← release;
  _ ← on_files (fun fs => (JS.Ok tt, delete (Launch.tempCsvFile csvFile) fs));
  throw error.

(** [main()] *)
Definition main : M string := try_catch attempt recover.

End WithWorld.
End Main.

(** ** Reference instances of the interfaces *)

(** The instances serve to run the code on the sample data.  The codec
    reads and prints the texts of the samples as the engine does: objects
    whose keys are not numerals (the engine lists those first), integers
    up to 2^53 and no fractions.  The theorems do not depend on it: they
    hold for every codec. *)

Module Reference.
Import Json.

Definition quote : ascii := ascii_of_nat 34.
Definition backslash : ascii := ascii_of_nat 92.

(** [JSON.stringify] without indentation, for strings whose only characters
    to escape are the quote and the backslash. *)
Fixpoint escape (s : string) : string :=
  match s with
  | EmptyString => EmptyString
  | String c s' =>
      if Ascii.eqb c quote || Ascii.eqb c backslash
      then String backslash (String c (escape s'))
      else String c (escape s')
  end.

Definition quoted (s : string) : string :=
  String quote (escape s +:+ String quote EmptyString).

Fixpoint stringify (j : json) : string :=
  match j with
  | JNull => "null"
  | JBool true => "true"
  | JBool false => "false"
  | JNum z => JS.Number_toString z
  | JStr s => quoted s
  | JArr items => "[" +:+ String.concat "," (List.map stringify items) +:+ "]"
  | JObj fields =>
      "{" +:+ String.concat ","
                (List.map (fun kv => quoted kv.1 +:+ ":" +:+ stringify kv.2) fields)
          +:+ "}"
  end.

Definition isJsonSpace (c : ascii) : bool :=
  let k := nat_of_ascii c in
  (k =? 32)%nat || (k =? 9)%nat || (k =? 10)%nat || (k =? 13)%nat.

Fixpoint skip (s : string) : string :=
  match s with
  | String c s' => if isJsonSpace c then skip s' else s
  | EmptyString => EmptyString
  end.

(** The rest of a string literal after its opening quote. *)
Fixpoint string_body (s : string) : option (string * string) :=
  match s with
  | EmptyString => None
  | String c s' =>
      if Ascii.eqb c quote then Some (EmptyString, s')
      else if Ascii.eqb c backslash then
        match s' with
        | String c' s'' =>
            if Ascii.eqb c' quote || Ascii.eqb c' backslash then
              '(b, r) ← string_body s''; Some (String c' b, r)
            else None
        | EmptyString => None
        end
      else if (nat_of_ascii c <? 32)%nat then None
      else '(b, r) ← string_body s'; Some (String c b, r)
  end.

Definition isDigit (c : ascii) : bool :=
  let k := nat_of_ascii c in (48 <=? k)%nat && (k <=? 57)%nat.

Fixpoint digits (acc : Z) (s : string) : Z * string :=
  match s with
  | String c s' =>
      if isDigit c then digits (acc * 10 + (Z.of_nat (nat_of_ascii c) - 48)) s'
      else (acc, s)
  | EmptyString => (acc, s)
  end.

(** An integer literal; a fraction or an exponent is not read. *)
Definition number (neg : bool) (s : string) : option (json * string) :=
  match s with
  | String c _ =>
      if isDigit c then
        let '(v, r) := digits 0 s in
        match r with
        | String "." _ | String "e" _ | String "E" _ => None
        | _ => Some (JNum (if neg then - v else v), r)
        end
      else None
  | EmptyString => None
  end.

(** [obj[k] = v] while parsing: a repeated key keeps its place and takes
    the later value. *)
Definition add_field (k : string) (v : json) (fields : list (string * json))
  : list (string * json) :=
  Serve.set_field k v fields.

(** A value, then what follows it.  [elements] reads an array after its
    bracket or a comma, [members] an object; [fuel] bounds the nesting and
    the number of items. *)
Fixpoint value (fuel : nat) (s : string) : option (json * string) :=
  match fuel with
  | O => None
  | S fuel =>
      match skip s with
      | String "n" (String "u" (String "l" (String "l" r))) => Some (JNull, r)
      | String "t" (String "r" (String "u" (String "e" r))) => Some (JBool true, r)
      | String "f" (String "a" (String "l" (String "s" (String "e" r)))) =>
          Some (JBool false, r)
      | String "-" r => number true r
      | String "[" r =>
          match skip r with
          | String "]" r' => Some (JArr [], r')
          | _ => '(items, r') ← elements fuel r; Some (JArr items, r')
          end
      | String "{" r =>
          match skip r with
          | String "}" r' => Some (JObj [], r')
          | _ => '(fields, r') ← members fuel [] r; Some (JObj fields, r')
          end
      | String c r =>
          if Ascii.eqb c quote then '(b, r') ← string_body r; Some (JStr b, r')
          else number false (String c r)
      | EmptyString => None
      end
  end
with elements (fuel : nat) (s : string) : option (list json * string) :=
  match fuel with
  | O => None
  | S fuel =>
      '(v, r) ← value fuel s;
      match skip r with
      | String "," r' => '(vs, r'') ← elements fuel r'; Some (v :: vs, r'')
      | String "]" r' => Some ([v], r')
      | _ => None
      end
  end
with members (fuel : nat) (acc : list (string * json)) (s : string)
  : option (list (string * json) * string) :=
  match fuel with
  | O => None
  | S fuel =>
      match skip s with
      | String c r =>
          if Ascii.eqb c quote then
            '(k, r') ← string_body r;
            match skip r' with
            | String ":" r'' =>
                '(v, r3) ← value fuel r'';
                let acc := add_field k v acc in
                match skip r3 with
                | String "," r4 => members fuel acc r4
                | String "}" r4 => Some (acc, r4)
                | _ => None
                end
            | _ => None
            end
          else None
      | EmptyString => None
      end
  end.

(** [JSON.parse] of such texts: one value and nothing after it. *)
Definition parse (s : string) : option json :=
  '(v, r) ← value (S (String.length s)) s;
  match skip r with
  | EmptyString => Some v
  | _ => None
  end.

#[global] Instance codec : Codec := {|
  JSON_parse := parse;
  JSON_stringify := stringify
|}.

(** Dotted quads: four runs of one to three digits, each at most 255. *)
Definition octet (s : string) : option Z :=
  let n := String.length s in
  if (1 <=? n)%nat && (n <=? 3)%nat
     && forallb isDigit (list_ascii_of_string s) then
    let v := (digits 0 s).1 in
    if v <=? 255 then Some v else None
  else None.

Definition quad (ip : string) : option Z :=
  match List.map octet (JS.split "." ip) with
  | [Some a; Some b; Some c; Some d] => Some (((a * 256 + b) * 256 + c) * 256 + d)
  | _ => None
  end.

#[global] Instance ipUtils : Serve.IpUtils := {|
  Serve.isValidIpv4 := fun ip => bool_decide (is_Some (quad ip));
  Serve.toLong := fun ip => default 0 (quad ip)
|}.

End Reference.

(** ** Vocabulary of the properties *)

(** The order of the event sort. *)

Module SortSpec.
Import LoadToRedis.

(** The comparator orders events by the integer [2 n + e]. *)
Definition key (a : event) : Z := 2 * ev_n a + (if ev_e a then 1 else 0).

(** Events in comparator order: each one is at most every later one. *)
Inductive ordered : list event -> Prop :=
| ordered_nil : ordered []
| ordered_cons a l :
    Forall (fun b => key a <= key b) l -> ordered l -> ordered (a :: l).

End SortSpec.

(** Decimal numerals. *)

Module TextSpec.
Import JS.

Definition isDecimal (c : ascii) : Prop :=
  exists d, 0 <= d < 10 /\ forall R, 10 <= R -> digitValue R c = Some d.

Definition decimal (s : string) : Prop :=
  Forall isDecimal (list_ascii_of_string s).

(** The value of a numeral read after [acc]. *)
Fixpoint uint_value (acc : Z) (d : Decimal.uint) : Z :=
  match d with
  | Decimal.Nil => acc
  | Decimal.D0 d => uint_value (acc * 10 + 0) d
  | Decimal.D1 d => uint_value (acc * 10 + 1) d
  | Decimal.D2 d => uint_value (acc * 10 + 2) d
  | Decimal.D3 d => uint_value (acc * 10 + 3) d
  | Decimal.D4 d => uint_value (acc * 10 + 4) d
  | Decimal.D5 d => uint_value (acc * 10 + 5) d
  | Decimal.D6 d => uint_value (acc * 10 + 6) d
  | Decimal.D7 d => uint_value (acc * 10 + 7) d
  | Decimal.D8 d => uint_value (acc * 10 + 8) d
  | Decimal.D9 d => uint_value (acc * 10 + 9) d
  end.

(** A character that is no digit in radix ten stops the reading. *)
Definition stops (rest : string) : Prop :=
  match rest with
  | EmptyString => True
  | String c _ => digitValue 10 c = None
  end.

End TextSpec.

(** The cache of the lookup. *)

Module CacheSpec.
Import Json Redis Serve.

Section WithInterfaces.
Context `{Codec} `{IpUtils}.

Definition cacheKey (redisPrefix ip : string) (includeDroneBL : bool) : string :=
  redisPrefix +:+ "cache:" +:+ ip +:+ (if includeDroneBL then ":dronebl" else "").

(** What is written back for a result. *)
Definition cacheValue (result : json) : string :=
  match result with
  | JNull => "null"
  | _ => JSON_stringify result
  end.

(** The server without the cache entry of an address. *)
Definition forget (key : string) (st : state) : state :=
  mkState (delete key (data st)) (log st).

Definition with_write_failure (w : world) (b : bool) : world :=
  mkWorld (lookupDroneBL w) b.

(** The result of the lookup proper, from the keyspace. *)
Definition fresh (w : world) (redisPrefix ip : string) (includeDroneBL : bool)
  (d : gmap string value) : JS.result json :=
  match d !! (redisPrefix +:+ "ranges") with
  | Some (VString _ _) | Some (VList _) | Some (VSet _) => JS.Throw WRONGTYPE
  | r =>
      let answer := match r with
                    | Some (VZSet z) => option_list (zset_first_from (toLong ip) z)
                    | _ => []
                    end in
      redisResult ← redisResult_of (toLong ip) answer;
      merge redisResult (if includeDroneBL then lookupDroneBL w ip else None)
  end.

(** The cache holds nothing usable for the key. *)
Definition miss (key : string) (d : gmap string value) : Prop :=
  d !! key = None \/
  exists c ttl, d !! key = Some (VString c ttl) /\ c <> "null" /\ JSON_parse c = None.

End WithInterfaces.
End CacheSpec.

(** The lines of the merged CSV. *)

Module LaunchSpec.
Import Launch.

(** A data line as the validation accepts it: three fields, the first two
    of which [parseInt] reads as numbers. *)
Definition wellformed (line : string) : Prop :=
  exists a b c x y, JS.split "|" line = [a; b; c]
                    /\ JS.parseInt a = Some x /\ JS.parseInt b = Some y.

Definition header_present (line : string) : Prop :=
  JS.includes "start_int" line = true /\ JS.includes "end_int" line = true
  /\ JS.includes "list" line = true.

Definition lines_of (l : list string) : string :=
  String.concat (String LF EmptyString) l.

(** What the staged files that are not hidden hold, one after the other
    in the order of the directory. *)
Fixpoint contents (staging : list (string * string)) : string :=
  match staging with
  | [] => EmptyString
  | (name, text) :: rest =>
      if hidden name then contents rest else text +:+ contents rest
  end.

(** The merged file: the header line, then the contents. *)
Definition merged_text (staging : list (string * string)) : string :=
  "start_int|end_int|list" +:+ String LF (contents staging).

End LaunchSpec.

(** Computations of the loader and the keys they touch. *)

Module LoaderSpec.
Import Json Redis LoadToRedis.

Definition no_rename (c : command) : Prop :=
  match c with RENAME _ _ => False | _ => True end.

(** A computation is [quiet] on a key when it leaves the key as it is and
    only appends to the log commands other than [RENAME]; it [grows] when it
    only appends to the log. *)
Definition quiet {A} (key : string) (c : M A) : Prop :=
  forall st r st', c st = (r, st') ->
    data st' !! key = data st !! key
    /\ exists l, log st' = log st ++ l /\ Forall no_rename l.

Definition grows {A} (c : M A) : Prop :=
  forall st r st', c st = (r, st') -> exists l, log st' = log st ++ l.

Definition to_tempKey (q : queued) : Prop := q.1.1.2 = tempKey.

(** The error handler of [load]: the temporary key is gone afterwards. *)
Definition cleanup (error : JS.exn) : M unit :=
  _ ← swallow (tempKeyExists ← exists_ tempKey;
               if negb (tempKeyExists =? 0) then del tempKey else mret 0);
  throw error.

Fixpoint ends_with (suffix s : string) : bool :=
  bool_decide (s = suffix) ||
  match s with
  | String _ s' => ends_with suffix s'
  | EmptyString => false
  end.

(** A computation is [safe] for the live key when the key is as before
    unless the log shows that the rename was sent. *)
Definition safe {A} (live : string) (c : M A) : Prop :=
  forall st r st', c st = (r, st') ->
    exists l, log st' = log st ++ l
              /\ (RENAME tempKey live ∉ l -> data st' !! live = data st !! live).

(** The iterations of the flattening loop at which a write is queued when
    the tags can be grouped: the loop at iteration [k] with the active list
    [s], over what is left of [scratch]. *)
Fixpoint queuing (k : Z) (s : list string) (scratch : list event) : list Z :=
  match scratch with
  | cur :: ((nex :: _) as rest) =>
      let '(s, n, m) := advance s cur nex in
      if emits s n m then k :: queuing (k + 1) (JS.SetSpread s) rest
      else queuing (k + 1) s rest
  | _ => []
  end.

Definition writes (rows : list row) : list Z :=
  queuing 0 [] (sort (events rows)).

(** The write of iteration [k] is in the last pipeline, the one whose
    replies the loader looks at: the loop, whose last iteration is
    [2 * length rows - 2], flushes a pipeline at every multiple of
    [batchSize] and does not look at the replies. *)
Definition checked (rows : list row) (k : Z) : Prop :=
  k / batchSize = (2 * Z.of_nat (length rows) - 2) / batchSize.

(** The iteration that queued a write. *)
Definition iteration (q : queued) : Z := q.1.1.1.

(** The live key is as in [st0] and no rename has been sent since. *)
Definition calm (live : string) (st0 st : state) : Prop :=
  data st !! live = data st0 !! live
  /\ exists l, log st = log st0 ++ l /\ Forall no_rename l.

(** From a state in [P], the computation ends in [Q] with its result or in
    [E] with its exception. *)
Definition ensures {A} (P : state -> Prop) (c : M A)
  (Q : A -> state -> Prop) (E : JS.exn -> state -> Prop) : Prop :=
  forall st r st', P st -> c st = (r, st') ->
    match r with JS.Ok a => Q a st' | JS.Throw e => E e st' end.

End LoaderSpec.

(** The records of the sweep. *)

Module SweepSpec.
Import LoadToRedis.

(** The first coordinate that an event lets a record start at: the
    coordinate of a start, the one after an end. *)
Definition lo (a : event) : Z := ev_n a + (if ev_e a then 1 else 0).

(** Records in ascending order from a bound: each starts at or after the
    bound, is not empty, and the next ones start after its end. *)
Fixpoint ascending (b : Z) (recs : list (Z * Z * list string)) : Prop :=
  match recs with
  | [] => True
  | (n, m, _) :: rest => b <= n /\ n <= m /\ ascending (m + 1) rest
  end.

(** The record that contains a coordinate, when there is one. *)
Definition contains (q : Z) (r : Z * Z * list string) : bool :=
  (r.1.1 <=? q) && (q <=? r.1.2).

Definition find_record (q : Z) (recs : list (Z * Z * list string))
  : option (Z * Z * list string) :=
  List.find (contains q) recs.

(** The row of a line whose two bounds are read as numbers. *)
Definition row_of (l : line) : option row :=
  match parsed l with
  | (Number (Some a), Number (Some b), Text t) => Some (mkRow a b t)
  | _ => None
  end.

(** The rows of the lines of a file, when no bound is [NaN]. *)
Definition rows_of (lines : list line) : option (list row) :=
  mapM row_of lines.

(** Bounds that a double holds exactly, with the coordinates next to
    them. *)
Definition safe_bounds (r : row) : Prop :=
  - 2 ^ 53 < start_int r < 2 ^ 53 /\ - 2 ^ 53 < end_int r < 2 ^ 53.

End SweepSpec.

(** The entries of the index. *)

Module IndexSpec.
Import Json Redis LoadToRedis.

Section WithCodec.
Context `{Codec}.

(** The index entry of a record: its member at the score of its end. *)
Definition entry (r : Z * Z * list string) : JS.result (Z * string) :=
  data ← group [] r.2; mret (r.1.2, member r.1.1 r.1.2 (payload data)).

Fixpoint index_of (recs : list (Z * Z * list string))
  : JS.result (list (Z * string)) :=
  match recs with
  | [] => mret []
  | r :: rest => e ← entry r; es ← index_of rest; mret (e :: es)
  end.

(** A payload whose text has no [|] and reads back. *)
Definition readable (p : json) : Prop :=
  JS.split "|" (JSON_stringify p) = [JSON_stringify p]
  /\ JSON_parse (JSON_stringify p) = Some p.

Definition readable_record (r : Z * Z * list string) : Prop :=
  forall data, group [] r.2 = JS.Ok data -> readable (payload data).

(** Entries in the order of the index: members of records with ascending
    bounds, each at the score of its end. *)
Fixpoint entries_above (b : Z) (idx : list (Z * string)) : Prop :=
  match idx with
  | [] => True
  | (score, mem) :: rest =>
      (exists n p, b <= n /\ n <= score /\ mem = member n score p)
      /\ entries_above (score + 1) rest
  end.

Definition below (b : Z) (y : Z * string) : Prop :=
  exists n p, 0 <= n /\ 0 <= y.1 < b /\ y.2 = member n y.1 p.

End WithCodec.

Definition zadd_all (idx z : list (Z * string)) : list (Z * string) :=
  fold_left (fun z e => zset_add e.1 e.2 z) idx z.

End IndexSpec.

(** The effect of the index writes. *)

Module PublishSpec.
Import Redis LoadToRedis.

(** The effect of one [ZADD] on the keyspace. *)
Definition zadd_data (key : string) (e : Z * string) (d : gmap string value)
  : gmap string value :=
  match d !! key with
  | None => <[key := VZSet [e]]> d
  | Some (VZSet z) => <[key := VZSet (zset_add e.1 e.2 z)]> d
  | Some _ => d
  end.

Definition publish (es : list (Z * string)) (d : gmap string value)
  : gmap string value :=
  fold_left (fun d e => zadd_data tempKey e d) es d.

Definition queued_entry (q : queued) : Z * string := (q.1.2, q.2).

End PublishSpec.

(** The payload as the lookup returns it. *)

Module LookupSpec.
Import Json.

(** The payload as the lookup returns it: an empty [list] is added when no
    tag has the type [list]. *)
Definition with_list (p : json) : json :=
  match p with
  | JObj fields =>
      if bool_decide ("list" ∈ fields.*1) then p
      else JObj (fields ++ [("list", JArr [])])
  | _ => p
  end.

End LookupSpec.

(** Rows, their events and the tags that are active. *)

Module PartitionSpec.
Import LoadToRedis.

#[global] Instance row_eq_dec : EqDecision row.
Proof. solve_decision. Defined.

Definition start_ev (r : row) : event := mkEvent (start_int r) (r_list r) false.
Definition end_ev (r : row) : event := mkEvent (end_int r) (r_list r) true.

(** A row covers the coordinates of its closed interval. *)
Definition covers (r : row) (x : Z) : Prop := start_int r <= x <= end_int r.

(** Two rows are apart when they carry different tags or share no
    coordinate. *)
Definition apart (r1 r2 : row) : Prop :=
  r_list r1 = r_list r2 ->
  end_int r1 < start_int r2 \/ end_int r2 < start_int r1.

Fixpoint pairwise_apart (rows : list row) : Prop :=
  match rows with
  | [] => True
  | r :: rest => Forall (apart r) rest /\ pairwise_apart rest
  end.

Definition proper (rows : list row) : Prop :=
  Forall (fun r => start_int r <= end_int r) rows.

(** The rows whose start has been swept and whose end is still to come. *)
Definition active (rows : list row) (swept todo : list event) (T : string)
  : Prop :=
  exists r, r ∈ rows /\ r_list r = T /\ start_ev r ∈ swept /\ end_ev r ∈ todo.

(** The active list holds exactly the tags of the active rows, once each. *)
Definition tracks (rows : list row) (swept todo : list event) (s : list string)
  : Prop :=
  NoDup s /\ forall T, T ∈ s <-> active rows swept todo T.

End PartitionSpec.

(** The update lock. *)

Module LockSpec.
Import Redis UpdateLock.

(** The value [acquireLock] stores: [`${process.pid}-${Date.now()}`]. *)
Definition own_value (h : host) : string :=
  JS.Number_toString (pid h) +:+ "-" +:+ JS.Number_toString (Date_now h).

(** The process that a lock value names: the number that [parseInt(_, 10)]
    reads in the first dash-separated field of the trimmed value. *)
Definition holder (v : string) : option Z :=
  JS.parseInt10 (default "undefined" (JS.split "-" (JS.trim v) !! 0%nat)).

(** The lock is stale for a host: its value is not empty and names a
    process other than the host's own that is not running there. *)
Definition stale (h : host) (v : string) : bool :=
  JS.truthy v &&
  match holder v with
  | Some p => negb (p =? pid h) && negb (isProcessRunning h p)
  | None => false
  end.

(** Whether [acquireLock] finds the lock free: the key is absent, or it
    holds a stale value. *)
Definition free (h : host) (o : option value) : bool :=
  match o with
  | None => true
  | Some (VString v _) => stale h v
  | Some _ => false
  end.

End LockSpec.

(** Results that survive the cache. *)

Module ReadBackSpec.
Import Json.

Section WithCodec.
Context `{Codec}.

(** A result that the cache gives back: [null], or a value whose text is
    not ["null"] and parses to the value. *)
Definition reads_back (r : json) : Prop :=
  r = JNull \/ (JSON_stringify r <> "null" /\ JSON_parse (JSON_stringify r) = Some r).

End WithCodec.
End ReadBackSpec.

(** Keys that a computation leaves alone. *)

Module LoaderFrameSpec.
Import Json Redis LoadToRedis.

(** A computation [keeps] a key when it leaves the key as it is, whatever
    its outcome. *)
Definition keeps {A} (key : string) (c : M A) : Prop :=
  forall st r st', c st = (r, st') -> data st' !! key = data st !! key.

(** The members that [SMEMBERS] gives for a key, and the items of a list
    key: an absent key is an empty set or list. *)
Definition members_of (o : option value) : option (list string) :=
  match o with
  | None => Some []
  | Some (VSet items) => Some items
  | Some _ => None
  end.

Definition items_of (o : option value) : option (list string) :=
  match o with
  | None => Some []
  | Some (VList items) => Some items
  | Some _ => None
  end.

Section WithCodec.
Context `{Codec}.
Variable w : world.

(** The entry of the size history: [{date, size, lists}]. *)
Definition size_entry (rows : list row) (lists : list string) : string :=
  JSON_stringify (JObj [("date", JStr (now w));
                        ("size", JNum (Z.of_nat (length rows)));
                        ("lists", JArr (List.map JStr lists))]).

End WithCodec.
End LoaderFrameSpec.

(** The temporary key during a load. *)

Module LoadRunSpec.
Import Redis LoadToRedis.

(** The temporary key is absent or holds a sorted set. *)
Definition tempOK (d : gmap string value) : Prop :=
  match d !! tempKey with
  | None | Some (VZSet _) => True
  | Some _ => False
  end.

End LoadRunSpec.

(** The messages of a connection. *)

Module RateLimitSpec.
Import WebSocket.

Section WithConfig.
Variable rateLimitWindow : Z.
Variable maxMessages : Z.

(** The messages of one connection, at their times of arrival: the answers
    of [checkRateLimit] in order. *)
Fixpoint arrivals (times : list Z) (connectionId : string)
  (messageCounts : gmap string counts) : list bool * gmap string counts :=
  match times with
  | [] => ([], messageCounts)
  | now :: rest =>
      let '(b, m) := checkRateLimit rateLimitWindow maxMessages now connectionId messageCounts in
      let '(bs, m') := arrivals rest connectionId m in
      (b :: bs, m')
  end.

End WithConfig.
End RateLimitSpec.

(** The stores of [main]. *)

Module MainSpec.
Import Main.

(** A computation of [main] started in a store that satisfies [P] ends in
    one that satisfies [Q] with its result, or [E] with its error. *)
Definition triple {A} (P : store -> Prop) (c : M A)
  (Q : A -> store -> Prop) (E : JS.exn -> store -> Prop) : Prop :=
  forall s, P s ->
    match c s with
    | (JS.Ok a, s') => Q a s'
    | (JS.Throw e, s') => E e s'
    end.

(** The lock is held with the value [own], and [lockValue] is that value. *)
Definition holding (lockKey own : string) (s : store) : Prop :=
  Redis.data (redis s) !! lockKey = Some (Redis.VString own (Some 3600))
  /\ lockValue s = Some own.

Section WithWorld.
Context `{Json.Codec}.
Variable w : world.
Variable redisPrefix : string.
Variable csvFile : string.

(** On the server nothing but the status and the lock differs from the
    keyspace [d0], and the files satisfy [G]. *)
Definition untouched (d0 : gmap string Redis.value)
  (G : gmap string string -> Prop) (s : store) : Prop :=
  (forall key, key <> statusKey redisPrefix -> key <> lockKey redisPrefix ->
     Redis.data (redis s) !! key = d0 !! key)
  /\ G (files s).

(** The error that ends the update before the load stage: that of an
    aborting plugin, or else that of the merge. *)
Definition early_failure (fs : gmap string string) : option JS.exn :=
  match (if args_download w then settle (plugins w) else JS.Ok tt) with
  | JS.Throw e => Some e
  | JS.Ok _ =>
      if args_process w then
        match (Launch.process csvFile (staging w) fs).1 with
        | JS.Throw e => Some e
        | JS.Ok _ => None
        end
      else None
  end.

(** The text [updateStatus] stores. *)
Definition status_text (status : string) (metadata : list (string * Json.json))
  : string :=
  Json.JSON_stringify
    (Json.JObj (spread [("status", Json.JStr status);
                        ("timestamp", Json.JStr (toISOString w));
                        ("pid", Json.JNum (UpdateLock.pid (host w)))]
                  metadata)).

(** While the update is under way from the store [s0]: the lock is held
    with the value of the process, the two metadata keys of the loader are
    as in [s0], and the files are [fs]. *)
Definition working (s0 : store) (fs : gmap string string) (s : store) : Prop :=
  holding (lockKey redisPrefix) (LockSpec.own_value (host w)) s
  /\ Redis.data (redis s) !! (redisPrefix +:+ "lists")
     = Redis.data (redis s0) !! (redisPrefix +:+ "lists")
  /\ Redis.data (redis s) !! (redisPrefix +:+ "ipListSize")
     = Redis.data (redis s0) !! (redisPrefix +:+ "ipListSize")
  /\ files s = fs.

(** Once the loader has returned: the lock is still held, the live key
    holds the index [idx], and the files are [fs]. *)
Definition loaded (idx : list (Z * string)) (fs : gmap string string)
  (s : store) : Prop :=
  holding (lockKey redisPrefix) (LockSpec.own_value (host w)) s
  /\ Redis.data (redis s) !! (redisPrefix +:+ "ranges") = Some (Redis.VZSet idx)
  /\ files s = fs.

End WithWorld.
End MainSpec.

(** Dotted quads. *)

Module DroneBLSpec.

(** The dotted form of four numbers. *)
Definition dotted (a b c d : Z) : string :=
  JS.Number_toString a +:+ "." +:+ JS.Number_toString b +:+ "."
    +:+ JS.Number_toString c +:+ "." +:+ JS.Number_toString d.

End DroneBLSpec.

(** ** Sample data for running the code *)

Module Samples.
Import Json Redis LoadToRedis UpdateLock LaunchSpec.

(** A tag as the plugins write it: [{"type": ..., "name": ...}]. *)
Definition tag (type name : string) : string :=
  Reference.stringify (JObj [("type", JStr type); ("name", JStr name)]).

Definition Ta : string := tag "list" "a".
Definition Tb : string := tag "list" "b".

(** A loader run in which no write is refused and no other client writes. *)
Definition quiet : LoadToRedis.world :=
  LoadToRedis.mkWorld "2024-01-01 00:00:00" (fun _ => false) (fun d => d) true.

Definition empty_server : Redis.state := Redis.mkState ∅ [].
Definition sample_host : host := mkHost 4242 1700000000000 (fun _ => false).

(** A lookup for which DroneBL knows nothing and the cache write succeeds. *)
Definition silent : Serve.world := Serve.mkWorld (fun _ => None) false.

(** The header, nine data lines that are well formed, and a tenth that is
    not. *)
Definition nine_good_one_bad : string :=
  lines_of ("start_int|end_int|list" :: replicate 9 "1|2|x" ++ ["garbage"]).

(** A server whose live index holds the record [1,5] with the tag [a]. *)
Definition old_member : string :=
  member 1 5 (JObj [("list", JArr [JObj [("name", JStr "a")]])]).

Definition serving : state :=
  mkState {[ "ip_lists:ranges" := VZSet [(5, old_member)] ]} [].

(** Another client adds a member to the live key between the rename and
    its verification. *)
Definition meddling : world :=
  mkWorld "2024-01-01 00:00:00" (fun _ => false)
    (fun d => match d !! "ip_lists:ranges" with
              | Some (VZSet z) => <["ip_lists:ranges" := VZSet (zset_add 99 "x" z)]> d
              | _ => d
              end)
    true.

(** A server whose live index holds the record [7,9] with an empty payload. *)
Definition previous : state :=
  mkState {[ "ip_lists:ranges" := VZSet [(9, "7|9|{}")] ]} [].

(** A loader run in which the server refuses the index write of the
    iteration 2 and accepts the others. *)
Definition refusing : LoadToRedis.world :=
  LoadToRedis.mkWorld "2024-01-01 00:00:00" (fun k => k =? 2) (fun d => d) true.

(** Two rows that are apart: the loop queues a write at the iterations 0
    and 2. *)
Definition rows_apart : list row := [mkRow 1 5 Ta; mkRow 7 9 Tb].

(** A loader run in which the stream fails before the client has sent
    anything. *)
Definition cut_off : LoadToRedis.world :=
  LoadToRedis.mkWorld "2024-01-01 00:00:00" (fun _ => false) (fun d => d) false.

(** A server on which an earlier run has left its temporary key. *)
Definition littered : state :=
  mkState {[ "ip_lists:ranges" := VZSet [(9, "7|9|{}")];
             tempKey := VZSet [(3, "1|3|{}")] ]} [].

(** Two rows with different tags that share the coordinate 5. *)
Definition two_rows : list row := [mkRow 1 5 Ta; mkRow 5 10 Tb].

(** A process on a host where every pid asked about is running. *)
Definition other_host : host := mkHost 77 1700000000500 (fun _ => true).

(** An update in which the plugin [firehol], which aborts on failure, was
    rejected; and the same seen from a host where every pid is running. *)
Definition aborting : Main.world :=
  Main.mkWorld sample_host "2024-01-01T00:00:00.000Z" true true true
    [("firehol", true, true)] [] (fun _ => Rows []) quiet (fun _ => "failed").

Definition onlooker : Main.world :=
  Main.mkWorld other_host "2024-01-01T00:00:00.000Z" true true true
    [("firehol", true, true)] [] (fun _ => Rows []) quiet (fun _ => "failed").

Definition fresh_store : Main.store := Main.mkStore empty_server ∅ None.

Definition locked_store : Main.store :=
  Main.mkStore
    (mkState {[ "ip_lists:update_lock" := VString "4242-1700000000000" (Some 3600) ]} [])
    ∅ None.

(** An update that goes through: the one plugin that aborts on failure was
    fulfilled, the staging directory holds one file with one row. *)
Definition staged_file : string :=
  "1|5|" +:+ Ta +:+ String Launch.LF EmptyString.

Definition working_update : Main.world :=
  Main.mkWorld sample_host "2024-01-01T00:00:00.000Z" true true true
    [("firehol", true, false); ("spamhaus", false, true)]
    [(".gitkeep", ""); ("firehol.data.txt", staged_file)]
    (fun _ => Rows [mkRow 1 5 Ta]) quiet (fun _ => "failed").

Definition installed : gmap string string :=
  (Launch.process "ipFile" (Main.staging working_update) ∅).2.

End Samples.

(** ** Proof automation *)

Module Tactics.
Import Redis.

Ltac run :=
  repeat (progress (unfold mbind, mret, M_bind, M_ret, throw, lift, try_catch,
                      swallow, record, read, write, get, del, exists_,
                      set_ex_nx, setex, zadd, zcard, zrangebyscore_limit1,
                      rename, smembers, lpush in *; simpl in *)).

(** The commands: each is quiet on every key it does not write. *)
Ltac quiet_command :=
  intros st r st' Hrun; run;
  repeat case_match; simplify_eq; simpl;
  rewrite ?lookup_insert_ne, ?lookup_delete_ne by done;
  (split; [done|]); eexists; (split; [reflexivity|]);
  repeat constructor.

End Tactics.

(* ===================================================================== *)
(** * Part II: properties                                                 *)
(* ===================================================================== *)

(** ** The event sort *)

Module SortFacts.
Import LoadToRedis.
Import SortSpec TextSpec CacheSpec LaunchSpec LoaderSpec SweepSpec IndexSpec
  PublishSpec LookupSpec PartitionSpec Tactics.

Lemma compare_le (a b : event) : compare a b <= 0 <-> key a <= key b.
Proof.
  unfold compare, key.
  destruct (Z.ltb_spec (ev_n a) (ev_n b)), (Z.ltb_spec (ev_n b) (ev_n a)),
    (ev_e a), (ev_e b); simpl; lia.
Qed.

Lemma insert_elem (x y : event) (l : list event) :
  y ∈ insert x l <-> y = x \/ y ∈ l.
Proof.
  induction l as [|z l IH]; simpl.
  - rewrite list_elem_of_singleton. rewrite elem_of_nil. tauto.
  - destruct (compare x z <=? 0); rewrite ?elem_of_cons, ?IH; tauto.
Qed.

Lemma insert_ordered (x : event) (l : list event) :
  ordered l -> ordered (insert x l).
Proof.
  induction 1 as [|a l Hall Hord IH]; simpl.
  - constructor; [constructor | constructor].
  - destruct (Z.leb_spec (compare x a) 0) as [Hle|Hgt].
    + apply compare_le in Hle. constructor.
      * constructor; [exact Hle|].
        eapply Forall_impl; [exact Hall|]. simpl. intros; lia.
      * constructor; assumption.
    + assert (key a <= key x) as Hax.
      { destruct (Z.le_gt_cases (key x) (key a)) as [Hc|Hc]; [|lia].
        apply compare_le in Hc. lia. }
      constructor; [|exact IH].
      apply Forall_forall. intros y Hy. apply insert_elem in Hy as [->|Hy].
      * exact Hax.
      * rewrite Forall_forall in Hall. auto.
Qed.

Lemma sort_ordered (l : list event) : ordered (sort l).
Proof.
  induction l; simpl; [constructor | by apply insert_ordered].
Qed.

Lemma insert_Permutation (x : event) (l : list event) :
  Permutation (insert x l) (x :: l).
Proof.
  induction l as [|y l IH]; simpl; [done|].
  destruct (compare x y <=? 0); [done|].
  rewrite IH. apply perm_swap.
Qed.

Lemma sort_Permutation (l : list event) : Permutation (sort l) l.
Proof.
  induction l as [|x l IH]; simpl; [done|].
  by rewrite insert_Permutation, IH.
Qed.

Lemma ordered_lookup (l : list event) (i j : nat) (a b : event) :
  ordered l -> (i < j)%nat -> l !! i = Some a -> l !! j = Some b ->
  key a <= key b.
Proof.
  intros Hord. revert i j. induction Hord as [|x l Hall Hord IH]; intros i j Hij Hi Hj.
  - by rewrite lookup_nil in Hi.
  - destruct j as [|j]; [lia|]. simpl in Hj. destruct i as [|i]; simpl in Hi.
    + injection Hi as ->. rewrite Forall_forall in Hall.
      apply Hall. by eapply list_elem_of_lookup_2.
    + eapply (IH i j); [lia|done|done].
Qed.

End SortFacts.

(** ** C4: the tie-break at a shared coordinate *)

Module TieBreak.
Import LoadToRedis SortFacts.
Import SortSpec TextSpec CacheSpec LaunchSpec LoaderSpec SweepSpec IndexSpec
  PublishSpec LookupSpec PartitionSpec Tactics.

(** C4.  In the sorted event array a start event never comes after an end
    event of the same coordinate, and the rows [1,5] with tag [T1] and [5,10]
    with another tag [T2] are flattened to exactly [1,4] with [T1], [5,5]
    with [T1] and [T2], and [6,10] with [T2]. *)
Theorem start_before_end_at_shared_coordinate (T1 T2 : string) :
  T1 <> T2 ->
  (forall (rows : list row) (i j : nat) (a b : event),
     sort (events rows) !! i = Some a -> sort (events rows) !! j = Some b ->
     ev_n a = ev_n b -> ev_e a = true -> ev_e b = false -> (j < i)%nat) /\
  sort (events [mkRow 1 5 T1; mkRow 5 10 T2])
    = [mkEvent 1 T1 false; mkEvent 5 T2 false;
       mkEvent 5 T1 true; mkEvent 10 T2 true] /\
  flatten [mkRow 1 5 T1; mkRow 5 10 T2]
    = [(1, 4, [T1]); (5, 5, [T1; T2]); (6, 10, [T2])].
Proof.
  intros Hne. split; [|split].
  - intros rows i j a b Hi Hj Hn Ha Hb.
    destruct (Nat.lt_trichotomy i j) as [Hlt|[->|Hgt]]; [|congruence|exact Hgt].
    pose proof (ordered_lookup _ i j a b (sort_ordered _) Hlt Hi Hj) as Hk.
    unfold key in Hk. rewrite Ha, Hb in Hk. lia.
  - reflexivity.
  - unfold flatten. simpl. unfold emits, JS.SetSpread. simpl.
    repeat (case_bool_decide; simpl; simplify_eq; try done;
            try match goal with
                | Hin : _ ∈ _ |- _ => apply list_elem_of_In in Hin; simpl in Hin; intuition congruence
                | Hnin : _ ∉ _ |- _ => exfalso; apply Hnin; apply list_elem_of_In; simpl; tauto
                end).
Qed.

Lemma start_before_end_witness :
  sort (events [mkRow 1 5 Samples.Ta; mkRow 5 10 Samples.Tb])
    = [mkEvent 1 Samples.Ta false; mkEvent 5 Samples.Tb false;
       mkEvent 5 Samples.Ta true; mkEvent 10 Samples.Tb true] /\
  flatten [mkRow 1 5 Samples.Ta; mkRow 5 10 Samples.Tb]
    = [(1, 4, [Samples.Ta]); (5, 5, [Samples.Ta; Samples.Tb]);
       (6, 10, [Samples.Tb])].
Proof.
  apply (start_before_end_at_shared_coordinate Samples.Ta Samples.Tb).
  vm_compute. discriminate.
Defined.

End TieBreak.

(** ** Decimal numerals, [split] and [trim] *)

Module TextFacts.
Import JS.
Import SortSpec TextSpec CacheSpec LaunchSpec LoaderSpec SweepSpec IndexSpec
  PublishSpec LookupSpec PartitionSpec Tactics.

Lemma uint_value_acc (d : Decimal.uint) (acc : positive) :
  uint_value (Z.pos acc) d = Z.pos (Pos.of_uint_acc d acc).
Proof.
  revert acc. induction d; intros acc; simpl; try reflexivity;
    rewrite <- IHd; f_equal; lia.
Qed.

Lemma uint_value_0 (d : Decimal.uint) :
  uint_value 0 d = Z.of_N (Pos.of_uint d).
Proof.
  induction d; simpl; try reflexivity; try exact IHd;
    change (0 * 10 + _) with (Z.pos 1) || idtac;
    try (rewrite <- uint_value_acc; reflexivity).
Qed.

Lemma uint_value_to_uint (p : positive) :
  uint_value 0 (Pos.to_uint p) = Z.pos p.
Proof.
  rewrite uint_value_0, DecimalPos.Unsigned.of_to. reflexivity.
Qed.

Lemma string_of_uint_decimal (d : Decimal.uint) :
  decimal (NilEmpty.string_of_uint d).
Proof.
  unfold decimal.
  induction d; simpl; [apply Forall_nil_2|..]; (apply Forall_cons_2; [|assumption]);
    match goal with
    | |- isDecimal ?c =>
        let v := eval vm_compute in (Z.of_nat (nat_of_ascii c) - 48) in
        let k := eval vm_compute in (Z.of_nat (nat_of_ascii c)) in
        exists v; split; [lia|];
        intros R HR; unfold digitValue;
        change (Z.of_nat (nat_of_ascii c)) with k; simpl;
        change (k - 48) with v;
        destruct (Z.ltb_spec v R) as [_|Hge]; [reflexivity | lia]
    end.
Qed.

Lemma parseDigits_string_of_uint (d : Decimal.uint) (acc : Z) (rest : string) :
  parseDigits 10 (Some acc) (NilEmpty.string_of_uint d +:+ rest)
  = parseDigits 10 (Some (uint_value acc d)) rest.
Proof.
  revert acc. induction d; intros acc; simpl; try reflexivity; apply IHd.
Qed.

Lemma parseDigits_None_string_of_uint (d : Decimal.uint) (rest : string) :
  d <> Decimal.Nil ->
  parseDigits 10 None (NilEmpty.string_of_uint d +:+ rest)
  = parseDigits 10 (Some (uint_value 0 d)) rest.
Proof.
  destruct d; intros Hd; try congruence; simpl;
    apply parseDigits_string_of_uint.
Qed.

Lemma to_uint_not_Nil (p : positive) : Pos.to_uint p <> Decimal.Nil.
Proof.
  intros Hnil. pose proof (DecimalPos.Unsigned.of_to p) as Hp.
  rewrite Hnil in Hp. discriminate.
Qed.

(** The numeral of a natural number: decimal digits, at least one. *)
Lemma Number_toString_nonneg (z : Z) :
  0 <= z ->
  exists d, d <> Decimal.Nil /\ Number_toString z = NilEmpty.string_of_uint d
            /\ uint_value 0 d = z.
Proof.
  intros Hz. destruct z as [|p|p]; [| |lia].
  - exists (Decimal.D0 Decimal.Nil). repeat split; congruence.
  - exists (Pos.to_uint p). split; [apply to_uint_not_Nil|]. split.
    + unfold Number_toString. simpl. unfold NilZero.string_of_uint.
      pose proof (to_uint_not_Nil p). destruct (Pos.to_uint p); congruence.
    + apply uint_value_to_uint.
Qed.

Lemma Number_toString_decimal (z : Z) : 0 <= z -> decimal (Number_toString z).
Proof.
  intros Hz. destruct (Number_toString_nonneg z Hz) as (d & _ & -> & _).
  apply string_of_uint_decimal.
Qed.

Lemma Number_toString_not_empty (z : Z) : Number_toString z <> EmptyString.
Proof.
  destruct z as [|p|p]; [discriminate| |discriminate].
  unfold Number_toString. simpl. unfold NilZero.string_of_uint.
  pose proof (to_uint_not_Nil p). destruct (Pos.to_uint p); simpl; congruence.
Qed.

Lemma parseDigits_stops (acc : option Z) (rest : string) :
  stops rest -> parseDigits 10 acc rest = acc.
Proof. destruct rest; simpl; [done|]. by intros ->. Qed.

Lemma isDecimal_not_white (c : ascii) : isDecimal c -> isWhiteSpace c = false.
Proof.
  intros (d & Hd & Hv). specialize (Hv 10 ltac:(lia)).
  unfold digitValue in Hv. unfold isWhiteSpace.
  set (k := Z.of_nat (nat_of_ascii c)) in *.
  destruct (Z.leb_spec 48 k), (Z.leb_spec k 57), (Z.leb_spec 97 k),
    (Z.leb_spec k 122), (Z.leb_spec 65 k), (Z.leb_spec k 90);
    simpl in Hv; try discriminate;
    destruct (Z.leb_spec 9 k), (Z.leb_spec k 13), (Z.eqb_spec k 32),
      (Z.eqb_spec k 160); simpl; try reflexivity; try lia;
    match type of Hv with
    | (if ?b then _ else _) = _ => destruct (Z.ltb_spec (k - 87) 10), (Z.ltb_spec (k - 55) 10); try discriminate; lia
    end.
Qed.

Lemma isDecimal_code (c : ascii) :
  isDecimal c -> 48 <= Z.of_nat (nat_of_ascii c) <= 57.
Proof.
  intros (d & Hd & Hv). specialize (Hv 10 ltac:(lia)).
  unfold digitValue in Hv.
  set (k := Z.of_nat (nat_of_ascii c)) in *.
  destruct (Z.leb_spec 48 k), (Z.leb_spec k 57); simpl in Hv; [lia| | |];
    destruct (Z.leb_spec 97 k), (Z.leb_spec k 122), (Z.leb_spec 65 k),
      (Z.leb_spec k 90); simpl in Hv; try discriminate;
    destruct (Z.ltb_spec (k - 87) 10), (Z.ltb_spec (k - 55) 10);
    try discriminate; lia.
Qed.

Lemma decimal_cons (c : ascii) (s : string) :
  decimal (String c s) <-> isDecimal c /\ decimal s.
Proof. unfold decimal. simpl. apply Forall_cons. Qed.

Lemma isDecimal_neq (c x : ascii) :
  isDecimal c -> ~ (48 <= Z.of_nat (nat_of_ascii x) <= 57) -> Ascii.eqb c x = false.
Proof.
  intros Hc Hx. apply Ascii.eqb_neq. intros ->.
  apply isDecimal_code in Hc. lia.
Qed.

(** A numeral followed by the separator is the first field. *)
Lemma split_decimal (sep : ascii) (d rest : string) :
  decimal d -> ~ (48 <= Z.of_nat (nat_of_ascii sep) <= 57) ->
  split sep (d +:+ String sep rest) = d :: split sep rest.
Proof.
  intros Hd Hsep. induction d as [|c d IH]; simpl.
  - by rewrite Ascii.eqb_refl.
  - apply decimal_cons in Hd as [Hc Hd].
    rewrite (isDecimal_neq c sep Hc Hsep), (IH Hd). reflexivity.
Qed.

Lemma trimEnd_cons (c : ascii) (s : string) :
  isWhiteSpace c = false -> trimEnd (String c s) = String c (trimEnd s).
Proof. intros Hc. simpl. rewrite Hc. by destruct (trimEnd s). Qed.

Lemma trimEnd_decimal (d rest : string) :
  decimal d -> trimEnd (d +:+ rest) = d +:+ trimEnd rest.
Proof.
  intros Hd. induction d as [|c d IH]; [done|].
  apply decimal_cons in Hd as [Hc Hd].
  change (String c d +:+ rest) with (String c (d +:+ rest)).
  rewrite trimEnd_cons by (by apply isDecimal_not_white).
  rewrite (IH Hd). reflexivity.
Qed.

Lemma trimStart_decimal (c : ascii) (s : string) :
  isDecimal c -> trimStart (String c s) = String c s.
Proof. intros Hc. simpl. by rewrite (isDecimal_not_white c Hc). Qed.

Lemma stripSign_decimal (c : ascii) (s : string) :
  isDecimal c -> stripSign (String c s) = (false, String c s).
Proof.
  intros Hc. unfold stripSign.
  rewrite !(isDecimal_neq c) by (done || (vm_compute; intros [H1 H2]; auto)).
  reflexivity.
Qed.

Lemma stripHexPrefix_decimal (s : string) :
  decimal s -> stripHexPrefix s = None.
Proof.
  intros Hs. destruct s as [|c0 [|c1 h]]; [done|done|].
  apply decimal_cons in Hs as [_ Hs]. apply decimal_cons in Hs as [Hc1 _].
  unfold stripHexPrefix.
  rewrite !(isDecimal_neq c1) by (done || (vm_compute; intros [H1 H2]; auto)).
  by rewrite andb_false_r.
Qed.

Lemma string_app_empty (s : string) : s +:+ EmptyString = s.
Proof.
  induction s as [|c s IH]; [reflexivity|].
  change (String c s +:+ EmptyString) with (String c (s +:+ EmptyString)).
  by rewrite IH.
Qed.

(** Reading back the numeral of a natural number. *)
Lemma parseInt10_Number_toString (z : Z) :
  0 <= z -> parseInt10 (Number_toString z) = Some z.
Proof.
  intros Hz. destruct (Number_toString_nonneg z Hz) as (d & Hd & Hs & Hv).
  pose proof (Number_toString_decimal z Hz) as Hdec.
  unfold parseInt10. rewrite Hs in *.
  destruct (NilEmpty.string_of_uint d) as [|c s] eqn:Hds.
  { destruct d; simpl in Hds; congruence. }
  apply decimal_cons in Hdec as [Hc Hdec].
  rewrite trimStart_decimal, stripSign_decimal by done.
  rewrite <- Hds, <- (string_app_empty (NilEmpty.string_of_uint d)).
  rewrite parseDigits_None_string_of_uint by done.
  simpl. by rewrite Hv.
Qed.

Lemma parseInt_Number_toString (z : Z) :
  0 <= z -> parseInt (Number_toString z) = Some z.
Proof.
  intros Hz. pose proof (parseInt10_Number_toString z Hz) as H10.
  pose proof (Number_toString_decimal z Hz) as Hdec.
  unfold parseInt, parseInt10 in *.
  destruct (Number_toString z) as [|c s] eqn:Hs; [done|].
  pose proof Hdec as Hdec'. apply decimal_cons in Hdec' as [Hc _].
  rewrite trimStart_decimal, stripSign_decimal in * by done.
  by rewrite stripHexPrefix_decimal.
Qed.

End TextFacts.

(** ** C7 and C10: the update lock *)

Module UpdateLockFacts.
Import Redis UpdateLock.
Import SortSpec TextSpec CacheSpec LaunchSpec LoaderSpec SweepSpec IndexSpec
  PublishSpec LookupSpec PartitionSpec Tactics.

(** C7, as the code has it.  [releaseLock] deletes the lock and returns
    [true] exactly when the caller's value is not empty and the stored value
    equals the caller's value with the white space around it removed;
    otherwise it returns [false] and the keyspace is unchanged. *)
Theorem releaseLock_compares_trimmed_value
  (lockKey : string) (lockValue : option string) (st : state) :
  let out := releaseLock lockKey lockValue st in
  (out.1 = JS.Ok true <->
     exists v ttl, lockValue = Some v /\ v <> EmptyString /\
                   data st !! lockKey = Some (VString (JS.trim v) ttl)) /\
  (out.1 = JS.Ok true -> data out.2 = delete lockKey (data st)) /\
  (out.1 <> JS.Ok true -> out.1 = JS.Ok false /\ data out.2 = data st).
Proof.
  unfold releaseLock, compare_and_delete. run.
  destruct lockValue as [v|]; run; [|naive_solver].
  destruct v as [|c v]; run; [naive_solver|].
  destruct (data st !! lockKey) as [[current ttl| | |]|] eqn:Hkey; run;
    rewrite ?Hkey; run; try naive_solver.
  case_bool_decide as Hcur; run.
  - subst current. naive_solver.
  - rewrite Hkey. run. naive_solver.
Qed.

(** The claim as stated fails on a caller's value with white space around
    it: the stored value differs from the caller's value, and the lock is
    deleted all the same. *)
Lemma releaseLock_trims_counterexample :
  let st := mkState {[ "ip_lists:update_lock" := VString "7-1700000000000" (Some 3600) ]} [] in
  let out := releaseLock "ip_lists:update_lock" (Some " 7-1700000000000") st in
  "7-1700000000000" <> " 7-1700000000000" /\
  out.1 = JS.Ok true /\
  data out.2 !! "ip_lists:update_lock" = None.
Proof. split; [discriminate|]. split; vm_compute; reflexivity. Qed.

Section OwnLock.
Variable h : host.

Lemma own_value_first_field (ts : string) :
  0 <= pid h ->
  JS.split "-" (JS.trim (JS.Number_toString (pid h) +:+ "-" +:+ ts))
  = JS.Number_toString (pid h) :: JS.split "-" (JS.trimEnd ts).
Proof.
  intros Hpid. pose proof (TextFacts.Number_toString_decimal _ Hpid) as Hdec.
  unfold JS.trim.
  assert (JS.trimStart (JS.Number_toString (pid h) +:+ "-" +:+ ts)
          = JS.Number_toString (pid h) +:+ "-" +:+ ts) as ->.
  { pose proof (TextFacts.Number_toString_not_empty (pid h)) as Hne.
    destruct (JS.Number_toString (pid h)) as [|c s]; [done|].
    apply TextFacts.decimal_cons in Hdec as [Hc _].
    apply (TextFacts.trimStart_decimal c _ Hc). }
  rewrite TextFacts.trimEnd_decimal by done.
  change ("-" +:+ ts) with (String "-" ts).
  rewrite TextFacts.trimEnd_cons by reflexivity.
  apply TextFacts.split_decimal; [done|]. vm_compute. intros [H1 H2]; auto.
Qed.

(** C10.  When the stored lock value starts with the numeral of the
    process's own pid followed by a dash, [isLockStale] answers [false], and
    [acquireLock] by that process answers [false] and leaves the keyspace as
    it is. *)
Theorem own_lock_is_never_stale
  (lockKey ts : string) (ttl : option Z) (ttlSeconds : Z) (st : state) :
  0 <= pid h ->
  data st !! lockKey
    = Some (VString (JS.Number_toString (pid h) +:+ "-" +:+ ts) ttl) ->
  (isLockStale h lockKey st).1 = JS.Ok false /\
  (acquireLock h lockKey ttlSeconds st).1 = JS.Ok false /\
  data (acquireLock h lockKey ttlSeconds st).2 = data st.
Proof.
  intros Hpid Hkey.
  pose proof (TextFacts.Number_toString_not_empty (pid h)) as Hne.
  assert (JS.truthy (JS.Number_toString (pid h) +:+ "-" +:+ ts) = true) as Htruthy.
  { destruct (JS.Number_toString (pid h)); [done|reflexivity]. }
  assert (forall l, (isLockStale h lockKey (mkState (data st) l)).1 = JS.Ok false
                    /\ data (isLockStale h lockKey (mkState (data st) l)).2 = data st)
    as Hstale.
  { intros l. unfold isLockStale. run. rewrite Hkey. run. rewrite Htruthy. run.
    rewrite own_value_first_field by done. run.
    rewrite TextFacts.parseInt10_Number_toString by done.
    rewrite Z.eqb_refl. done. }
  split; [|].
  - destruct st as [d l]. apply Hstale.
  - unfold acquireLock. run. rewrite Hkey. run. rewrite Htruthy. run.
    destruct (Hstale (log st ++ [GET lockKey])) as [H1 H2].
    destruct (isLockStale h lockKey _) as [[[]|] st'] eqn:Hs; simpl in *;
      simplify_eq. done.
Qed.

End OwnLock.

Lemma own_lock_is_never_stale_witness :
  let st := mkState {[ "ip_lists:update_lock" := VString "4242-1700000000000" (Some 3600) ]} [] in
  (isLockStale Samples.sample_host "ip_lists:update_lock" st).1 = JS.Ok false /\
  (acquireLock Samples.sample_host "ip_lists:update_lock" 3600 st).1 = JS.Ok false /\
  data (acquireLock Samples.sample_host "ip_lists:update_lock" 3600 st).2 = data st.
Proof.
  apply (own_lock_is_never_stale Samples.sample_host "ip_lists:update_lock"
           "1700000000000" (Some 3600) 3600).
  - vm_compute. discriminate.
  - reflexivity.
Defined.

End UpdateLockFacts.

(** ** C8: the result cache *)

Module CacheFacts.
Import Json Redis Serve.
Import SortSpec TextSpec CacheSpec LaunchSpec LoaderSpec SweepSpec IndexSpec
  PublishSpec LookupSpec PartitionSpec Tactics.

Lemma app_String (c : ascii) (s t : string) :
  String c s +:+ t = String c (s +:+ t).
Proof. reflexivity. Qed.

Lemma app_inv_head (p s t : string) : p +:+ s = p +:+ t -> s = t.
Proof.
  induction p as [|c p IH]; [done|].
  rewrite !app_String. intros [= Heq]. auto.
Qed.

Section WithInterfaces.
Context `{Codec} `{IpUtils}.

Lemma cacheKey_not_ranges (redisPrefix ip : string) (b : bool) :
  cacheKey redisPrefix ip b <> redisPrefix +:+ "ranges".
Proof. unfold cacheKey. intros Heq. apply app_inv_head in Heq. discriminate. Qed.

Lemma lookupIP_miss_run (w : world) (redisPrefix ip : string)
  (includeDroneBL : bool) (st : state) :
  isValidIpv4 ip = true ->
  let key := cacheKey redisPrefix ip includeDroneBL in
  miss key (data st) ->
  lookupIP w redisPrefix ip includeDroneBL st
  = (let st1 := mkState (data st)
                  ((log st ++ [GET key])
                   ++ [ZRANGEBYSCORE_LIMIT1 (redisPrefix +:+ "ranges") (toLong ip)]) in
     match fresh w redisPrefix ip includeDroneBL (data st) with
     | JS.Throw e => (JS.Throw e, st1)
     | JS.Ok result =>
         (JS.Ok result,
          mkState (if cache_write_fails w then data st
                   else <[key := VString (cacheValue result) (Some 172800)]> (data st))
                  (log st1 ++ [SETEX key 172800 (cacheValue result)]))
     end).
Proof.
  intros Hvalid key Hmiss.
  unfold lookupIP, fresh. fold (cacheKey redisPrefix ip includeDroneBL).
  fold key. rewrite Hvalid. run.
  destruct Hmiss as [Hk|(c & ttl & Hk & Hc & Hparse)]; rewrite Hk; run;
    [|rewrite bool_decide_eq_false_2 by done; rewrite Hparse; run];
    (destruct (data st !! (redisPrefix +:+ "ranges")) as [[]|]; simpl; try done;
     try match goal with
     | |- context [redisResult_of ?l ?a] =>
         destruct (redisResult_of l a) as [redisResult|]; simpl; [|done]
     end;
     try match goal with
     | |- context [merge ?r ?d] => destruct (merge r d) as [[]|]; simpl; try done
     end;
     destruct (cache_write_fails w); done).
Qed.

Lemma lookupIP_miss (w : world) (redisPrefix ip : string)
  (includeDroneBL : bool) (st : state) :
  isValidIpv4 ip = true ->
  let key := cacheKey redisPrefix ip includeDroneBL in
  let out := lookupIP w redisPrefix ip includeDroneBL st in
  miss key (data st) ->
  out.1 = fresh w redisPrefix ip includeDroneBL (data st) /\
  (exists rest,
     log out.2 = log st ++ GET key
                   :: ZRANGEBYSCORE_LIMIT1 (redisPrefix +:+ "ranges") (toLong ip)
                   :: rest) /\
  (forall result, out.1 = JS.Ok result ->
     data out.2 = if cache_write_fails w then data st
                  else <[key := VString (cacheValue result) (Some 172800)]> (data st)).
Proof.
  intros Hvalid key out Hmiss. unfold out.
  rewrite (lookupIP_miss_run w redisPrefix ip includeDroneBL st Hvalid Hmiss).
  fold key. cbv zeta.
  destruct (fresh w redisPrefix ip includeDroneBL (data st)) as [result|e];
    simpl; (split; [done|]); (split; [|naive_solver]).
  - eexists. rewrite <- !app_assoc. simpl. reflexivity.
  - eexists. rewrite <- !app_assoc. simpl. reflexivity.
Qed.

(** C8.  For a valid address.  (1) A cached ["null"] gives [NotFound] after
    the single command [GET]: the index is not queried.  (2) When the cache
    holds no entry for the address, or one that is not ["null"] and does not
    parse, the index is queried, and when the lookup proper ([fresh]: the
    first member from the address on, its containment test and its merge
    with the DroneBL answer) gives a result, that result is returned and a
    [SETEX] with a time to live of 172800 seconds is sent for the cache key,
    with ["null"] for [NotFound] and the JSON text otherwise; the entry is
    stored unless the server refuses the write.  (3) When the lookup proper
    throws, the lookup throws the same after the two reads and nothing is
    written.  (4) A cached text that does not parse gives the result that is
    obtained without the entry.  (5) Whether the cache write fails or not,
    the result is the same. *)
Theorem cache_behaviour (w : world) (redisPrefix ip : string)
  (includeDroneBL : bool) (st : state) :
  isValidIpv4 ip = true ->
  let key := cacheKey redisPrefix ip includeDroneBL in
  let ranges := redisPrefix +:+ "ranges" in
  let out := lookupIP w redisPrefix ip includeDroneBL st in
  (forall ttl, data st !! key = Some (VString "null" ttl) ->
     out = (JS.Ok NotFound, mkState (data st) (log st ++ [GET key]))) /\
  (forall result, miss key (data st) ->
     fresh w redisPrefix ip includeDroneBL (data st) = JS.Ok result ->
     out = (JS.Ok result,
            mkState (if cache_write_fails w then data st
                     else <[key := VString (cacheValue result) (Some (48 * 60 * 60))]>
                            (data st))
                    (log st ++ [GET key;
                                ZRANGEBYSCORE_LIMIT1 ranges (toLong ip);
                                SETEX key (48 * 60 * 60) (cacheValue result)]))) /\
  (forall e, miss key (data st) ->
     fresh w redisPrefix ip includeDroneBL (data st) = JS.Throw e ->
     out = (JS.Throw e,
            mkState (data st)
                    (log st ++ [GET key; ZRANGEBYSCORE_LIMIT1 ranges (toLong ip)]))) /\
  (forall c ttl, data st !! key = Some (VString c ttl) ->
     c <> "null" -> JSON_parse c = None ->
     miss key (data st) /\
     out.1 = (lookupIP w redisPrefix ip includeDroneBL (forget key st)).1) /\
  (lookupIP (with_write_failure w true) redisPrefix ip includeDroneBL st).1
   = (lookupIP (with_write_failure w false) redisPrefix ip includeDroneBL st).1.
Proof.
  intros Hvalid key ranges out. split; [|split; [|split; [|split]]].
  - intros ttl Hkey. unfold out, lookupIP.
    fold (cacheKey redisPrefix ip includeDroneBL). fold key.
    rewrite Hvalid. run. rewrite Hkey. done.
  - intros result Hmiss Hfresh. unfold out.
    rewrite (lookupIP_miss_run w redisPrefix ip includeDroneBL st Hvalid Hmiss).
    fold key ranges. cbv zeta. rewrite Hfresh. cbn [log].
    rewrite <- !app_assoc. reflexivity.
  - intros e Hmiss Hfresh. unfold out.
    rewrite (lookupIP_miss_run w redisPrefix ip includeDroneBL st Hvalid Hmiss).
    fold key ranges. cbv zeta. rewrite Hfresh. cbn [log].
    rewrite <- !app_assoc. reflexivity.
  - intros c ttl Hkey Hc Hparse.
    assert (miss key (data st)) as Hmiss by (right; eauto).
    assert (miss key (data (forget key st))) as Hmiss'.
    { left. apply lookup_delete_eq. }
    split; [done|].
    destruct (lookupIP_miss w redisPrefix ip includeDroneBL st Hvalid Hmiss)
      as (Hr & _).
    destruct (lookupIP_miss w redisPrefix ip includeDroneBL _ Hvalid Hmiss')
      as (Hr' & _).
    fold key in Hr, Hr'. unfold out. rewrite Hr, Hr'.
    unfold fresh, forget. simpl.
    by rewrite lookup_delete_ne by apply cacheKey_not_ranges.
  - unfold lookupIP. rewrite Hvalid. run.
    repeat case_match; simplify_eq; done.
Qed.

End WithInterfaces.

(** A cached ["null"] answers at once; an entry that does not parse is
    passed over, the index answers and the entry is replaced. *)
Lemma cache_behaviour_witness :
  let hit := mkState {[ "ip_lists:cache:10.0.0.1" := VString "null" (Some 172800) ]} [] in
  let st := mkState {[ "ip_lists:cache:0.0.0.3" := VString "{oops" (Some 100);
                       "ip_lists:ranges" := VZSet [(5, Samples.old_member)] ]} [] in
  let result := JObj [("list", JArr [JObj [("name", JStr "a")]])] in
  lookupIP Samples.silent "ip_lists:" "10.0.0.1" false hit
  = (JS.Ok NotFound, mkState (data hit) [GET "ip_lists:cache:10.0.0.1"]) /\
  lookupIP Samples.silent "ip_lists:" "0.0.0.3" false st
  = (JS.Ok result,
     mkState (<["ip_lists:cache:0.0.0.3" := VString (JSON_stringify result) (Some 172800)]>
                (data st))
             [GET "ip_lists:cache:0.0.0.3";
              ZRANGEBYSCORE_LIMIT1 "ip_lists:ranges" 3;
              SETEX "ip_lists:cache:0.0.0.3" 172800 (JSON_stringify result)]).
Proof.
  intros hit st result. split.
  - exact (proj1 (cache_behaviour Samples.silent "ip_lists:" "10.0.0.1" false hit eq_refl)
             (Some 172800) eq_refl).
  - apply (proj1 (proj2 (@cache_behaviour Reference.codec Reference.ipUtils
                           Samples.silent "ip_lists:" "0.0.0.3" false st
                           ltac:(vm_compute; reflexivity))) result).
    + right. exists "{oops", (Some 100). split; [reflexivity|].
      split; [discriminate|reflexivity].
    + vm_compute. reflexivity.
Defined.

End CacheFacts.

(** ** C9: validation and installation of the merged CSV *)

Module LaunchFacts.
Import Launch.
Import SortSpec TextSpec CacheSpec LaunchSpec LoaderSpec SweepSpec IndexSpec
  PublishSpec LookupSpec PartitionSpec Tactics.

Lemma scan_data (rl : list string) (k : Z) (hf : bool) (lc : Z) (hf' : bool) :
  1 <= k -> scan k hf rl = Some (lc, hf') ->
  hf' = hf /\ Forall wellformed (take (Z.to_nat (10 - k)) rl)
  /\ (rl <> [] -> k < lc).
Proof.
  revert k. induction rl as [|line rest IH]; intros k Hk Hscan; simpl in Hscan.
  - simplify_eq. rewrite take_nil. done.
  - destruct (Z.eqb_spec (k + 1) 1) as [|_]; [lia|].
    destruct (Z.leb_spec (k + 1) 10) as [Hle|Hgt].
    + destruct (JS.split "|" line) as [|a [|b [|c [|]]]] eqn:Hsplit;
        simpl in Hscan; try discriminate.
      destruct (JS.parseInt a) as [x|] eqn:Ha; simpl in Hscan; [|discriminate].
      destruct (JS.parseInt b) as [y|] eqn:Hb; simpl in Hscan; [|discriminate].
      destruct (IH (k + 1) ltac:(lia) Hscan) as (-> & Hall & Hlc).
      split; [done|]. split.
      * replace (Z.to_nat (10 - k)) with (S (Z.to_nat (10 - (k + 1)))) by lia.
        simpl. constructor; [|done]. exists a, b, c, x, y. done.
      * intros _. destruct rest; [simpl in Hscan; simplify_eq; lia|].
        specialize (Hlc ltac:(done)). lia.
    + simplify_eq. replace (Z.to_nat (10 - k)) with 0%nat by lia.
      rewrite take_0. split; [done|]. split; [done|]. intros _. lia.
Qed.

Lemma app_not_self (s t : string) : t <> EmptyString -> s +:+ t <> s.
Proof.
  intros Ht Heq. apply Ht.
  apply (CacheFacts.app_inv_head s). by rewrite TextFacts.string_app_empty.
Qed.

Lemma string_app_assoc (s t u : string) : (s +:+ t) +:+ u = s +:+ (t +:+ u).
Proof.
  induction s as [|c s IH]; [done|].
  rewrite !CacheFacts.app_String. by rewrite IH.
Qed.

(** The loop of the merge appends what [contents] lists. *)
Lemma merge_loop (staging : list (string * string)) (acc : string) :
  fold_left (fun acc f => if hidden f.1 then acc else acc +:+ f.2) staging acc
  = acc +:+ contents staging.
Proof.
  revert acc. induction staging as [|[name text] rest IH]; intros acc; simpl.
  - by rewrite TextFacts.string_app_empty.
  - destruct (hidden name); rewrite IH; [done|]. apply string_app_assoc.
Qed.

(** C9, as the code has it.  The validation succeeds only if the file
    exists, has at least 20 bytes, its first line contains the three column
    names, a data line follows, and each of the first nine data lines (lines
    2 to 10 of the file) has exactly three fields of which the first two are
    read as numbers by [parseInt].  The merge stage writes the header line
    and the contents of the staged files that are not hidden to the
    temporary file and validates it: when it is not valid the stage throws,
    the temporary file is removed and every other file is as before; when
    it is valid the live CSV, if there is one, becomes the backup, the
    merged file becomes the live CSV, and every other file is as before. *)
Theorem merged_csv_is_validated_then_installed
  (csvFile : string) (staging : list (string * string)) (fs : gmap string string) :
  (forall file, validateCsvFile fs file = true ->
     exists content header rest,
       fs !! file = Some content /\ (20 <= String.length content)%nat
       /\ readline content = header :: rest /\ rest <> []
       /\ header_present header /\ Forall wellformed (take 9 rest)) /\
  (let merged := merged_text staging in
   let staged := <[tempCsvFile csvFile := merged]> fs in
   let out := process_or_cleanup csvFile staging fs in
   (validateCsvFile staged (tempCsvFile csvFile) = false ->
      out.1 = JS.Throw (JS.Error "CSV validation failed")
      /\ out.2 = delete (tempCsvFile csvFile) fs) /\
   (validateCsvFile staged (tempCsvFile csvFile) = true ->
      out.1 = JS.Ok tt
      /\ out.2 !! csvFile = Some merged
      /\ out.2 !! tempCsvFile csvFile = None
      /\ out.2 !! (csvFile +:+ ".backup")
         = (if fs !! csvFile is Some old then Some old
            else fs !! (csvFile +:+ ".backup"))
      /\ (forall file, file <> csvFile -> file <> tempCsvFile csvFile ->
            file <> csvFile +:+ ".backup" -> out.2 !! file = fs !! file))).
Proof.
  split.
  - intros file Hvalid. unfold validateCsvFile in Hvalid.
    destruct (fs !! file) as [content|] eqn:Hfile; [|discriminate].
    destruct (Z.eqb_spec (Z.of_nat (String.length content)) 0); [discriminate|].
    destruct (Z.ltb_spec (Z.of_nat (String.length content)) 20); [discriminate|].
    destruct (scan 0 false (readline content)) as [[lineCount headerFound]|] eqn:Hscan;
      [|discriminate].
    destruct headerFound; [|discriminate]. simpl in Hvalid.
    destruct (Z.ltb_spec lineCount 2); [discriminate|].
    destruct (readline content) as [|header rest] eqn:Hrl.
    { simpl in Hscan. simplify_eq. }
    simpl in Hscan.
    assert (rest <> []) as Hrest.
    { intros ->. simpl in Hscan. simplify_eq; try lia. }
    apply scan_data in Hscan as (Hhf & Hall & Hlc); [|lia].
    exists content, header, rest. split; [done|]. split; [lia|]. split; [done|].
    split; [done|]. split; [|exact Hall].
    unfold header_present.
    destruct (JS.includes "start_int" header), (JS.includes "end_int" header),
      (JS.includes "list" header); simpl in Hhf; done.
  - intros merged staged out.
    assert (tempCsvFile csvFile <> csvFile) as Htmp by (by apply app_not_self).
    assert (csvFile +:+ ".backup" <> csvFile) as Hbak by (by apply app_not_self).
    assert (tempCsvFile csvFile <> csvFile +:+ ".backup") as Htb.
    { unfold tempCsvFile. intros Heq. apply CacheFacts.app_inv_head in Heq. done. }
    assert (fold_left (fun acc f => if hidden f.1 then acc else acc +:+ f.2)
              staging ("start_int|end_int|list" +:+ String LF EmptyString)
            = merged) as Hmerged.
    { rewrite merge_loop. unfold merged, merged_text.
      by rewrite string_app_assoc. }
    unfold out, process_or_cleanup, process. rewrite Hmerged. fold staged.
    split; intros Hv; rewrite Hv; simpl.
    + split; [done|]. unfold staged. apply delete_insert_eq.
    + split; [done|].
      assert (staged !! tempCsvFile csvFile = Some merged) as Hst
        by apply lookup_insert_eq.
      assert (staged !! csvFile = fs !! csvFile) as Hlive
        by (unfold staged; by rewrite lookup_insert_ne).
      assert (staged !! (csvFile +:+ ".backup") = fs !! (csvFile +:+ ".backup"))
        as Hbackup by (unfold staged; by rewrite lookup_insert_ne).
      assert (forall file, file <> tempCsvFile csvFile ->
                staged !! file = fs !! file) as Hother.
      { intros file Hfile. unfold staged. by rewrite lookup_insert_ne. }
      clearbody staged. unfold renameSync.
      case_bool_decide as Hsome.
      * destruct Hsome as [old Hold]. rewrite Hold.
        rewrite lookup_insert_ne, lookup_delete_ne, Hst by done.
        rewrite Hlive in Hold. rewrite Hold.
        split; [apply lookup_insert_eq|]. split.
        { rewrite lookup_insert_ne by done. apply lookup_delete_eq. }
        split.
        { rewrite lookup_insert_ne, lookup_delete_ne by done.
          apply lookup_insert_eq. }
        intros file Hf1 Hf2 Hf3.
        rewrite lookup_insert_ne, lookup_delete_ne by done.
        rewrite lookup_insert_ne, lookup_delete_ne by done. by apply Hother.
      * rewrite Hst.
        assert (fs !! csvFile = None) as Hnone.
        { rewrite <- Hlive. apply eq_None_not_Some. exact Hsome. }
        rewrite Hnone.
        split; [apply lookup_insert_eq|]. split.
        { rewrite lookup_insert_ne by done. apply lookup_delete_eq. }
        split.
        { by rewrite lookup_insert_ne, lookup_delete_ne. }
        intros file Hf1 Hf2 Hf3.
        rewrite lookup_insert_ne, lookup_delete_ne by done. by apply Hother.
Qed.

(** The claim as stated fails on the tenth data line: the validation
    accepts a file whose tenth data line has a single field. *)
Lemma tenth_data_line_counterexample :
  let fs : gmap string string := {[ "ipFile.tmp" := Samples.nine_good_one_bad ]} in
  validateCsvFile fs "ipFile.tmp" = true /\
  readline Samples.nine_good_one_bad !! 10%nat = Some "garbage" /\
  JS.split "|" "garbage" = ["garbage"].
Proof. vm_compute. done. Qed.

(** The validation read off an accepted file, and a merge that goes
    through: the hidden file is left out, the live CSV becomes the backup
    and the merged file becomes the live CSV. *)
Lemma merged_csv_witness :
  let fs : gmap string string := {[ "ipFile.tmp" := Samples.nine_good_one_bad ]} in
  let live : gmap string string := {[ "ipFile" := "start_int|end_int|list" ]} in
  let staging := [(".gitkeep", "x"); ("firehol.data.txt", Samples.staged_file)] in
  let out := process_or_cleanup "ipFile" staging live in
  (exists content header rest,
     fs !! "ipFile.tmp" = Some content /\ (20 <= String.length content)%nat
     /\ readline content = header :: rest /\ rest <> []
     /\ header_present header /\ Forall wellformed (take 9 rest)) /\
  (out.1 = JS.Ok tt
   /\ out.2 !! "ipFile"
      = Some ("start_int|end_int|list" +:+ String LF Samples.staged_file)
   /\ out.2 !! "ipFile.tmp" = None
   /\ out.2 !! "ipFile.backup" = Some "start_int|end_int|list").
Proof.
  intros fs live staging out. split.
  - apply (proj1 (merged_csv_is_validated_then_installed "ipFile" [] fs)).
    vm_compute. reflexivity.
  - destruct (proj2 (proj2 (merged_csv_is_validated_then_installed
                              "ipFile" staging live))
                ltac:(vm_compute; reflexivity))
      as (Hok & Hlive & Htmp & Hbackup & _).
    split; [exact Hok|]. split; [exact Hlive|]. split; [exact Htmp|].
    exact Hbackup.
Defined.

End LaunchFacts.

(** ** The loader and the keyspace *)

Module LoaderFacts.
Import Json Redis LoadToRedis.
Import SortSpec TextSpec CacheSpec LaunchSpec LoaderSpec SweepSpec IndexSpec
  PublishSpec LookupSpec PartitionSpec Tactics.

Lemma quiet_grows {A} (key : string) (c : M A) : quiet key c -> grows c.
Proof. intros Hq st r st' Hc. destruct (Hq _ _ _ Hc) as (_ & l & Hl & _). eauto. Qed.

Section Closure.
Context {A B : Type}.
Variable key : string.

Lemma quiet_ret (a : A) : quiet key (mret a).
Proof.
  intros st r st' Hc. run. simplify_eq. split; [done|].
  exists []. by rewrite app_nil_r.
Qed.

Lemma quiet_throw (e : JS.exn) : quiet key (@throw A e).
Proof.
  intros st r st' Hc. run. simplify_eq. split; [done|].
  exists []. by rewrite app_nil_r.
Qed.

Lemma quiet_lift (r : JS.result A) : quiet key (lift r).
Proof.
  intros st r' st' Hc. run. simplify_eq. split; [done|].
  exists []. by rewrite app_nil_r.
Qed.

Lemma quiet_bind (c : M A) (k : A -> M B) :
  quiet key c -> (forall a, quiet key (k a)) -> quiet key (c ≫= k).
Proof.
  intros Hc Hk st r st' Hrun. run.
  destruct (c st) as [[a|e] st1] eqn:Hc1.
  - destruct (Hc _ _ _ Hc1) as (Hd1 & l1 & Hl1 & Hn1).
    destruct (Hk a _ _ _ Hrun) as (Hd2 & l2 & Hl2 & Hn2).
    split; [congruence|]. exists (l1 ++ l2).
    rewrite Hl2, Hl1, app_assoc. split; [done|]. by apply Forall_app.
  - simplify_eq. exact (Hc _ _ _ Hc1).
Qed.

Lemma quiet_bind_post (c : M A) (k : A -> M B) (Post : A -> Prop) :
  quiet key c -> (forall st a st', c st = (JS.Ok a, st') -> Post a) ->
  (forall a, Post a -> quiet key (k a)) -> quiet key (c ≫= k).
Proof.
  intros Hc Hpost Hk st r st' Hrun. run.
  destruct (c st) as [[a|e] st1] eqn:Hc1.
  - destruct (Hc _ _ _ Hc1) as (Hd1 & l1 & Hl1 & Hn1).
    destruct (Hk a (Hpost _ _ _ Hc1) _ _ _ Hrun) as (Hd2 & l2 & Hl2 & Hn2).
    split; [congruence|]. exists (l1 ++ l2).
    rewrite Hl2, Hl1, app_assoc. split; [done|]. by apply Forall_app.
  - simplify_eq. exact (Hc _ _ _ Hc1).
Qed.

Lemma quiet_try_catch (c : M A) (handler : JS.exn -> M A) :
  quiet key c -> (forall e, quiet key (handler e)) -> quiet key (try_catch c handler).
Proof.
  intros Hc Hk st r st' Hrun. run.
  destruct (c st) as [[a|e] st1] eqn:Hc1.
  - simplify_eq. exact (Hc _ _ _ Hc1).
  - destruct (Hc _ _ _ Hc1) as (Hd1 & l1 & Hl1 & Hn1).
    destruct (Hk e _ _ _ Hrun) as (Hd2 & l2 & Hl2 & Hn2).
    split; [congruence|]. exists (l1 ++ l2).
    rewrite Hl2, Hl1, app_assoc. split; [done|]. by apply Forall_app.
Qed.

Lemma quiet_swallow (c : M A) : quiet key c -> quiet key (swallow c).
Proof.
  intros Hc st r st' Hrun. run. simplify_eq.
  destruct (c st) as [r1 st1] eqn:Hc1. exact (Hc _ _ _ Hc1).
Qed.

Lemma quiet_if (b : bool) (c1 c2 : M A) :
  quiet key c1 -> quiet key c2 -> quiet key (if b then c1 else c2).
Proof. by destruct b. Qed.

Lemma grows_bind (c : M A) (k : A -> M B) :
  grows c -> (forall a, grows (k a)) -> grows (c ≫= k).
Proof.
  intros Hc Hk st r st' Hrun. run.
  destruct (c st) as [[a|e] st1] eqn:Hc1.
  - destruct (Hc _ _ _ Hc1) as (l1 & Hl1).
    destruct (Hk a _ _ _ Hrun) as (l2 & Hl2).
    exists (l1 ++ l2). by rewrite Hl2, Hl1, app_assoc.
  - simplify_eq. exact (Hc _ _ _ Hc1).
Qed.

End Closure.

Lemma quiet_smembers (key k : string) : quiet key (smembers k).
Proof. quiet_command. Qed.

Lemma quiet_zcard (key k : string) : quiet key (zcard k).
Proof. quiet_command. Qed.

Lemma quiet_exists (key k : string) : quiet key (exists_ k).
Proof. quiet_command. Qed.

Lemma quiet_lpush (key k v : string) : k <> key -> quiet key (lpush k v).
Proof. intros Hk. quiet_command. Qed.

Lemma quiet_zadd (key k : string) (score : Z) (mem : string) :
  k <> key -> quiet key (zadd k score mem).
Proof. intros Hk. quiet_command. Qed.

Lemma quiet_del (key k : string) : k <> key -> quiet key (del k).
Proof. intros Hk. quiet_command. Qed.

Section WithCodec.
Context `{Codec}.
Variable w : world.

Lemma quiet_exec (key : string) (pipeline : list queued) :
  tempKey <> key -> Forall to_tempKey pipeline -> quiet key (exec w pipeline).
Proof.
  intros Hkey. induction 1 as [|[[[k key'] score] mem] rest Hq Hall IH]; simpl.
  - apply quiet_ret.
  - unfold to_tempKey in Hq. simpl in Hq. subst key'.
    apply quiet_bind.
    + apply quiet_if; [apply quiet_ret|].
      apply quiet_try_catch; [|intros; apply quiet_ret].
      apply quiet_bind; [by apply quiet_zadd | intros; apply quiet_ret].
    + intros failed. apply quiet_bind; [exact IH | intros; apply quiet_ret].
Qed.

Lemma quiet_flatten_loop (key : string) (scratch : list event) :
  tempKey <> key ->
  forall k s pipeline,
    Forall to_tempKey pipeline -> quiet key (flatten_loop w k scratch s pipeline).
Proof.
  intros Hkey. induction scratch as [|cur rest IH]; intros k s pipeline Hall.
  - apply quiet_ret.
  - destruct rest as [|nex rest']; [apply quiet_ret|].
    change (flatten_loop w k (cur :: nex :: rest') s pipeline) with
      (pipeline ← (if k mod batchSize =? 0
                   then _ ← exec w pipeline; mret []
                   else mret pipeline);
       let '(s, n, m) := advance s cur nex in
       if emits s n m then
         let s := JS.SetSpread s in
         data ← Redis.lift (group [] s);
         flatten_loop w (k + 1) (nex :: rest') s
           (pipeline ++ [(k, tempKey, m, member n m (payload data))])
       else flatten_loop w (k + 1) (nex :: rest') s pipeline).
    apply (quiet_bind_post key _ _ (Forall to_tempKey)).
    + apply quiet_if; [|apply quiet_ret].
      apply quiet_bind; [by apply quiet_exec | intros; apply quiet_ret].
    + intros st a st' Hrun. destruct (k mod batchSize =? 0); run; [|by simplify_eq].
      destruct (exec w pipeline st) as [[] ?]; by simplify_eq.
    + intros p Hp. destruct (advance s cur nex) as [[s1 n] m].
      apply quiet_if; [|by apply IH].
      apply quiet_bind; [apply quiet_lift|]. intros data. apply IH.
      apply Forall_app. split; [done|]. by constructor.
Qed.


Lemma cleanup_spec (error : JS.exn) (st : state) :
  exists st', cleanup error st = (JS.Throw error, st')
              /\ data st' !! tempKey = None.
Proof.
  unfold cleanup. run. destruct (data st !! tempKey) eqn:Htemp; run;
    eexists; (split; [reflexivity|]); simpl; [apply lookup_delete_eq | done].
Qed.

Lemma quiet_cleanup (key : string) (error : JS.exn) :
  tempKey <> key -> quiet key (cleanup error).
Proof.
  intros Hkey. unfold cleanup. apply quiet_bind; [|intros; apply quiet_throw].
  apply quiet_swallow. apply quiet_bind; [apply quiet_exists|].
  intros e. apply quiet_if; [by apply quiet_del | apply quiet_ret].
Qed.

Lemma ends_with_app (p suffix : string) : ends_with suffix (p +:+ suffix) = true.
Proof.
  induction p as [|c p IH].
  - change (EmptyString +:+ suffix) with suffix.
    destruct suffix; unfold ends_with; fold ends_with;
      by rewrite bool_decide_eq_true_2.
  - rewrite CacheFacts.app_String. simpl. rewrite IH. apply orb_true_r.
Qed.

Lemma tempKey_not_ranges (redisPrefix : string) :
  tempKey <> redisPrefix +:+ "ranges".
Proof.
  intros Heq. pose proof (ends_with_app redisPrefix "ranges") as Hends.
  rewrite <- Heq in Hends. vm_compute in Hends. discriminate.
Qed.

Lemma tempKey_not_ipListSize (redisPrefix : string) :
  redisPrefix +:+ "ipListSize" <> tempKey.
Proof.
  intros Heq. pose proof (ends_with_app redisPrefix "ipListSize") as Hends.
  rewrite Heq in Hends. vm_compute in Hends. discriminate.
Qed.

Lemma ipListSize_not_ranges (redisPrefix : string) :
  redisPrefix +:+ "ipListSize" <> redisPrefix +:+ "ranges".
Proof. intros Heq. apply CacheFacts.app_inv_head in Heq. discriminate. Qed.

Lemma quiet_safe {A} (live : string) (c : M A) : quiet live c -> safe live c.
Proof.
  intros Hq st r st' Hc. destruct (Hq _ _ _ Hc) as (Hd & l & Hl & _). eauto.
Qed.

Lemma safe_bind {A B} (live : string) (c : M A) (k : A -> M B) :
  safe live c -> (forall a, safe live (k a)) -> safe live (c ≫= k).
Proof.
  intros Hc Hk st r st' Hrun. run.
  destruct (c st) as [[a|e] st1] eqn:Hc1.
  - destruct (Hc _ _ _ Hc1) as (l1 & Hl1 & Hd1).
    destruct (Hk a _ _ _ Hrun) as (l2 & Hl2 & Hd2).
    exists (l1 ++ l2). rewrite Hl2, Hl1, app_assoc. split; [done|].
    intros Hnot. rewrite elem_of_app in Hnot.
    rewrite Hd2, Hd1; tauto.
  - simplify_eq. exact (Hc _ _ _ Hc1).
Qed.

Lemma safe_bind_post {A B} (live : string) (c : M A) (k : A -> M B)
  (Post : A -> Prop) :
  safe live c -> (forall st a st', c st = (JS.Ok a, st') -> Post a) ->
  (forall a, Post a -> safe live (k a)) -> safe live (c ≫= k).
Proof.
  intros Hc Hpost Hk st r st' Hrun. run.
  destruct (c st) as [[a|e] st1] eqn:Hc1.
  - destruct (Hc _ _ _ Hc1) as (l1 & Hl1 & Hd1).
    destruct (Hk a (Hpost _ _ _ Hc1) _ _ _ Hrun) as (l2 & Hl2 & Hd2).
    exists (l1 ++ l2). rewrite Hl2, Hl1, app_assoc. split; [done|].
    intros Hnot. rewrite elem_of_app in Hnot.
    rewrite Hd2, Hd1; tauto.
  - simplify_eq. exact (Hc _ _ _ Hc1).
Qed.

Lemma bind_Ok_inv {A B} (c : M A) (k : A -> M B) (st st' : state) (b : B) :
  (c ≫= k) st = (JS.Ok b, st') ->
  exists a st1, c st = (JS.Ok a, st1) /\ k a st1 = (JS.Ok b, st').
Proof.
  intros Hrun. run. destruct (c st) as [[a|e] st1]; [eauto|done].
Qed.

Lemma bind_inv {A B} (c : M A) (k : A -> M B) (st st' : state) (r : JS.result B) :
  (c ≫= k) st = (r, st') ->
  (exists a st1, c st = (JS.Ok a, st1) /\ k a st1 = (r, st'))
  \/ (exists e, c st = (JS.Throw e, st') /\ r = JS.Throw e).
Proof.
  intros Hrun. run. destruct (c st) as [[a|e] st1]; [eauto|].
  simplify_eq. eauto.
Qed.

Lemma try_catch_Throw_inv {A} (c : M A) (handler : JS.exn -> M A)
  (st st' : state) (e : JS.exn) :
  try_catch c handler st = (JS.Throw e, st') ->
  exists e0 st1, c st = (JS.Throw e0, st1) /\ handler e0 st1 = (JS.Throw e, st').
Proof.
  intros Hrun. run. destruct (c st) as [[a|e0] st1]; [done|eauto].
Qed.

Lemma flatten_loop_queue (scratch : list event) :
  forall k s pipeline st p' st',
    Forall to_tempKey pipeline ->
    flatten_loop w k scratch s pipeline st = (JS.Ok p', st') ->
    Forall to_tempKey p'.
Proof.
  induction scratch as [|cur rest IH]; intros k s pipeline st p' st' Hall Hrun.
  - simpl in Hrun. run. by simplify_eq.
  - destruct rest as [|nex rest']; [simpl in Hrun; run; by simplify_eq|].
    change (flatten_loop w k (cur :: nex :: rest') s pipeline) with
      (pipeline ← (if k mod batchSize =? 0
                   then _ ← exec w pipeline; mret []
                   else mret pipeline);
       let '(s, n, m) := advance s cur nex in
       if emits s n m then
         let s := JS.SetSpread s in
         data ← Redis.lift (group [] s);
         flatten_loop w (k + 1) (nex :: rest') s
           (pipeline ++ [(k, tempKey, m, member n m (payload data))])
       else flatten_loop w (k + 1) (nex :: rest') s pipeline) in Hrun.
    destruct (advance s cur nex) as [[s1 n] m].
    apply bind_Ok_inv in Hrun as (p1 & st1 & Hfirst & Hrun).
    assert (Forall to_tempKey p1) as Hp1.
    { destruct (k mod batchSize =? 0); run; [|by simplify_eq].
      destruct (exec w pipeline st) as [[] ?]; by simplify_eq. }
    destruct (emits s1 n m); [|by eapply IH].
    apply bind_Ok_inv in Hrun as (data & st2 & Hgroup & Hrun).
    eapply IH; [|exact Hrun]. apply Forall_app. split; [done|]. by constructor.
Qed.

Lemma safe_try_catch {A} (live : string) (c : M A) (handler : JS.exn -> M A) :
  safe live c -> (forall e, safe live (handler e)) -> safe live (try_catch c handler).
Proof.
  intros Hc Hk st r st' Hrun. run.
  destruct (c st) as [[a|e] st1] eqn:Hc1.
  - simplify_eq. exact (Hc _ _ _ Hc1).
  - destruct (Hc _ _ _ Hc1) as (l1 & Hl1 & Hd1).
    destruct (Hk e _ _ _ Hrun) as (l2 & Hl2 & Hd2).
    exists (l1 ++ l2). rewrite Hl2, Hl1, app_assoc. split; [done|].
    intros Hnot. rewrite elem_of_app in Hnot.
    rewrite Hd2, Hd1; tauto.
Qed.

(** Once the rename is sent, whatever follows is safe. *)
Lemma safe_rename_then {B} (live : string) (k : unit -> M B) :
  (forall a, grows (k a)) -> safe live (rename tempKey live ≫= k).
Proof.
  intros Hk st r st' Hrun. run.
  destruct (data st !! tempKey) as [v|]; run.
  - destruct (Hk tt _ _ _ Hrun) as (l & Hl). simpl in Hl.
    exists (RENAME tempKey live :: l). rewrite Hl, <- app_assoc. split; [done|].
    intros Hnot. exfalso. apply Hnot. left.
  - simplify_eq. exists [RENAME tempKey live]. split; [done|].
    intros Hnot. exfalso. apply Hnot. left.
Qed.

Lemma grows_interfere : grows (interfere w).
Proof.
  intros st r st' Hrun. unfold interfere in Hrun. run. simplify_eq.
  exists []. simpl. by rewrite app_nil_r.
Qed.

Lemma safe_load (file : csv) (redisPrefix : string) :
  safe (redisPrefix +:+ "ranges") (load w file redisPrefix).
Proof.
  pose proof (tempKey_not_ranges redisPrefix) as Htemp.
  pose proof (ipListSize_not_ranges redisPrefix) as Hsize.
  set (live := redisPrefix +:+ "ranges") in *.
  unfold load. destruct file as [rows|err].
  2: { apply quiet_safe, quiet_bind; [|intros; apply quiet_throw].
       apply quiet_if; [|apply quiet_ret]. apply quiet_swallow. by apply quiet_del. }
  apply safe_bind.
  { apply quiet_safe, quiet_swallow. by apply quiet_del. }
  intros _. apply safe_try_catch.
  2: { intros e. apply quiet_safe. by apply (quiet_cleanup live e). }
  apply safe_bind; [apply quiet_safe, quiet_smembers|]. intros lists.
  apply safe_bind; [apply quiet_safe; by apply quiet_lpush|]. intros _.
  apply (safe_bind_post live _ _ (Forall to_tempKey)).
  { apply quiet_safe. by apply quiet_flatten_loop. }
  { intros st p' st' Hrun. by eapply flatten_loop_queue. }
  intros pipeline Hpipeline.
  apply safe_bind; [apply quiet_safe; by apply quiet_exec|]. intros pipelineResults.
  apply safe_bind.
  { apply quiet_safe, quiet_if; [apply quiet_throw | apply quiet_ret]. }
  intros _. apply safe_bind; [apply quiet_safe, quiet_zcard|]. intros tempKeySize.
  apply safe_bind.
  { apply quiet_safe, quiet_if; [apply quiet_throw | apply quiet_ret]. }
  intros _. apply safe_rename_then. intros _.
  apply grows_bind; [apply grows_interfere|]. intros _.
  apply grows_bind; [apply (quiet_grows EmptyString), quiet_zcard|]. intros finalKeySize.
  apply grows_bind.
  { apply (quiet_grows EmptyString), quiet_if; [apply quiet_throw | apply quiet_ret]. }
  intros _. apply grows_bind; [|intros; apply (quiet_grows EmptyString), quiet_ret].
  apply (quiet_grows EmptyString), quiet_swallow. by apply quiet_del.
Qed.

(** *** Failures before the rename *)

Lemma bind_run {A B} (c : M A) (k : A -> M B) (st st1 : state) (a : A) :
  c st = (JS.Ok a, st1) -> (c ≫= k) st = k a st1.
Proof. intros Hc. unfold mbind, M_bind. by rewrite Hc. Qed.

Lemma throw_bind {A B} (e : JS.exn) (k : A -> M B) (st : state) :
  (throw e ≫= k) st = (JS.Throw e, st).
Proof. reflexivity. Qed.

Lemma ret_bind {A B} (a : A) (k : A -> M B) (st : state) :
  (mret a ≫= k) st = k a st.
Proof. reflexivity. Qed.

Lemma calm_refl (live : string) (st0 : state) : calm live st0 st0.
Proof. split; [done|]. exists []. by rewrite app_nil_r. Qed.

Lemma ensures_bind {A B} (P : state -> Prop) (c : M A) (k : A -> M B)
  (Q : A -> state -> Prop) (R : B -> state -> Prop)
  (E : JS.exn -> state -> Prop) :
  ensures P c Q E -> (forall a, ensures (Q a) (k a) R E) ->
  ensures P (c ≫= k) R E.
Proof.
  intros Hc Hk st r st' HP Hrun.
  apply bind_inv in Hrun as [(a & st1 & Hc1 & Hk1)|(e & Hc1 & ->)].
  - exact (Hk a st1 r st' (Hc st (JS.Ok a) st1 HP Hc1) Hk1).
  - exact (Hc st (JS.Throw e) st' HP Hc1).
Qed.

Lemma ensures_try_catch {A} (P : state -> Prop) (c : M A)
  (handler : JS.exn -> M A) (Q : A -> state -> Prop)
  (E E' : JS.exn -> state -> Prop) :
  ensures P c Q E' -> (forall e, ensures (E' e) (handler e) Q E) ->
  ensures P (try_catch c handler) Q E.
Proof.
  intros Hc Hh st r st' HP Hrun. unfold try_catch in Hrun.
  destruct (c st) as [[a|e] st1] eqn:Hc1.
  - simplify_eq. exact (Hc st (JS.Ok a) st' HP Hc1).
  - exact (Hh e st1 r st' (Hc st (JS.Throw e) st1 HP Hc1) Hrun).
Qed.

Lemma ensures_weaken {A} (P P' : state -> Prop) (c : M A)
  (Q Q' : A -> state -> Prop) (E E' : JS.exn -> state -> Prop) :
  (forall st, P' st -> P st) -> (forall a st, Q a st -> Q' a st) ->
  (forall e st, E e st -> E' e st) ->
  ensures P c Q E -> ensures P' c Q' E'.
Proof.
  intros HP HQ HE Hc st r st' HP' Hrun.
  specialize (Hc st r st' (HP st HP') Hrun). destruct r; auto.
Qed.

Lemma ensures_pure {A} (P : state -> Prop) (F : Prop) (c : M A)
  (Q : A -> state -> Prop) (E : JS.exn -> state -> Prop) :
  (F -> ensures P c Q E) -> ensures (fun st => P st /\ F) c Q E.
Proof. intros Hc st r st' [HP HF]. by apply Hc. Qed.

Lemma quiet_calm {A} (live : string) (st0 : state) (c : M A) :
  quiet live c ->
  ensures (calm live st0) c (fun _ => calm live st0) (fun _ => calm live st0).
Proof.
  intros Hq st r st' (Hd & l & Hl & Hn) Hrun.
  destruct (Hq _ _ _ Hrun) as (Hd' & l' & Hl' & Hn').
  assert (calm live st0 st') as Hcalm.
  { split; [congruence|]. exists (l ++ l').
    rewrite Hl', Hl, app_assoc. split; [done|]. by apply Forall_app. }
  by destruct r.
Qed.

Lemma quiet_post {A} (live : string) (st0 : state) (c : M A) (Post : A -> Prop) :
  quiet live c -> (forall st a st', c st = (JS.Ok a, st') -> Post a) ->
  ensures (calm live st0) c (fun a st => calm live st0 st /\ Post a)
    (fun _ => calm live st0).
Proof.
  intros Hq Hpost st r st' Hcalm Hrun.
  pose proof (quiet_calm live st0 c Hq st r st' Hcalm Hrun) as Hc.
  destruct r as [a|e]; [|done]. split; [done|]. by eapply Hpost.
Qed.

Lemma quiet_calm_temp {A} (live : string) (st0 : state) (c : M A) :
  quiet live c -> quiet tempKey c ->
  ensures (fun st => calm live st0 st /\ data st !! tempKey = None) c
    (fun _ st => calm live st0 st /\ data st !! tempKey = None)
    (fun _ => calm live st0).
Proof.
  intros Hq Ht st r st' [Hcalm Htemp] Hrun.
  pose proof (quiet_calm live st0 c Hq st r st' Hcalm Hrun) as Hc.
  destruct (Ht _ _ _ Hrun) as (Hd & _).
  destruct r as [a|e]; [|done]. split; [done|]. congruence.
Qed.

Lemma cleanup_ensures (live : string) (st0 : state) (e : JS.exn) :
  tempKey <> live ->
  ensures (calm live st0) (cleanup e) (fun _ _ => False)
    (fun _ st => calm live st0 st /\ data st !! tempKey = None).
Proof.
  intros Hkey st r st' Hcalm Hrun.
  pose proof (quiet_calm live st0 _ (quiet_cleanup live e Hkey) st r st' Hcalm Hrun)
    as Hc.
  destruct (cleanup_spec e st) as (st2 & Hclean & Htemp).
  rewrite Hclean in Hrun. simplify_eq. done.
Qed.

Lemma first_del_ensures (live : string) (st0 : state)
  (E : JS.exn -> state -> Prop) :
  tempKey <> live ->
  ensures (fun st => st = st0) (swallow (del tempKey))
    (fun _ st => calm live st0 st /\ data st !! tempKey = None) E.
Proof.
  intros Hkey st r st' -> Hrun. unfold swallow, del in Hrun. run. simplify_eq.
  split; [|apply lookup_delete_eq]. split.
  - simpl. by rewrite lookup_delete_ne.
  - exists [DEL tempKey]. split; [done|]. by repeat constructor.
Qed.

(** The replies of a pipeline: one for each command, an error for each
    write that the server refuses. *)
Lemma exec_reports (pipeline : list queued) :
  forall st, exists results st',
    exec w pipeline st = (JS.Ok results, st')
    /\ forall q, q ∈ pipeline -> zadd_fails w (iteration q) = true ->
         true ∈ results.
Proof.
  induction pipeline as [|[[[k key] score] mem] rest IH]; intros st.
  - exists [], st. split; [done|]. intros q Hq. by apply elem_of_nil in Hq.
  - simpl. destruct (zadd_fails w k) eqn:Hk.
    + rewrite ret_bind. destruct (IH st) as (results & st' & Hrest & Hrep).
      exists (true :: results), st'. split.
      { unfold mbind, M_bind. by rewrite Hrest. }
      intros q Hq Hfail. left.
    + destruct (try_catch (_ ← zadd key score mem; mret false)
                  (fun _ => mret true) st) as [[failed|e] st1] eqn:Hfirst.
      2: { exfalso. unfold try_catch in Hfirst.
           destruct ((_ ← zadd key score mem; mret false) st) as [[]]; done. }
      destruct (IH st1) as (results & st' & Hrest & Hrep).
      exists (failed :: results), st'. split.
      { unfold mbind at 1, M_bind at 1. rewrite Hfirst.
        unfold mbind, M_bind. by rewrite Hrest. }
      intros q Hq Hfail. apply elem_of_cons in Hq as [->|Hq].
      * unfold iteration in Hfail. simpl in Hfail. congruence.
      * right. by apply (Hrep q).
Qed.

Lemma exec_refused (pipeline : list queued) (st : state) :
  Forall (fun q => zadd_fails w (iteration q) = true) pipeline ->
  exec w pipeline st = (JS.Ok (replicate (length pipeline) true), st).
Proof.
  induction 1 as [|[[[k key] score] mem] rest Hq Hall IH]; [done|].
  unfold iteration in Hq. simpl in Hq. simpl. rewrite Hq, ret_bind.
  unfold mbind, M_bind. by rewrite IH.
Qed.

Lemma flatten_loop_cons2 (k : Z) (cur nex : event) (rest : list event)
  (s : list string) (pipeline : list queued) :
  flatten_loop w k (cur :: nex :: rest) s pipeline
  = (pipeline ← (if k mod batchSize =? 0
                 then _ ← exec w pipeline; mret []
                 else mret pipeline);
     let '(s, n, m) := advance s cur nex in
     if emits s n m then
       let s := JS.SetSpread s in
       data ← Redis.lift (group [] s);
       flatten_loop w (k + 1) (nex :: rest) s
         (pipeline ++ [(k, tempKey, m, member n m (payload data))])
     else flatten_loop w (k + 1) (nex :: rest) s pipeline).
Proof. reflexivity. Qed.

Lemma queuing_cons2 (k : Z) (cur nex : event) (rest : list event)
  (s : list string) :
  queuing k s (cur :: nex :: rest)
  = (let '(s, n, m) := advance s cur nex in
     if emits s n m then k :: queuing (k + 1) (JS.SetSpread s) (nex :: rest)
     else queuing (k + 1) s (nex :: rest)).
Proof. reflexivity. Qed.

(** One write is queued for each record of the sweep. *)
Lemma queuing_records (scratch : list event) :
  forall k s, length (queuing k s scratch) = length (sweep s scratch).
Proof.
  induction scratch as [|cur rest IH]; intros k s; [done|].
  destruct rest as [|nex rest']; [done|].
  rewrite queuing_cons2.
  change (sweep s (cur :: nex :: rest')) with
    (let '(s, n, m) := advance s cur nex in
     if emits s n m then
       let s := JS.SetSpread s in (n, m, s) :: sweep s (nex :: rest')
     else sweep s (nex :: rest')).
  destruct (advance s cur nex) as [[s1 n] m].
  destruct (emits s1 n m); [|apply IH]. cbv zeta.
  change (S (length (queuing (k + 1) (JS.SetSpread s1) (nex :: rest')))
          = S (length (sweep (JS.SetSpread s1) (nex :: rest')))).
  by rewrite IH.
Qed.

(** A write queued after the last flush is in the pipeline the loop
    returns. *)
Lemma flatten_loop_keeps (scratch : list event) :
  forall k0 s pipeline st p' st' k,
    (forall j, k < j -> j < k0 + Z.of_nat (length scratch) - 1 ->
       j mod batchSize <> 0) ->
    flatten_loop w k0 scratch s pipeline st = (JS.Ok p', st') ->
    k ∈ queuing k0 s scratch \/ (k < k0 /\ k ∈ iteration <$> pipeline) ->
    k ∈ iteration <$> p'.
Proof.
  induction scratch as [|cur rest IH]; intros k0 s pipeline st p' st' k Hflush Hrun Hk.
  { simpl in Hrun, Hk. run. simplify_eq.
    destruct Hk as [Hk|[_ Hk]]; [by apply elem_of_nil in Hk|done]. }
  destruct rest as [|nex rest'].
  { simpl in Hrun, Hk. run. simplify_eq.
    destruct Hk as [Hk|[_ Hk]]; [by apply elem_of_nil in Hk|done]. }
  rewrite flatten_loop_cons2 in Hrun. rewrite queuing_cons2 in Hk.
  destruct (advance s cur nex) as [[s1 n] m].
  apply bind_Ok_inv in Hrun as (p1 & st1 & Hfirst & Hrun).
  assert (forall j, k < j -> j < k0 + 1 + Z.of_nat (length (nex :: rest')) - 1 ->
            j mod batchSize <> 0) as Hflush'.
  { intros j Hj1 Hj2. apply Hflush; [done|]. simpl length in *. lia. }
  assert (k < k0 -> k ∈ iteration <$> pipeline -> k ∈ iteration <$> p1) as Hkept.
  { intros Hlt Hin. destruct (k0 mod batchSize =? 0) eqn:Hmod.
    - exfalso. apply Z.eqb_eq in Hmod. apply (Hflush k0); [done| |done].
      simpl length. lia.
    - run. by simplify_eq. }
  destruct (emits s1 n m).
  - apply bind_Ok_inv in Hrun as (data & st2 & Hgroup & Hrun).
    eapply (IH _ _ _ _ _ _ k Hflush' Hrun).
    destruct Hk as [Hk|[Hlt Hin]].
    + apply elem_of_cons in Hk as [->|Hk]; [|by left].
      right. split; [lia|]. rewrite fmap_app. apply elem_of_app. right. left.
    + right. split; [lia|]. rewrite fmap_app. apply elem_of_app. left. auto.
  - eapply (IH _ _ _ _ _ _ k Hflush' Hrun).
    destruct Hk as [Hk|[Hlt Hin]]; [by left|].
    right. split; [lia|]. auto.
Qed.

(** When the server refuses every write the loop queues, the loop changes
    nothing on the server. *)
Lemma flatten_loop_refused (scratch : list event) :
  forall k s pipeline st r st',
    (forall j, j ∈ queuing k s scratch -> zadd_fails w j = true) ->
    Forall (fun q => zadd_fails w (iteration q) = true) pipeline ->
    flatten_loop w k scratch s pipeline st = (r, st') ->
    st' = st
    /\ forall p', r = JS.Ok p' ->
         Forall (fun q => zadd_fails w (iteration q) = true) p'.
Proof.
  induction scratch as [|cur rest IH]; intros k s pipeline st r st' Hall Hp Hrun.
  { simpl in Hrun. run. simplify_eq. split; [done|]. by intros p' [= <-]. }
  destruct rest as [|nex rest'].
  { simpl in Hrun. run. simplify_eq. split; [done|]. by intros p' [= <-]. }
  rewrite flatten_loop_cons2 in Hrun. rewrite queuing_cons2 in Hall.
  destruct (advance s cur nex) as [[s1 n] m].
  assert (exists p1,
            (if k mod batchSize =? 0
             then _ ← exec w pipeline; mret []
             else mret pipeline) st = (JS.Ok p1, st)
            /\ Forall (fun q => zadd_fails w (iteration q) = true) p1)
    as (p1 & Hfirst & Hp1).
  { destruct (k mod batchSize =? 0).
    - exists []. split; [|constructor].
      unfold mbind, M_bind. by rewrite exec_refused.
    - by exists pipeline. }
  rewrite (bind_run _ _ _ _ _ Hfirst) in Hrun.
  destruct (emits s1 n m).
  - destruct (group [] (JS.SetSpread s1)) as [data|e] eqn:Hgroup.
    + cbv zeta in Hrun. rewrite Hgroup in Hrun.
      rewrite (bind_run (lift (JS.Ok data)) _ st st data) in Hrun by reflexivity.
      eapply IH; [| |exact Hrun].
      * intros j Hj. apply Hall. by right.
      * apply Forall_app. split; [done|]. constructor; [|constructor].
        apply Hall. left.
    + cbv zeta in Hrun. rewrite Hgroup in Hrun.
      change (Redis.lift (JS.Throw e)) with (@throw (list (string * list json)) e)
        in Hrun.
      rewrite throw_bind in Hrun. simplify_eq. split; [done|]. by intros p' [=].
  - eapply IH; [|exact Hp1|exact Hrun]. exact Hall.
Qed.

Lemma events_length (rows : list row) :
  length (events rows) = (2 * length rows)%nat.
Proof.
  unfold events. induction rows as [|r rows IH]; [done|].
  simpl in *. lia.
Qed.

Lemma checked_no_flush (rows : list row) (k j : Z) :
  checked rows k -> k < j ->
  j < 0 + Z.of_nat (length (sort (events rows))) - 1 -> j mod batchSize <> 0.
Proof.
  unfold checked. intros Hck Hkj Hj Hmod.
  assert (length (sort (events rows)) = (2 * length rows)%nat) as Hlen.
  { rewrite (Permutation_length (SortFacts.sort_Permutation (events rows))).
    apply events_length. }
  rewrite Hlen in Hj.
  assert (0 < batchSize) as HB by done.
  pose proof (Z.div_mod j batchSize ltac:(lia)) as Hdm. rewrite Hmod in Hdm.
  pose proof (Z.mul_div_le k batchSize HB) as Hk.
  pose proof (Z.div_le_mono j (2 * Z.of_nat (length rows) - 2) batchSize HB
                ltac:(lia)) as Hjl.
  pose proof (Z.div_le_mono k j batchSize HB ltac:(lia)) as Hkjd.
  assert (k / batchSize = j / batchSize) as Heq by lia.
  rewrite Heq in Hk. lia.
Qed.

Lemma filter_true (results : list bool) :
  true ∈ results ->
  (0 <? Z.of_nat (length (List.filter (fun r : bool => r) results))) = true.
Proof.
  induction results as [|[] results IH]; intros Hin.
  - by apply elem_of_nil in Hin.
  - simpl. apply Z.ltb_lt. lia.
  - simpl. apply IH. by apply elem_of_cons in Hin as [|].
Qed.

Lemma filter_replicate_true (n : nat) :
  List.filter (fun r : bool => r) (replicate n true) = replicate n true.
Proof. induction n; [done|]. simpl. by rewrite IHn. Qed.

(** A refused write that the last pipeline reports ends the load before
    the rename. *)
Lemma load_stops_on_reported_error
  (rows : list row) (redisPrefix : string) (st0 : state) (k : Z) :
  k ∈ writes rows -> checked rows k -> zadd_fails w k = true ->
  ensures (fun st => st = st0) (load w (Rows rows) redisPrefix)
    (fun _ _ => False)
    (fun _ st => calm (redisPrefix +:+ "ranges") st0 st
                 /\ data st !! tempKey = None).
Proof.
  intros Hk Hck Hfail.
  pose proof (tempKey_not_ranges redisPrefix) as Htemp.
  pose proof (ipListSize_not_ranges redisPrefix) as Hsize.
  set (live := redisPrefix +:+ "ranges") in *.
  unfold load.
  apply (ensures_bind _ _ _ (fun _ => calm live st0)).
  { intros st r st' -> Hrun.
    pose proof (first_del_ensures live st0 (fun _ _ => False) Htemp
                  st0 r st' eq_refl Hrun) as Hdel.
    destruct r; [by destruct Hdel|done]. }
  intros _.
  apply (ensures_try_catch _ _ _ _ _ (fun _ => calm live st0)).
  2: { intros e. by apply (cleanup_ensures live st0 e). }
  apply (ensures_bind _ _ _ (fun _ => calm live st0));
    [apply quiet_calm, quiet_smembers|]. intros lists.
  apply (ensures_bind _ _ _ (fun _ => calm live st0));
    [apply quiet_calm; by apply quiet_lpush|]. intros _.
  apply (ensures_bind _ _ _
           (fun p st => calm live st0 st
                        /\ (Forall to_tempKey p /\ k ∈ iteration <$> p))).
  { apply quiet_post; [by apply quiet_flatten_loop|].
    intros st p' st' Hrun. split; [by eapply flatten_loop_queue|].
    eapply flatten_loop_keeps; [|exact Hrun|by left].
    intros j Hj1 Hj2. by eapply checked_no_flush. }
  intros pipeline. apply ensures_pure. intros [Hqueue Hin].
  apply (ensures_bind _ _ _ (fun results st => calm live st0 st /\ true ∈ results)).
  { apply quiet_post; [by apply quiet_exec|].
    intros st results st' Hrun.
    destruct (exec_reports pipeline st) as (results' & st'' & Hexec & Hrep).
    rewrite Hexec in Hrun. simplify_eq.
    apply list_elem_of_fmap in Hin as (q & -> & Hq). by apply (Hrep q). }
  intros results. apply ensures_pure. intros Htrue.
  intros st r st' Hcalm Hrun. cbv zeta in Hrun.
  rewrite (filter_true results Htrue), throw_bind in Hrun. by simplify_eq.
Qed.

(** The loop throws at the first tag list that cannot be grouped. *)
Lemma flatten_loop_throws (scratch : list event) :
  forall k s pipeline st r st' e,
    index_of (sweep s scratch) = JS.Throw e ->
    flatten_loop w k scratch s pipeline st = (r, st') -> r = JS.Throw e.
Proof.
  induction scratch as [|cur rest IH]; intros k s pipeline st r st' e Hidx Hrun.
  { discriminate. }
  destruct rest as [|nex rest']; [discriminate|].
  rewrite flatten_loop_cons2 in Hrun.
  change (sweep s (cur :: nex :: rest')) with
    (let '(s, n, m) := advance s cur nex in
     if emits s n m then
       let s := JS.SetSpread s in (n, m, s) :: sweep s (nex :: rest')
     else sweep s (nex :: rest')) in Hidx.
  destruct (advance s cur nex) as [[s1 n] m].
  assert (exists p1 st1,
            (if k mod batchSize =? 0
             then _ ← exec w pipeline; mret []
             else mret pipeline) st = (JS.Ok p1, st1))
    as (p1 & st1 & Hfirst).
  { destruct (k mod batchSize =? 0); [|by exists pipeline, st].
    destruct (exec_reports pipeline st) as (results & st1 & Hexec & _).
    exists [], st1. by rewrite (bind_run _ _ _ _ _ Hexec). }
  rewrite (bind_run _ _ _ _ _ Hfirst) in Hrun.
  destruct (emits s1 n m); [|by eapply IH].
  cbv zeta in Hidx, Hrun.
  remember (sweep (JS.SetSpread s1) (nex :: rest')) as recs eqn:Hrecs.
  change (index_of ((n, m, JS.SetSpread s1) :: recs))
    with (e ← entry (n, m, JS.SetSpread s1);
          es ← index_of recs;
          mret (e :: es)) in Hidx.
  unfold entry in Hidx. simpl in Hidx.
  destruct (group [] (JS.SetSpread s1)) as [data|e'] eqn:Hgroup.
  - rewrite (bind_run (lift (JS.Ok data)) _ st1 st1 data) in Hrun by reflexivity.
    simpl in Hidx. destruct (index_of recs) as [es|e''] eqn:Hes; [done|].
    simpl in Hidx. injection Hidx as ->. subst recs. by eapply IH.
  - change (Redis.lift (JS.Throw e')) with (@throw (list (string * list json)) e')
      in Hrun.
    rewrite throw_bind in Hrun. simpl in Hidx. by simplify_eq.
Qed.

(** A tag list that cannot be grouped ends the load before the rename. *)
Lemma load_stops_on_bad_tag
  (rows : list row) (redisPrefix : string) (st0 : state) (e : JS.exn) :
  index_of (flatten rows) = JS.Throw e ->
  ensures (fun st => st = st0) (load w (Rows rows) redisPrefix)
    (fun _ _ => False)
    (fun _ st => calm (redisPrefix +:+ "ranges") st0 st
                 /\ data st !! tempKey = None).
Proof.
  intros Hidx.
  pose proof (tempKey_not_ranges redisPrefix) as Htemp.
  pose proof (ipListSize_not_ranges redisPrefix) as Hsize.
  set (live := redisPrefix +:+ "ranges") in *.
  unfold load.
  apply (ensures_bind _ _ _ (fun _ => calm live st0)).
  { intros st r st' -> Hrun.
    pose proof (first_del_ensures live st0 (fun _ _ => False) Htemp
                  st0 r st' eq_refl Hrun) as Hdel.
    destruct r; [by destruct Hdel|done]. }
  intros _.
  apply (ensures_try_catch _ _ _ _ _ (fun _ => calm live st0)).
  2: { intros e'. by apply (cleanup_ensures live st0 e'). }
  apply (ensures_bind _ _ _ (fun _ => calm live st0));
    [apply quiet_calm, quiet_smembers|]. intros lists.
  apply (ensures_bind _ _ _ (fun _ => calm live st0));
    [apply quiet_calm; by apply quiet_lpush|]. intros _.
  apply (ensures_bind _ _ _ (fun _ _ => False)); [|by intros p st r st' []].
  intros st r st' Hcalm Hrun.
  pose proof (quiet_calm live st0 _
                (quiet_flatten_loop live (sort (events rows)) Htemp 0 [] []
                   (Forall_nil_2 _)) st r st' Hcalm Hrun) as Hc.
  pose proof (flatten_loop_throws _ _ _ _ _ _ _ e Hidx Hrun) as Hr.
  subst r. exact Hc.
Qed.

(** When no write is accepted, because none is queued or because the
    server refuses them all, the temporary key stays empty and the load
    ends before the rename. *)
Lemma load_stops_on_empty_temp_key
  (rows : list row) (redisPrefix : string) (st0 : state) :
  (forall k, k ∈ writes rows -> zadd_fails w k = true) ->
  ensures (fun st => st = st0) (load w (Rows rows) redisPrefix)
    (fun _ _ => False)
    (fun _ st => calm (redisPrefix +:+ "ranges") st0 st
                 /\ data st !! tempKey = None).
Proof.
  intros Hall.
  pose proof (tempKey_not_ranges redisPrefix) as Htemp.
  pose proof (ipListSize_not_ranges redisPrefix) as Hsize.
  pose proof (tempKey_not_ipListSize redisPrefix) as Hsize'.
  set (live := redisPrefix +:+ "ranges") in *.
  set (P := fun st => calm live st0 st /\ data st !! tempKey = None).
  unfold load.
  apply (ensures_bind _ _ _ (fun _ => P)); [by apply first_del_ensures|].
  intros _.
  apply (ensures_try_catch _ _ _ _ _ (fun _ => calm live st0)).
  2: { intros e. by apply (cleanup_ensures live st0 e). }
  apply (ensures_bind _ _ _ (fun _ => P));
    [apply quiet_calm_temp; apply quiet_smembers|]. intros lists.
  apply (ensures_bind _ _ _ (fun _ => P));
    [apply quiet_calm_temp; by apply quiet_lpush|]. intros _.
  apply (ensures_bind _ _ _
           (fun p st => P st
                        /\ Forall (fun q => zadd_fails w (iteration q) = true) p)).
  { intros st r st' HP Hrun.
    destruct (flatten_loop_refused _ _ _ _ _ _ _ Hall (Forall_nil_2 _) Hrun)
      as [-> Hp].
    destruct r as [p'|e]; [|by destruct HP]. split; [done|]. by apply Hp. }
  intros pipeline. apply ensures_pure. intros Hrefused.
  apply (ensures_bind _ _ _
           (fun results st => P st /\ results = replicate (length pipeline) true)).
  { intros st r st' HP Hrun. rewrite exec_refused in Hrun by done. by simplify_eq. }
  intros results. apply ensures_pure. intros ->.
  cbv zeta. rewrite filter_replicate_true, length_replicate.
  destruct pipeline as [|q pipeline].
  - change (0 <? Z.of_nat (length (@nil queued))) with false. cbv iota.
    intros st r st' [Hcalm Hnone] Hrun. rewrite ret_bind in Hrun.
    apply bind_inv in Hrun as [(size & st1 & Hcard & Hrun)|(e & Hcard & ->)].
    + pose proof (quiet_calm live st0 _ (quiet_zcard live tempKey)
                    st _ st1 Hcalm Hcard) as Hcalm1.
      assert (size = 0) as ->.
      { unfold zcard in Hcard. run. rewrite Hnone in Hcard. by simplify_eq. }
      change (0 =? 0) with true in Hrun. cbv iota in Hrun.
      rewrite throw_bind in Hrun. by simplify_eq.
    + exact (quiet_calm live st0 _ (quiet_zcard live tempKey)
               st _ st' Hcalm Hcard).
  - assert ((0 <? Z.of_nat (length (q :: pipeline))) = true) as ->.
    { apply Z.ltb_lt. simpl. lia. }
    intros st r st' [Hcalm Hnone] Hrun. rewrite throw_bind in Hrun.
    by simplify_eq.
Qed.

(** C6, as the code has it.  (1) An error of the stream or of the parser is
    thrown as it is, after the client has been disconnected: nothing is
    cleaned up, the temporary key is deleted only if the first [DEL] had
    been sent, and every other key is as before.  (2) When a tag list
    cannot be grouped, when the last pipeline reports a refused write, or
    when no write is accepted at all so that the temporary key stays empty,
    the loader throws, the rename is never sent, the live key holds what it
    held and the temporary key is absent.  (3) Whenever the loader throws
    after the file has been read,
    the temporary key is absent afterwards, and the live key holds what it
    held before unless the rename had already been sent: a failure of the
    verification that follows the rename leaves the live key replaced. *)
Theorem load_failure_keeps_live_key_until_rename
  (file : csv) (redisPrefix : string) (st : state) :
  let out := load w file redisPrefix st in
  let live := redisPrefix +:+ "ranges" in
  (forall err, file = Broken err ->
     out = (JS.Throw err,
            if first_del_sent w
            then mkState (delete tempKey (data st)) (log st ++ [DEL tempKey])
            else st)) /\
  (forall rows, file = Rows rows ->
     (exists e, index_of (flatten rows) = JS.Throw e)
     \/ (exists k, k ∈ writes rows /\ checked rows k /\ zadd_fails w k = true)
     \/ (forall k, k ∈ writes rows -> zadd_fails w k = true) ->
     (exists e, out.1 = JS.Throw e) /\
     data out.2 !! live = data st !! live /\
     data out.2 !! tempKey = None /\
     exists l, log out.2 = log st ++ l /\ Forall no_rename l) /\
  (forall rows e, file = Rows rows -> out.1 = JS.Throw e ->
     data out.2 !! tempKey = None /\
     exists l, log out.2 = log st ++ l /\
               (RENAME tempKey live ∉ l -> data out.2 !! live = data st !! live)).
Proof.
  intros out live. split; [|split].
  - intros err ->. unfold out, load. by destruct (first_del_sent w).
  - intros rows -> Hwrites.
    assert (ensures (fun st1 => st1 = st) (load w (Rows rows) redisPrefix)
              (fun _ _ => False)
              (fun _ st1 => calm live st st1 /\ data st1 !! tempKey = None))
      as Hstops.
    { destruct Hwrites as [[e Hidx]|[(k & Hk & Hck & Hfail)|Hall]].
      - by apply (load_stops_on_bad_tag rows redisPrefix st e).
      - by apply (load_stops_on_reported_error rows redisPrefix st k).
      - by apply load_stops_on_empty_temp_key. }
    destruct out as [r st'] eqn:Hout.
    specialize (Hstops st r st' eq_refl Hout).
    destruct r as [[]|e]; [done|].
    destruct Hstops as [[Hlive Hlog] Htemp]. simpl. eauto.
  - intros rows e -> He. destruct out as [r st'] eqn:Hout. simpl in He. subst r.
    split; [|exact (safe_load (Rows rows) redisPrefix _ _ _ Hout)].
    unfold out, load in Hout.
    apply bind_inv in Hout as [(a & st1 & Hdel & Hrest)|(e0 & Hdel & _)];
      [|run; done].
    apply try_catch_Throw_inv in Hrest as (e0 & st2 & _ & Hhandler).
    destruct (cleanup_spec e0 st2) as (st3 & Hclean & Htemp).
    unfold cleanup in Hclean. rewrite Hclean in Hhandler. by simplify_eq.
Qed.


Lemma lists_not_tempKey (redisPrefix : string) :
  redisPrefix +:+ "lists" <> tempKey.
Proof.
  intros Heq. pose proof (ends_with_app redisPrefix "lists") as Hends.
  rewrite Heq in Hends. vm_compute in Hends. discriminate.
Qed.

Context `{Serve.IpUtils}.

(** C5, as the code has it.  On an input without rows the loader throws and
    the live key holds what it held before; when the keys of the metadata
    hold values of their kinds the error is the one of the empty temporary
    key.  A later lookup that misses the cache answers from that live key:
    [NotFound] for every address when there was no live index. *)
Theorem empty_input_leaves_live_index
  (sw : Serve.world) (redisPrefix : string) (st : state) :
  let out := load w (Rows []) redisPrefix st in
  let live := redisPrefix +:+ "ranges" in
  (exists e, out.1 = JS.Throw e) /\
  data out.2 !! live = data st !! live /\
  data out.2 !! tempKey = None /\
  ((data st !! (redisPrefix +:+ "lists") = None
    \/ exists items, data st !! (redisPrefix +:+ "lists") = Some (VSet items)) ->
   (data st !! (redisPrefix +:+ "ipListSize") = None
    \/ exists items, data st !! (redisPrefix +:+ "ipListSize") = Some (VList items)) ->
   out.1 = JS.Throw (JS.Error "No data to load - temp key is empty")) /\
  (forall ip, Serve.isValidIpv4 ip = true -> data st !! live = None ->
     CacheSpec.miss (CacheSpec.cacheKey redisPrefix ip false) (data out.2) ->
     (Serve.lookupIP sw redisPrefix ip false out.2).1 = JS.Ok Serve.NotFound).
Proof.
  intros out live.
  pose proof (tempKey_not_ranges redisPrefix) as Htemp.
  pose proof (ipListSize_not_ranges redisPrefix) as Hsize.
  pose proof (tempKey_not_ipListSize redisPrefix) as Hsize'.
  pose proof (lists_not_tempKey redisPrefix) as Hlists.
  assert ((exists e, out.1 = JS.Throw e) /\
          data out.2 !! live = data st !! live /\
          data out.2 !! tempKey = None /\
          ((data st !! (redisPrefix +:+ "lists") = None
            \/ exists items, data st !! (redisPrefix +:+ "lists") = Some (VSet items)) ->
           (data st !! (redisPrefix +:+ "ipListSize") = None
            \/ exists items, data st !! (redisPrefix +:+ "ipListSize") = Some (VList items)) ->
           out.1 = JS.Throw (JS.Error "No data to load - temp key is empty")))
    as (Hthrow & Hlive & Htmp & Herr).
  { unfold out, load. run. fold live.
    rewrite !(lookup_delete_ne (data st)) by done.
    destruct (data st !! (redisPrefix +:+ "lists")) as [[]|] eqn:Hl; run;
      rewrite ?lookup_delete_eq; run;
      rewrite ?(lookup_delete_ne (data st)) by done;
      try (split; [eauto|]; split; [by rewrite lookup_delete_ne by done|];
           split; [apply lookup_delete_eq|]; intros [|[]] ?; simplify_eq; fail);
      destruct (data st !! (redisPrefix +:+ "ipListSize")) as [[]|] eqn:Hs; run;
      rewrite ?lookup_insert_ne, ?lookup_delete_eq by done; run;
      rewrite ?lookup_insert_ne, ?lookup_delete_eq by done; run;
      (split; [eauto|]; split;
       [by rewrite ?lookup_insert_ne, ?lookup_delete_ne by done|];
       split; [by rewrite ?lookup_insert_ne, ?lookup_delete_eq by done|];
       intros [|[]] [|[]]; simplify_eq; done). }
  split; [done|]. split; [done|]. split; [done|]. split; [done|].
  intros ip Hvalid Hnone Hmiss.
  destruct (CacheFacts.lookupIP_miss sw redisPrefix ip false out.2 Hvalid Hmiss)
    as (Hres & _).
  rewrite Hres. unfold CacheSpec.fresh. fold live. rewrite Hlive, Hnone. done.
Qed.

End WithCodec.

(** The claim of an empty index fails when an index is live: the loader
    throws on the empty input, the live key keeps its record, and the lookup
    of [0.0.0.3] answers with the record's tags. *)
Lemma empty_input_counterexample :
  let out := load Samples.quiet (Rows []) "ip_lists:" Samples.serving in
  out.1 = JS.Throw (JS.Error "No data to load - temp key is empty") /\
  data out.2 !! "ip_lists:ranges" = Some (VZSet [(5, Samples.old_member)]) /\
  (Serve.lookupIP Samples.silent "ip_lists:" "0.0.0.3" false out.2).1
  = JS.Ok (JObj [("list", JArr [JObj [("name", JStr "a")]])]).
Proof. vm_compute. done. Qed.

(** The claim fails on the mismatch after the rename: the loader throws,
    and the live key no longer holds what it held. *)
Lemma mismatch_after_rename_counterexample :
  let out := load Samples.meddling (Rows [mkRow 1 5 Samples.Ta]) "ip_lists:" Samples.previous in
  out.1 = JS.Throw (JS.Error "Key size mismatch after rename - possible corruption") /\
  data Samples.previous !! "ip_lists:ranges" = Some (VZSet [(9, "7|9|{}")]) /\
  data out.2 !! "ip_lists:ranges" = Some (VZSet [(5, Samples.old_member); (99, "x")]) /\
  data out.2 !! tempKey = None.
Proof. vm_compute. done. Qed.

(** A read error before the client has sent anything: the error is passed
    on and the temporary key that an earlier run has left is still there. *)
Lemma read_error_leaves_temp_key :
  let out := load Samples.cut_off (Broken (JS.Error "ENOENT")) "ip_lists:"
               Samples.littered in
  out.1 = JS.Throw (JS.Error "ENOENT") /\
  data out.2 !! tempKey = Some (VZSet [(3, "1|3|{}")]) /\
  log out.2 = [].
Proof. vm_compute. done. Qed.

(** The write of the iteration 0 is accepted and the one of the
    iteration 2 is refused: the loader throws and the live key is as it
    was. *)
Lemma load_failure_keeps_live_key_witness :
  let out := load Samples.refusing (Rows Samples.rows_apart) "ip_lists:"
               Samples.previous in
  (exists e, out.1 = JS.Throw e) /\
  data out.2 !! ("ip_lists:" +:+ "ranges")
  = data Samples.previous !! ("ip_lists:" +:+ "ranges") /\
  data out.2 !! tempKey = None /\
  exists l, log out.2 = log Samples.previous ++ l /\ Forall no_rename l.
Proof.
  intros out.
  apply (proj1 (proj2 (load_failure_keeps_live_key_until_rename
                         Samples.refusing (Rows Samples.rows_apart)
                         "ip_lists:" Samples.previous))
           Samples.rows_apart eq_refl).
  right. left. exists 2. split; [vm_compute; right; left|]. split; reflexivity.
Defined.

End LoaderFacts.

(** ** The records of the sweep *)

Module SweepFacts.
Import Json LoadToRedis SortFacts.
Import SortSpec TextSpec CacheSpec LaunchSpec LoaderSpec SweepSpec IndexSpec
  PublishSpec LookupSpec PartitionSpec Tactics.

Lemma advance_bounds (s : list string) (cur nex : event) :
  exists s', advance s cur nex = (s', lo cur, lo nex - 1).
Proof.
  unfold advance, lo.
  destruct (ev_e cur), (ev_e nex); eexists; repeat f_equal; lia.
Qed.

Lemma key_lo (a b : event) : key a <= key b -> lo a <= lo b.
Proof. unfold key, lo. destruct (ev_e a), (ev_e b); lia. Qed.

Lemma ascending_weaken (b b' : Z) (recs : list (Z * Z * list string)) :
  b <= b' -> ascending b' recs -> ascending b recs.
Proof. destruct recs as [|[[n m] s] rest]; simpl; [done|]. intuition lia. Qed.

Lemma sweep_cons2 (s : list string) (cur nex : event) (rest : list event) :
  sweep s (cur :: nex :: rest)
  = let '(s, n, m) := advance s cur nex in
    if emits s n m then (n, m, JS.SetSpread s) :: sweep (JS.SetSpread s) (nex :: rest)
    else sweep s (nex :: rest).
Proof. reflexivity. Qed.

Lemma sweep_ascending (scratch : list event) :
  ordered scratch ->
  forall s cur, head scratch = Some cur -> ascending (lo cur) (sweep s scratch).
Proof.
  induction 1 as [|cur rest Hall Hord IH]; intros s cur' Hhead; [done|].
  simpl in Hhead. injection Hhead as <-.
  destruct rest as [|nex rest']; [done|].
  rewrite sweep_cons2.
  destruct (advance_bounds s cur nex) as (s' & ->).
  assert (lo cur <= lo nex) as Hlo.
  { apply key_lo. rewrite Forall_forall in Hall. apply Hall. left. }
  unfold emits. destruct (Z.leb_spec (lo cur) (lo nex - 1)) as [Hle|Hgt]; simpl.
  - destruct (bool_decide (s' = [])); simpl.
    + eapply ascending_weaken; [exact Hlo|]. by apply IH.
    + split; [lia|]. split; [lia|].
      replace (lo nex - 1 + 1) with (lo nex) by lia. by apply IH.
  - eapply ascending_weaken; [exact Hlo|]. by apply IH.
Qed.

Lemma events_lo_nonneg (rows : list row) :
  Forall (fun r => 0 <= start_int r /\ 0 <= end_int r) rows ->
  Forall (fun a => 0 <= lo a) (events rows).
Proof.
  induction 1 as [|r rows [Hs He] Hall IH]; [constructor|].
  unfold events. simpl. fold (events rows).
  constructor; [unfold lo; simpl; lia|].
  constructor; [unfold lo; simpl; lia|]. exact IH.
Qed.

(** The records of nonnegative rows are ascending from zero. *)
Lemma flatten_ascending (rows : list row) :
  Forall (fun r => 0 <= start_int r /\ 0 <= end_int r) rows ->
  ascending 0 (flatten rows).
Proof.
  intros Hrows. unfold flatten.
  destruct (sort (events rows)) as [|cur rest] eqn:Hsort; [done|].
  eapply (ascending_weaken 0 (lo cur)).
  - pose proof (events_lo_nonneg rows Hrows) as Hlo.
    rewrite Forall_forall in Hlo. apply Hlo.
    rewrite <- (sort_Permutation (events rows)), Hsort. left.
  - apply sweep_ascending; [|done]. rewrite <- Hsort. apply sort_ordered.
Qed.

Lemma ascending_after (b q : Z) (recs : list (Z * Z * list string)) :
  ascending b recs -> q < b -> Forall (fun r => contains q r = false) recs.
Proof.
  revert b. induction recs as [|[[n m] s] rest IH]; intros b Hasc Hq; [constructor|].
  destruct Hasc as (Hb & Hnm & Hrest). constructor.
  - unfold contains. simpl. apply andb_false_iff. left. apply Z.leb_gt. lia.
  - apply (IH (m + 1)); [done|lia].
Qed.

(** Records in ascending order are pairwise disjoint: a coordinate lies in
    at most one. *)
Lemma ascending_disjoint (b q : Z) (recs : list (Z * Z * list string))
  (i j : nat) (r1 r2 : Z * Z * list string) :
  ascending b recs -> recs !! i = Some r1 -> recs !! j = Some r2 ->
  contains q r1 = true -> contains q r2 = true -> i = j.
Proof.
  revert b i j. induction recs as [|[[n m] s] rest IH]; intros b i j Hasc Hi Hj H1 H2.
  - by rewrite lookup_nil in Hi.
  - destruct Hasc as (Hb & Hnm & Hrest).
    assert (forall k r, rest !! k = Some r -> contains q r = true -> m < q) as Hlater.
    { intros k r Hk Hr. destruct (Z.lt_ge_cases m q) as [|Hge]; [done|].
      pose proof (ascending_after (m + 1) q rest Hrest ltac:(lia)) as Hnone.
      rewrite Forall_forall in Hnone.
      rewrite Hnone in Hr; [done|]. by eapply list_elem_of_lookup_2. }
    destruct i as [|i], j as [|j]; simpl in Hi, Hj; simplify_eq.
    + done.
    + specialize (Hlater _ _ Hj H2). unfold contains in H1. simpl in H1.
      apply andb_true_iff in H1 as [_ H1]. apply Z.leb_le in H1. lia.
    + specialize (Hlater _ _ Hi H1). unfold contains in H2. simpl in H2.
      apply andb_true_iff in H2 as [_ H2]. apply Z.leb_le in H2. lia.
    + f_equal. by eapply (IH (m + 1)).
Qed.

End SweepFacts.

(** ** The index and the lookup *)

Module IndexFacts.
Import Json Redis LoadToRedis Serve SweepFacts TextFacts.
Import SortSpec TextSpec CacheSpec LaunchSpec LoaderSpec SweepSpec IndexSpec
  PublishSpec LookupSpec PartitionSpec Tactics.

Section WithCodec.
Context `{Codec}.

Lemma split_member (n m : Z) (p : json) :
  0 <= n -> 0 <= m ->
  JS.split "|" (member n m p)
  = JS.Number_toString n :: JS.Number_toString m
      :: JS.split "|" (JSON_stringify p).
Proof.
  intros Hn Hm. unfold member.
  assert (forall x, "|" +:+ x = String "|" x) as Hbar by reflexivity.
  rewrite !Hbar.
  rewrite split_decimal;
    [|by apply Number_toString_decimal | vm_compute; intros [? ?]; auto].
  rewrite split_decimal;
    [|by apply Number_toString_decimal | vm_compute; intros [? ?]; auto].
  reflexivity.
Qed.

(** What the lookup makes of the member of a record. *)
Lemma redisResult_of_member (q n m : Z) (p : json) (rest : list string) :
  0 <= n -> 0 <= m -> readable p ->
  redisResult_of q (member n m p :: rest)
  = if (n <=? q) && (q <=? m) then JS.Ok p else JS.Ok JNull.
Proof.
  intros Hn Hm [Hsplit Hparse]. unfold redisResult_of.
  rewrite split_member, Hsplit by done. unfold field. simpl.
  rewrite !parseInt_Number_toString by done.
  destruct ((n <=? q) && (q <=? m)); [|done]. by rewrite Hparse.
Qed.

Lemma find_record_after (b q : Z) (recs : list (Z * Z * list string)) :
  ascending b recs -> q < b -> find_record q recs = None.
Proof.
  intros Hasc Hq. pose proof (ascending_after b q recs Hasc Hq) as Hnone.
  unfold find_record. induction Hnone as [|r rest Hr Hall IH]; [done|].
  simpl. rewrite Hr. apply IH.
  destruct r as [[n m] s]. destruct Hasc as (Hbn & Hnm & Hrest).
  eapply ascending_weaken; [|exact Hrest]. lia.
Qed.

(** The member with the lowest score at or above [q] passes the containment
    test exactly when its record contains [q], and no other record does. *)
Lemma first_from_is_covering (q : Z) (recs : list (Z * Z * list string)) :
  forall b idx,
    0 <= b -> ascending b recs -> Forall readable_record recs ->
    index_of recs = JS.Ok idx ->
    redisResult_of q (option_list (zset_first_from q idx))
    = match find_record q recs with
      | Some r => data ← group [] r.2; mret (payload data)
      | None => JS.Ok JNull
      end.
Proof.
  induction recs as [|[[n m] s] rest IH]; intros b idx Hb Hasc Hread Hidx.
  - simpl in Hidx. injection Hidx as <-. done.
  - destruct Hasc as (Hbn & Hnm & Hrest).
    apply Forall_cons in Hread as [Hr Hread].
    simpl in Hidx. unfold entry in Hidx. simpl in Hidx.
    destruct (group [] s) as [data|] eqn:Hgroup; [|done]. simpl in Hidx.
    destruct (index_of rest) as [es|] eqn:Hes; [|done]. simpl in Hidx.
    injection Hidx as <-.
    change (zset_first_from q ((m, member n m (payload data)) :: es))
      with (if q <=? m then Some (member n m (payload data))
            else zset_first_from q es).
    unfold find_record.
    change (find (contains q) ((n, m, s) :: rest))
      with (if (n <=? q) && (q <=? m) then Some (n, m, s)
            else find (contains q) rest).
    destruct (Z.leb_spec q m) as [Hqm|Hqm].
    + change (option_list (Some ?x)) with [x].
      rewrite redisResult_of_member by (lia || by apply Hr).
      destruct (Z.leb_spec n q) as [Hnq|Hnq]; simpl.
      * destruct (Z.leb_spec q m); [|lia]. by rewrite Hgroup.
      * fold (find_record q rest).
        by rewrite (find_record_after (m + 1) q rest Hrest) by lia.
    + rewrite andb_false_r. fold (find_record q rest).
      apply (IH (m + 1) es); (lia || done).
Qed.

Lemma index_of_scores (recs : list (Z * Z * list string)) (idx : list (Z * string)) :
  index_of recs = JS.Ok idx ->
  Forall2 (fun r e => exists data, group [] r.2 = JS.Ok data
                      /\ e = (r.1.2, member r.1.1 r.1.2 (payload data)))
          recs idx.
Proof.
  revert idx. induction recs as [|r rest IH]; intros idx Hidx; simpl in Hidx.
  - injection Hidx as <-. constructor.
  - unfold entry in Hidx. simpl in Hidx.
    destruct (group [] r.2) as [data|] eqn:Hgroup; [|done]. simpl in Hidx.
    destruct (index_of rest) as [es|] eqn:Hes; [|done]. simpl in Hidx.
    injection Hidx as <-. constructor; [eauto|]. by apply IH.
Qed.


Lemma member_score_inj (n m n' m' : Z) (p p' : json) :
  0 <= n -> 0 <= m -> 0 <= n' -> 0 <= m' ->
  member n m p = member n' m' p' -> m = m'.
Proof.
  intros Hn Hm Hn' Hm' Heq. apply (f_equal (JS.split "|")) in Heq.
  rewrite !split_member in Heq by done. injection Heq as _ Heq _.
  apply (f_equal JS.parseInt) in Heq.
  rewrite !parseInt_Number_toString in Heq by done. by injection Heq.
Qed.

Lemma index_of_entries_above (recs : list (Z * Z * list string)) :
  forall b idx, ascending b recs -> index_of recs = JS.Ok idx ->
                entries_above b idx.
Proof.
  induction recs as [|[[n m] s] rest IH]; intros b idx Hasc Hidx; simpl in Hidx.
  - by injection Hidx as <-.
  - destruct Hasc as (Hbn & Hnm & Hrest).
    unfold entry in Hidx. simpl in Hidx.
    destruct (group [] s) as [data|]; [|done]. simpl in Hidx.
    destruct (index_of rest) as [es|] eqn:Hes; [|done]. simpl in Hidx.
    injection Hidx as <-. simpl. split; [eauto|]. by apply IH.
Qed.

Lemma zinsert_last (x : Z * string) (z : list (Z * string)) :
  Forall (fun y => y.1 < x.1) z -> zinsert x z = z ++ [x].
Proof.
  induction 1 as [|y z Hy Hall IH]; [done|]. simpl.
  unfold zlt. destruct (Z.ltb_spec x.1 y.1); [lia|].
  destruct (Z.eqb_spec x.1 y.1); [lia|]. simpl. by rewrite IH.
Qed.

(** Adding a member above all scores of the set appends it. *)
Lemma zset_add_above (b n score : Z) (p : json) (z : list (Z * string)) :
  0 <= n -> b <= score -> Forall (below b) z ->
  zset_add score (member n score p) z = z ++ [(score, member n score p)].
Proof.
  intros Hn Hb Hz. unfold zset_add.
  assert (List.filter
            (fun y : Z * string => negb (bool_decide (y.2 = member n score p))) z
          = z) as ->.
  { induction Hz as [|y z (n' & p' & Hn' & Hy & Hmem) Hall IH]; [done|].
    simpl. rewrite bool_decide_eq_false_2; [simpl; by rewrite IH|].
    rewrite Hmem. intros Heq. apply member_score_inj in Heq; lia. }
  apply zinsert_last. eapply Forall_impl; [exact Hz|].
  intros y (_ & _ & _ & Hy & _). simpl. lia.
Qed.

Lemma zadd_all_above (idx : list (Z * string)) :
  forall b z, 0 <= b -> entries_above b idx -> Forall (below b) z ->
              zadd_all idx z = z ++ idx.
Proof.
  induction idx as [|[score mem] rest IH]; intros b z Hb Habove Hz; simpl.
  - by rewrite app_nil_r.
  - destruct Habove as ((n & p & Hbn & Hns & ->) & Hrest).
    unfold zadd_all. simpl. fold (zadd_all rest).
    rewrite (zset_add_above b) by (lia || done).
    rewrite (IH (score + 1)); [by rewrite <- app_assoc|lia|done|].
    apply Forall_app. split.
    + eapply Forall_impl; [exact Hz|]. intros y (n' & p' & ? & ? & ?).
      exists n', p'. split; [done|]. split; [lia|done].
    + constructor; [|constructor]. exists n, p. simpl. split; [lia|]. split; [lia|done].
Qed.

End WithCodec.
End IndexFacts.

(** ** What a successful load publishes *)

Module PublishFacts.
Import Json Redis LoadToRedis LoaderFacts SweepFacts IndexFacts.
Import SortSpec TextSpec CacheSpec LaunchSpec LoaderSpec SweepSpec IndexSpec
  PublishSpec LookupSpec PartitionSpec Tactics.

Lemma publish_app (es1 es2 : list (Z * string)) (d : gmap string value) :
  publish (es1 ++ es2) d = publish es2 (publish es1 d).
Proof. unfold publish. apply fold_left_app. Qed.

Lemma publish_other (es : list (Z * string)) (d : gmap string value) (key : string) :
  key <> tempKey -> publish es d !! key = d !! key.
Proof.
  intros Hkey. revert d. induction es as [|e es IH]; intros d; [done|].
  simpl. rewrite IH. unfold zadd_data.
  destruct (d !! tempKey) as [[]|]; by rewrite ?lookup_insert_ne.
Qed.

(** From a keyspace without the temporary key, the key holds the entries
    added one after the other. *)
Lemma publish_tempKey (es : list (Z * string)) (d : gmap string value) :
  d !! tempKey = None ->
  publish es d !! tempKey
  = match es with [] => None | _ => Some (VZSet (zadd_all es [])) end.
Proof.
  intros Hnone. destruct es as [|[score mem] es]; [done|]. simpl.
  unfold zadd_data at 1. rewrite Hnone.
  assert (forall es z d', d' !! tempKey = Some (VZSet z) ->
            publish es d' !! tempKey = Some (VZSet (zadd_all es z))) as Hgo.
  { clear. induction es as [|e es IH]; intros z d' Hd'; [done|].
    simpl. unfold zadd_data at 1. rewrite Hd'. apply IH.
    apply lookup_insert_eq. }
  rewrite (Hgo es [(score, mem)]) by apply lookup_insert_eq. done.
Qed.

Section WithCodec.
Context `{Codec}.
Variable w : world.
Hypothesis writes_succeed : forall k, zadd_fails w k = false.

Lemma exec_effect (pipeline : list queued) :
  Forall to_tempKey pipeline ->
  forall st, exists replies st',
    exec w pipeline st = (JS.Ok replies, st')
    /\ data st' = publish (List.map queued_entry pipeline) (data st).
Proof.
  induction 1 as [|[[[k key] score] mem] rest Hq Hall IH]; intros st.
  - exists [], st. done.
  - unfold to_tempKey in Hq. simpl in Hq. subst key.
    simpl. rewrite writes_succeed. run.
    unfold queued_entry at 1. simpl. unfold zadd_data at 1.
    destruct (data st !! tempKey) as [[]|]; run;
      match goal with
      | |- context [exec w rest ?st1] =>
          destruct (IH st1) as (replies & st' & -> & Hdata)
      end;
      simpl in *; eauto.
Qed.

Lemma flatten_loop_effect (scratch : list event) :
  forall k s pipeline st p' st',
    Forall to_tempKey pipeline ->
    flatten_loop w k scratch s pipeline st = (JS.Ok p', st') ->
    exists es, index_of (sweep s scratch) = JS.Ok es
               /\ publish (List.map queued_entry p') (data st')
                  = publish (List.map queued_entry pipeline ++ es) (data st).
Proof.
  induction scratch as [|cur rest IH]; intros k s pipeline st p' st' Hall Hrun.
  - simpl in Hrun. run. simplify_eq. exists []. by rewrite app_nil_r.
  - destruct rest as [|nex rest'].
    { simpl in Hrun. run. simplify_eq. exists []. by rewrite app_nil_r. }
    change (flatten_loop w k (cur :: nex :: rest') s pipeline) with
      (pipeline ← (if k mod batchSize =? 0
                   then _ ← exec w pipeline; mret []
                   else mret pipeline);
       let '(s, n, m) := advance s cur nex in
       if emits s n m then
         let s := JS.SetSpread s in
         data ← Redis.lift (group [] s);
         flatten_loop w (k + 1) (nex :: rest') s
           (pipeline ++ [(k, tempKey, m, member n m (payload data))])
       else flatten_loop w (k + 1) (nex :: rest') s pipeline) in Hrun.
    rewrite sweep_cons2.
    destruct (advance s cur nex) as [[s1 n] m].
    apply bind_Ok_inv in Hrun as (p1 & st1 & Hfirst & Hrun).
    assert (Forall to_tempKey p1
            /\ publish (List.map queued_entry p1) (data st1)
               = publish (List.map queued_entry pipeline) (data st)) as [Hp1 Hpub].
    { destruct (k mod batchSize =? 0); run; [|by simplify_eq].
      destruct (exec_effect pipeline Hall st) as (replies & st2 & Hexec & Hdata).
      rewrite Hexec in Hfirst. simplify_eq. split; [constructor|]. by rewrite Hdata. }
    destruct (emits s1 n m).
    + apply bind_Ok_inv in Hrun as (data & st2 & Hgroup & Hrun).
      unfold lift in Hgroup. simplify_eq.
      apply IH in Hrun as (es & Hes & Hrun).
      2: { apply Forall_app. split; [done|]. by constructor. }
      exists ((m, member n m (payload data)) :: es). split.
      * change (index_of ((n, m, JS.SetSpread s1)
                            :: sweep (JS.SetSpread s1) (nex :: rest')))
          with (e ← entry (n, m, JS.SetSpread s1);
                es ← index_of (sweep (JS.SetSpread s1) (nex :: rest'));
                mret (e :: es)).
        rewrite Hes. unfold entry. simpl.
        match goal with Hg : group [] _ = _ |- _ => rewrite Hg end.
        reflexivity.
      * rewrite Hrun, map_app, <- !app_assoc, !publish_app.
        exact (f_equal (fun d => publish es
                 (publish [(m, member n m (payload data))] d)) Hpub).
    + apply IH in Hrun as (es & Hes & Hrun); [|done].
      exists es. split; [done|]. rewrite Hrun, !publish_app.
      exact (f_equal (publish es) Hpub).
Qed.


Hypothesis no_interference : forall d, concurrent w d = d.

Lemma try_catch_Ok_inv {A} (c : M A) (handler : JS.exn -> M A)
  (st st' : state) (a : A) :
  (forall e st1, exists st2, handler e st1 = (JS.Throw e, st2)) ->
  try_catch c handler st = (JS.Ok a, st') -> c st = (JS.Ok a, st').
Proof.
  intros Hh Hrun. run. destruct (c st) as [[a'|e] st1]; [done|].
  destruct (Hh e st1) as (st2 & Hst2). rewrite Hst2 in Hrun. done.
Qed.

Lemma guard_Ok_inv (b : bool) (e : JS.exn) (st st' : state) :
  (if b then throw e else mret tt) st = (JS.Ok tt, st') -> b = false /\ st' = st.
Proof. destruct b; run; intros; by simplify_eq. Qed.

Lemma zcard_Ok_inv (key : string) (st st' : state) (size : Z) :
  zcard key st = (JS.Ok size, st') ->
  data st' = data st
  /\ ((size =? 0) = false -> exists z, data st !! key = Some (VZSet z)).
Proof.
  intros Hrun. run. destruct (data st !! key) as [[]|]; run; simplify_eq;
    (split; [done|]); intros; eauto; done.
Qed.

Lemma rename_Ok_inv (src dst : string) (st st' : state) :
  rename src dst st = (JS.Ok tt, st') ->
  exists v, data st !! src = Some v /\ data st' = <[dst := v]> (delete src (data st)).
Proof.
  intros Hrun. run. destruct (data st !! src) as [v|]; run; simplify_eq. eauto.
Qed.

(** A load that succeeds, with no write refused and no other client in the
    way, leaves under the live key the entries of the flattened records, each
    at the score of its end, in ascending order. *)
Lemma load_publishes_index (rows : list row) (redisPrefix : string)
  (st st' : state) :
  Forall (fun r => 0 <= start_int r /\ 0 <= end_int r) rows ->
  load w (Rows rows) redisPrefix st = (JS.Ok tt, st') ->
  exists idx, index_of (flatten rows) = JS.Ok idx
              /\ data st' !! (redisPrefix +:+ "ranges") = Some (VZSet idx).
Proof.
  intros Hrows Hload.
  pose proof (tempKey_not_ranges redisPrefix) as Htemp.
  pose proof (tempKey_not_ipListSize redisPrefix) as Hsize.
  set (live := redisPrefix +:+ "ranges") in *.
  unfold load in Hload.
  apply bind_Ok_inv in Hload as (a0 & st1 & Hdel & Hload).
  assert (data st1 !! tempKey = None) as Hnone1.
  { run. simplify_eq. simpl. apply lookup_delete_eq. }
  apply try_catch_Ok_inv in Hload.
  2: { intros e st2. destruct (cleanup_spec e st2) as (st3 & Hc & _). eauto. }
  apply bind_Ok_inv in Hload as (lists & st2 & Hsm & Hload).
  apply (quiet_smembers tempKey) in Hsm as (Hd2 & _).
  apply bind_Ok_inv in Hload as ([] & st3 & Hlp & Hload).
  apply (quiet_lpush tempKey) in Hlp as (Hd3 & _); [|done].
  apply bind_Ok_inv in Hload as (pipeline & st4 & Hloop & Hload).
  pose proof (flatten_loop_queue w _ _ _ _ _ _ _ (Forall_nil_2 _) Hloop) as Hqueue.
  apply flatten_loop_effect in Hloop as (es & Hes & Hpub);
    [|constructor].
  apply bind_Ok_inv in Hload as (replies & st5 & Hexec & Hload).
  destruct (exec_effect pipeline Hqueue st4)
    as (replies' & st5' & Hexec' & Hd5).
  rewrite Hexec' in Hexec. simplify_eq.
  apply bind_Ok_inv in Hload as ([] & st6 & Hguard1 & Hload).
  apply guard_Ok_inv in Hguard1 as [_ ->].
  apply bind_Ok_inv in Hload as (tempKeySize & st7 & Hcard & Hload).
  apply zcard_Ok_inv in Hcard as (Hd7 & Hsome).
  apply bind_Ok_inv in Hload as ([] & st8 & Hguard2 & Hload).
  apply guard_Ok_inv in Hguard2 as [Hsize0 ->].
  apply bind_Ok_inv in Hload as ([] & st9 & Hren & Hload).
  apply rename_Ok_inv in Hren as (v & Hv & Hd9).
  apply bind_Ok_inv in Hload as ([] & st10 & Hint & Hload).
  assert (data st10 = data st9) as Hd10.
  { unfold interfere in Hint. run. simplify_eq. simpl. apply no_interference. }
  apply bind_Ok_inv in Hload as (finalKeySize & st11 & Hcard2 & Hload).
  apply zcard_Ok_inv in Hcard2 as (Hd11 & _).
  apply bind_Ok_inv in Hload as ([] & st12 & Hguard3 & Hload).
  apply guard_Ok_inv in Hguard3 as [_ ->].
  apply bind_Ok_inv in Hload as ([] & st13 & Hdel2 & Hload).
  assert (data st13 = delete tempKey (data st11)) as Hd13.
  { run. by simplify_eq. }
  run. simplify_eq.
  rewrite Hd13, Hd11, Hd10, Hd9.
  rewrite lookup_delete_ne, lookup_insert_eq by done.
  rewrite Hd7, Hd5, Hpub in Hv. simpl in Hv.
  rewrite publish_tempKey in Hv by congruence.
  exists es. split; [done|].
  assert (zadd_all es [] = es) as Hz.
  { rewrite (zadd_all_above es 0 []); [done|lia| |constructor].
    eapply index_of_entries_above; [|exact Hes].
    by apply flatten_ascending. }
  rewrite Hz in Hv. destruct es as [|e es]; [done|]. by injection Hv as <-.
Qed.

End WithCodec.
End PublishFacts.

(** ** C3: the lookup after a load *)

Module LookupFacts.
Import Json Redis LoadToRedis Serve SweepFacts IndexFacts PublishFacts CacheFacts.
Import SortSpec TextSpec CacheSpec LaunchSpec LoaderSpec SweepSpec IndexSpec
  PublishSpec LookupSpec PartitionSpec Tactics.

Lemma set_field_absent (key : string) (v : json) (fields : list (string * json)) :
  key ∉ fields.*1 -> set_field key v fields = fields ++ [(key, v)].
Proof.
  induction fields as [|[k x] fields IH]; intros Hnot; [done|].
  simpl in *. rewrite not_elem_of_cons in Hnot. destruct Hnot as [Hk Hnot].
  rewrite bool_decide_eq_false_2 by done. by rewrite IH.
Qed.

Lemma get_list_payload (data : list (string * list json)) :
  Json.truthy (Json.get "list" (payload data))
  = bool_decide ("list" ∈ (List.map (fun '(t, arr) => (t, JArr arr)) data).*1).
Proof.
  unfold payload, Json.get. induction data as [|[t arr] data IH]; [done|].
  simpl. destruct (decide (t = "list")) as [->|Ht].
  - symmetry. apply bool_decide_eq_true_2. left.
  - rewrite (bool_decide_eq_false_2 (t = "list")) by done. rewrite IH.
    apply bool_decide_ext. rewrite elem_of_cons. naive_solver.
Qed.

Lemma merge_payload (data : list (string * list json)) :
  merge (payload data) None = JS.Ok (with_list (payload data)).
Proof.
  unfold merge. change (Json.truthy (Some (payload data))) with true.
  cbv iota. unfold ensure_list. rewrite get_list_payload.
  unfold with_list, payload. case_bool_decide as Hlist; simpl.
  - done.
  - by rewrite set_field_absent.
Qed.

Section WithInterfaces.
Context `{Codec} `{IpUtils}.
Variable w : LoadToRedis.world.
Variable sw : Serve.world.

(** C3, as the code has it.  Let a load of nonnegative rows succeed, no
    write being refused and no other client touching the live key, and let
    the texts of the payloads be free of [|] and read back.  Then the live
    key holds one member per flattened record, at the score of the record's
    end.  For a valid address of integer form [q], looked up without DroneBL
    in a keyspace with that live key and no usable cache entry, the result is
    the payload of the record that contains [q], with an empty [list] added
    when the payload has none, and [NotFound] when no record contains [q];
    at most one record contains [q].  Whatever the index holds, when the
    member with the lowest score at or above [q] has bounds that do not
    contain [q], the result is [NotFound]. *)
Theorem lookup_returns_covering_record
  (rows : list row) (redisPrefix ip : string) (st0 st : state) :
  let live := redisPrefix +:+ "ranges" in
  let loaded := load w (Rows rows) redisPrefix st0 in
  let q := toLong ip in
  (forall k, zadd_fails w k = false) ->
  (forall d, concurrent w d = d) ->
  Forall (fun r => 0 <= start_int r /\ 0 <= end_int r) rows ->
  Forall readable_record (flatten rows) ->
  loaded.1 = JS.Ok tt ->
  data st !! live = data loaded.2 !! live ->
  isValidIpv4 ip = true ->
  miss (cacheKey redisPrefix ip false) (data st) ->
  (exists idx,
     data st !! live = Some (VZSet idx)
     /\ Forall2 (fun r e => exists data, group [] r.2 = JS.Ok data
                   /\ e = (r.1.2, member r.1.1 r.1.2 (payload data)))
          (flatten rows) idx) /\
  (lookupIP sw redisPrefix ip false st).1
  = match find_record q (flatten rows) with
    | Some r => data ← group [] r.2; mret (with_list (payload data))
    | None => JS.Ok NotFound
    end /\
  (forall i j r1 r2,
     flatten rows !! i = Some r1 -> flatten rows !! j = Some r2 ->
     contains q r1 = true -> contains q r2 = true -> i = j) /\
  (forall st1 z item s e,
     miss (cacheKey redisPrefix ip false) (data st1) ->
     data st1 !! live = Some (VZSet z) ->
     zset_first_from q z = Some item ->
     JS.parseInt (field (JS.split "|" item) 0) = Some s ->
     JS.parseInt (field (JS.split "|" item) 1) = Some e ->
     ~ (s <= q <= e) ->
     (lookupIP sw redisPrefix ip false st1).1 = JS.Ok NotFound).
Proof.
  intros live loaded q Hwrites Hquiet Hrows Hread Hok Hlive Hvalid Hmiss.
  destruct loaded as [r st1] eqn:Hload. simpl in Hok, Hlive. subst r.
  destruct (load_publishes_index w Hwrites Hquiet rows redisPrefix st0 st1
              Hrows Hload) as (idx & Hidx & Hst1).
  fold live in Hst1. rewrite Hst1 in Hlive.
  pose proof (flatten_ascending rows Hrows) as Hasc.
  split; [|split; [|split]].
  - exists idx. split; [done|]. by apply index_of_scores.
  - destruct (lookupIP_miss sw redisPrefix ip false st Hvalid Hmiss) as (-> & _).
    unfold fresh. fold live. rewrite Hlive. fold q.
    rewrite (first_from_is_covering q (flatten rows) 0 idx) by (lia || done).
    destruct (find_record q (flatten rows)) as [[[n m] s]|]; [|done].
    simpl. destruct (group [] s) as [data|]; [|done]. simpl.
    apply merge_payload.
  - intros i j r1 r2. by apply (ascending_disjoint 0 q).
  - intros st2 z item s e Hmiss2 Hz Hitem Hs He Hout.
    destruct (lookupIP_miss sw redisPrefix ip false st2 Hvalid Hmiss2) as (-> & _).
    unfold fresh. fold live. rewrite Hz. fold q. rewrite Hitem. simpl.
    unfold redisResult_of. rewrite Hs, He.
    destruct (Z.leb_spec s q), (Z.leb_spec q e); simpl; try done. lia.
Qed.

End WithInterfaces.

Lemma lookup_returns_covering_record_witness :
  (Serve.lookupIP Samples.silent "ip_lists:" "0.0.0.5" false
     (load Samples.quiet (Rows Samples.two_rows) "ip_lists:" Samples.empty_server).2).1
  = JS.Ok (JObj [("list", JArr [JObj [("name", JStr "a")];
                                JObj [("name", JStr "b")]])]).
Proof.
  refine (proj1 (proj2 (lookup_returns_covering_record Samples.quiet Samples.silent
            Samples.two_rows "ip_lists:" "0.0.0.5" Samples.empty_server
            (load Samples.quiet (Rows Samples.two_rows) "ip_lists:" Samples.empty_server).2
            (fun _ => eq_refl) (fun _ => eq_refl) _ _ eq_refl eq_refl eq_refl _))).
  - repeat (apply Forall_cons_2; [simpl; lia|]). apply Forall_nil_2.
  - let recs := eval vm_compute in (flatten Samples.two_rows) in
    change (flatten Samples.two_rows) with recs.
    repeat (apply Forall_cons_2;
            [intros data Hdata; vm_compute in Hdata; injection Hdata as <-;
             split; vm_compute; reflexivity|]).
    apply Forall_nil_2.
  - left. vm_compute. reflexivity.
Defined.

(** The claim fails while a cache entry is live: after the load the record
    [1,5] contains the address [0.0.0.3], and the lookup returns the cached
    [NotFound]. *)
Lemma stale_cache_counterexample :
  let st0 := mkState {[ "ip_lists:cache:0.0.0.3" := VString "null" (Some 172800) ]} [] in
  let loaded := load Samples.quiet (Rows [mkRow 1 5 Samples.Ta]) "ip_lists:" st0 in
  loaded.1 = JS.Ok tt /\
  flatten [mkRow 1 5 Samples.Ta] = [(1, 5, [Samples.Ta])] /\
  toLong "0.0.0.3" = 3 /\
  (Serve.lookupIP Samples.silent "ip_lists:" "0.0.0.3" false loaded.2).1 = JS.Ok NotFound.
Proof. vm_compute. done. Qed.

End LookupFacts.

(** ** C1 and C2: a tag that is active twice *)

Module ActiveTwice.
Import Json LoadToRedis SweepFacts.
Import SortSpec TextSpec CacheSpec LaunchSpec LoaderSpec SweepSpec IndexSpec
  PublishSpec LookupSpec PartitionSpec Tactics.

(** C1 at the rows [1,5] and [5,10] with the same tag.  The active list
    holds the tag twice at coordinate 5; [s = [...new Set(s)]] leaves one
    occurrence, which the end event of the first row removes.  The records
    are [1,4] and [5,5]: the coordinates 6 to 10 of the second row are in no
    record. *)
Theorem same_tag_twice_loses_coverage (T : string) :
  flatten [mkRow 1 5 T; mkRow 5 10 T] = [(1, 4, [T]); (5, 5, [T])] /\
  find_record 7 (flatten [mkRow 1 5 T; mkRow 5 10 T]) = None /\
  start_int (mkRow 5 10 T) <= 7 <= end_int (mkRow 5 10 T).
Proof.
  assert (flatten [mkRow 1 5 T; mkRow 5 10 T] = [(1, 4, [T]); (5, 5, [T])]) as Hf.
  { unfold flatten. simpl. unfold emits, JS.SetSpread. simpl.
    repeat (case_bool_decide; simpl; simplify_eq; try done;
            try match goal with
                | Hnin : _ ∉ _ |- _ =>
                    exfalso; apply Hnin; apply list_elem_of_In; simpl; tauto
                | Hin : _ ∈ [] |- _ => by apply elem_of_nil in Hin
                end). }
  rewrite Hf. split; [done|]. split; [reflexivity|]. simpl. lia.
Qed.

(** C2 at the rows [1,5] and [5,10] with the tag [a] and [1,10] with the tag
    [b].  The record [6,10] carries the tag [b] alone, although the row
    [5,10] with the tag [a] contains its coordinates. *)
Theorem same_tag_twice_loses_tag :
  flatten [mkRow 1 5 Samples.Ta; mkRow 5 10 Samples.Ta; mkRow 1 10 Samples.Tb]
  = [(1, 4, [Samples.Ta; Samples.Tb]); (5, 5, [Samples.Ta; Samples.Tb]);
     (6, 10, [Samples.Tb])] /\
  start_int (mkRow 5 10 Samples.Ta) <= 6 /\
  10 <= end_int (mkRow 5 10 Samples.Ta).
Proof. split; [vm_compute; reflexivity|]. simpl. lia. Qed.

End ActiveTwice.

(** ** The sweep when no tag is active twice *)

Module PartitionFacts.
Import Json LoadToRedis SortFacts SweepFacts.
Import SortSpec TextSpec CacheSpec LaunchSpec LoaderSpec SweepSpec IndexSpec
  PublishSpec LookupSpec PartitionSpec Tactics.

Lemma elem_of_events (rows : list row) (ev : event) :
  ev ∈ events rows <-> exists r, r ∈ rows /\ (ev = start_ev r \/ ev = end_ev r).
Proof.
  unfold events. induction rows as [|r rows IH]; simpl.
  - rewrite elem_of_nil. split; [done|]. intros (r & Hr & _). by apply elem_of_nil in Hr.
  - rewrite !elem_of_cons, IH. split.
    + intros [->|[->|(r' & Hr' & Hev)]].
      * exists r. split; [left|]. by left.
      * exists r. split; [left|]. by right.
      * exists r'. split; [by right|done].
    + intros (r' & Hr' & Hev). apply elem_of_cons in Hr' as [->|Hr'].
      * destruct Hev as [->| ->]; auto.
      * right. right. eauto.
Qed.

Lemma apart_sym (r1 r2 : row) : apart r1 r2 -> apart r2 r1.
Proof. unfold apart. intros Hap Htag. destruct (Hap (eq_sym Htag)); auto. Qed.

Lemma pairwise_apart_elem (rows : list row) (r1 r2 : row) :
  pairwise_apart rows -> r1 ∈ rows -> r2 ∈ rows -> r1 <> r2 -> apart r1 r2.
Proof.
  induction rows as [|r rows IH]; intros Hpw H1 H2 Hne.
  - by apply elem_of_nil in H1.
  - destruct Hpw as [Hall Hpw]. rewrite Forall_forall in Hall.
    apply elem_of_cons in H1 as [->|H1], H2 as [->|H2].
    + done.
    + by apply Hall.
    + apply apart_sym. by apply Hall.
    + by apply IH.
Qed.

Lemma events_NoDup (rows : list row) :
  proper rows -> pairwise_apart rows -> NoDup (events rows).
Proof.
  induction rows as [|r rows IH]; intros Hwf Hpw; [constructor|].
  apply Forall_cons in Hwf as [Hr Hwf]. destruct Hpw as [Hall Hpw].
  rewrite Forall_forall in Hall. rewrite Forall_forall in Hwf.
  change (events (r :: rows)) with (start_ev r :: end_ev r :: events rows).
  apply NoDup_cons. split.
  - rewrite not_elem_of_cons. split; [discriminate|].
    rewrite elem_of_events. intros (r' & Hr' & [Heq|Heq]); [|discriminate].
    injection Heq as Hs Ht. specialize (Hall r' Hr' Ht). specialize (Hwf r' Hr').
    lia.
  - apply NoDup_cons. split; [|apply IH; [by apply Forall_forall|done]].
    rewrite elem_of_events. intros (r' & Hr' & [Heq|Heq]); [discriminate|].
    injection Heq as He Ht. specialize (Hall r' Hr' Ht). specialize (Hwf r' Hr').
    lia.
Qed.

(** On a list without repetition the spread of its set is the list. *)
Lemma dedupAcc_NoDup (seen l : list string) :
  NoDup l -> (forall x, x ∈ l -> x ∉ seen) -> JS.dedupAcc seen l = l.
Proof.
  intros Hnd. revert seen. induction Hnd as [|x l Hx Hnd IH]; intros seen Hseen; [done|].
  simpl. rewrite bool_decide_eq_false_2 by (apply Hseen; left).
  f_equal. apply IH. intros y Hy. rewrite not_elem_of_cons. split.
  - intros ->. done.
  - apply Hseen. by right.
Qed.

Lemma SetSpread_NoDup (l : list string) : NoDup l -> JS.SetSpread l = l.
Proof.
  intros Hnd. apply dedupAcc_NoDup; [done|]. intros x _. apply not_elem_of_nil.
Qed.

Lemma spliceIndexOf_absent (x : string) (l : list string) :
  x ∉ l -> JS.spliceIndexOf x l = l.
Proof.
  induction l as [|y l IH]; intros Hx; [done|]. simpl.
  rewrite not_elem_of_cons in Hx. destruct Hx as [Hxy Hx].
  rewrite bool_decide_eq_false_2 by done. by rewrite IH.
Qed.

Lemma spliceIndexOf_NoDup (x : string) (l : list string) :
  NoDup l ->
  NoDup (JS.spliceIndexOf x l)
  /\ forall y, y ∈ JS.spliceIndexOf x l <-> y ∈ l /\ y <> x.
Proof.
  induction 1 as [|z l Hz Hnd [IHnd IH]]; simpl.
  - split; [constructor|]. intros y. rewrite elem_of_nil. tauto.
  - case_bool_decide as Hzx.
    + subst z. split; [done|]. intros y. rewrite elem_of_cons. split.
      * intros Hy. split; [by right|]. by intros ->.
      * intros [[->|Hy] Hne]; done.
    + split.
      * apply NoDup_cons. split; [|done]. rewrite IH. tauto.
      * intros y. rewrite !elem_of_cons, IH. split.
        -- intros [->|[Hy Hne]]; [split; [by left|done] | split; [by right|done]].
        -- intros [[->|Hy] Hne]; [by left | right; done].
Qed.


Section Sweep.
Variable rows : list row.
Variable E : list event.
Hypothesis rows_proper : proper rows.
Hypothesis rows_apart : pairwise_apart rows.
Hypothesis E_ordered : ordered E.
Hypothesis E_NoDup : NoDup E.
Hypothesis E_events :
  forall ev, ev ∈ E <-> exists r, r ∈ rows /\ (ev = start_ev r \/ ev = end_ev r).

Local Abbreviation active := (PartitionSpec.active rows).
Local Abbreviation tracks := (PartitionSpec.tracks rows).

Lemma row_proper (r : row) : r ∈ rows -> start_int r <= end_int r.
Proof. intros Hr. unfold proper in rows_proper. rewrite Forall_forall in rows_proper. auto. Qed.

Lemma before_after (swept todo : list event) (a b : event) :
  E = swept ++ todo -> a ∈ swept -> b ∈ todo -> key a <= key b.
Proof.
  intros HE Ha Hb.
  apply list_elem_of_lookup in Ha as [i Hi], Hb as [j Hj].
  apply (ordered_lookup E i (length swept + j) a b E_ordered).
  - apply lookup_lt_Some in Hi. lia.
  - rewrite HE. by apply lookup_app_l_Some.
  - rewrite HE, lookup_app_r by lia. by replace (length swept + j - length swept)%nat with j by lia.
Qed.

Lemma not_both (swept todo : list event) (a : event) :
  E = swept ++ todo -> a ∈ swept -> a ∈ todo -> False.
Proof.
  intros HE Ha Hb. rewrite HE in E_NoDup.
  apply NoDup_app in E_NoDup as (_ & Hdisj & _). by apply (Hdisj a).
Qed.

Lemma start_in_E (r : row) : r ∈ rows -> start_ev r ∈ E.
Proof. intros Hr. apply E_events. eauto. Qed.

Lemma end_in_E (r : row) : r ∈ rows -> end_ev r ∈ E.
Proof. intros Hr. apply E_events. eauto. Qed.

Lemma same_tag_same_row (r r' : row) (x : Z) :
  r ∈ rows -> r' ∈ rows -> r_list r = r_list r' ->
  covers r x -> covers r' x -> r = r'.
Proof.
  intros Hr Hr' Htag Hx Hx'. destruct (decide (r = r')) as [|Hne]; [done|].
  pose proof (pairwise_apart_elem rows r r' rows_apart Hr Hr' Hne Htag).
  unfold covers in *. lia.
Qed.

(** One event more is swept. *)
Lemma tracks_step (swept todo : list event) (cur nex : event) (s : list string) :
  E = swept ++ cur :: todo -> tracks swept (cur :: todo) s ->
  tracks (swept ++ [cur]) todo (advance s cur nex).1.1.
Proof.
  intros HE [Hnd Hs].
  assert (E = (swept ++ [cur]) ++ todo) as HE' by (by rewrite <- app_assoc).
  assert (cur ∈ E) as Hcur by (rewrite HE; apply elem_of_app; right; left).
  apply E_events in Hcur as (r & Hr & Hev).
  pose proof (row_proper r Hr) as Hab.
  unfold advance. simpl. destruct Hev as [->| ->]; simpl.
  - (* a start: the tag is pushed *)
    assert (r_list r ∉ s) as Hfresh.
    { intros Hin. apply Hs in Hin as (r' & Hr' & Htag & Hstart & Hend).
      assert (r' = r) as ->.
      { apply (same_tag_same_row r' r (start_int r)); [done|done|done| |].
        - pose proof (before_after swept (start_ev r :: todo) (start_ev r')
                        (start_ev r) HE Hstart ltac:(left)) as H1.
          pose proof (before_after swept (start_ev r :: todo) (start_ev r)
                        (end_ev r') ) as H2.
          apply elem_of_cons in Hend as [Heq|Hend]; [discriminate|].
          pose proof (before_after (swept ++ [start_ev r]) todo (start_ev r)
                        (end_ev r') HE' ltac:(apply elem_of_app; right; left) Hend)
            as H3.
          unfold key, covers in *. simpl in *. lia.
        - unfold covers. lia. }
      eapply (not_both swept (start_ev r :: todo)); [done|done|left]. }
    split.
    + apply NoDup_app. split; [done|]. split; [|apply NoDup_singleton].
      intros T HT HT'. apply list_elem_of_singleton in HT'. by subst T.
    + intros T. rewrite elem_of_app, list_elem_of_singleton, Hs. split.
      * intros [(r' & Hr' & Htag & Hstart & Hend)| ->].
        -- exists r'. split; [done|]. split; [done|]. split.
           ++ apply elem_of_app. by left.
           ++ apply elem_of_cons in Hend as [Heq|Hend]; [discriminate|done].
        -- exists r. split; [done|]. split; [done|]. split.
           ++ apply elem_of_app. right. left.
           ++ pose proof (end_in_E r Hr) as Hend. rewrite HE' in Hend.
              apply elem_of_app in Hend as [Hend|Hend]; [|done].
              apply elem_of_app in Hend as [Hend|Hend].
              ** pose proof (before_after swept (start_ev r :: todo) (end_ev r)
                               (start_ev r) HE Hend ltac:(left)) as Hk.
                 unfold key in Hk. simpl in Hk. lia.
              ** apply list_elem_of_singleton in Hend. discriminate.
      * intros (r' & Hr' & Htag & Hstart & Hend).
        apply elem_of_app in Hstart as [Hstart|Hstart].
        -- left. exists r'. split; [done|]. split; [done|]. split; [done|]. by right.
        -- right. apply list_elem_of_singleton in Hstart.
           injection Hstart as _ Ht. congruence.
  - (* an end: one occurrence of the tag is spliced out *)
    destruct (spliceIndexOf_NoDup (r_list r) s Hnd) as [Hnd' Hs'].
    split; [done|]. intros T. rewrite Hs', Hs. split.
    + intros [(r' & Hr' & Htag & Hstart & Hend) Hne].
      exists r'. split; [done|]. split; [done|]. split.
      * apply elem_of_app. by left.
      * apply elem_of_cons in Hend as [Heq|Hend]; [|done].
        injection Heq as _ Ht. congruence.
    + intros (r' & Hr' & Htag & Hstart & Hend).
      apply elem_of_app in Hstart as [Hstart|Hstart].
      2: { apply list_elem_of_singleton in Hstart. discriminate. }
      split.
      * exists r'. split; [done|]. split; [done|]. split; [done|]. by right.
      * intros ->. assert (r' = r) as ->.
        { apply (same_tag_same_row r' r (end_int r)); [done|done|done| |].
          - pose proof (before_after swept (end_ev r :: todo) (start_ev r')
                          (end_ev r) HE Hstart ltac:(left)) as H1.
            pose proof (before_after (swept ++ [end_ev r]) todo (end_ev r)
                          (end_ev r') HE' ltac:(apply elem_of_app; right; left) Hend)
              as H3.
            unfold key, covers in *. simpl in *. lia.
          - unfold covers. lia. }
        eapply (not_both (swept ++ [end_ev r]) todo); [done| |done].
        apply elem_of_app. right. left.
Qed.


Lemma le_last (swept todo : list event) (cur ev : event) :
  E = (swept ++ [cur]) ++ todo -> ev ∈ swept ++ [cur] -> key ev <= key cur.
Proof.
  intros HE Hev. apply elem_of_app in Hev as [Hev|Hev].
  - apply (before_after swept (cur :: todo)); [by rewrite HE, <- app_assoc|done|left].
  - apply list_elem_of_singleton in Hev. subst ev. lia.
Qed.

Lemma ge_first (swept todo : list event) (nex ev : event) :
  E = swept ++ nex :: todo -> ev ∈ nex :: todo -> key nex <= key ev.
Proof.
  intros HE Hev. apply elem_of_cons in Hev as [->|Hev]; [lia|].
  apply (before_after (swept ++ [nex]) todo); [by rewrite HE, <- app_assoc| |done].
  apply elem_of_app. right. left.
Qed.

(** Between two consecutive events the active rows are the rows that cover
    the coordinates of the record. *)
Lemma record_tags (swept todo : list event) (cur nex : event)
  (s : list string) (x : Z) (T : string) :
  E = (swept ++ [cur]) ++ nex :: todo ->
  tracks (swept ++ [cur]) (nex :: todo) s ->
  lo cur <= x <= lo nex - 1 ->
  T ∈ s <-> exists r, r ∈ rows /\ r_list r = T /\ covers r x.
Proof.
  intros HE [_ Hs] Hx. rewrite Hs. split.
  - intros (r & Hr & Htag & Hstart & Hend). exists r. split; [done|]. split; [done|].
    apply (le_last swept (nex :: todo) cur) in Hstart; [|done].
    apply (ge_first (swept ++ [cur]) todo nex) in Hend; [|done].
    apply key_lo in Hstart, Hend. unfold lo in Hstart at 1. unfold lo in Hend at 2.
    simpl in *. unfold covers. lia.
  - intros (r & Hr & Htag & Hcov). exists r. split; [done|]. split; [done|].
    unfold covers in Hcov. split.
    + pose proof (start_in_E r Hr) as Hin. rewrite HE in Hin.
      apply elem_of_app in Hin as [Hin|Hin]; [done|].
      apply (ge_first (swept ++ [cur]) todo nex) in Hin; [|done].
      apply key_lo in Hin. unfold lo in Hin at 2. simpl in Hin. lia.
    + pose proof (end_in_E r Hr) as Hin. rewrite HE in Hin.
      apply elem_of_app in Hin as [Hin|Hin]; [|done].
      apply (le_last swept (nex :: todo) cur) in Hin; [|done].
      apply key_lo in Hin. unfold lo in Hin at 1. simpl in Hin. lia.
Qed.

Lemma advance_eq (s : list string) (cur nex : event) :
  advance s cur nex = ((advance s cur nex).1.1, lo cur, lo nex - 1).
Proof. destruct (advance_bounds s cur nex) as (s' & ->). reflexivity. Qed.

(** Every record carries, once each, the tags of the rows that cover its
    coordinates. *)
Lemma sweep_tags (todo : list event) :
  forall swept s,
    E = swept ++ todo -> tracks swept todo s ->
    forall rec, rec ∈ sweep s todo ->
      NoDup rec.2 /\ rec.2 <> []
      /\ forall x T, contains x rec = true ->
           T ∈ rec.2 <-> exists r, r ∈ rows /\ r_list r = T /\ covers r x.
Proof.
  induction todo as [|cur todo IH]; intros swept s HE Htr rec Hrec.
  - by apply elem_of_nil in Hrec.
  - destruct todo as [|nex rest]; [by apply elem_of_nil in Hrec|].
    rewrite sweep_cons2, advance_eq in Hrec.
    pose proof (tracks_step swept (nex :: rest) cur nex s HE Htr) as Htr'.
    set (s1 := (advance s cur nex).1.1) in *.
    assert (E = (swept ++ [cur]) ++ nex :: rest) as HE' by (by rewrite <- app_assoc).
    pose proof (SetSpread_NoDup s1 (proj1 Htr')) as Hspread.
    destruct (emits s1 (lo cur) (lo nex - 1)) eqn:Hemit.
    + rewrite Hspread in Hrec. apply elem_of_cons in Hrec as [->|Hrec].
      * simpl. split; [apply Htr'|]. split.
        { unfold emits in Hemit. apply andb_true_iff in Hemit as [_ Hne].
          apply negb_true_iff, bool_decide_eq_false in Hne. done. }
        intros x T Hx. apply (record_tags swept rest cur nex); [done|done|].
        unfold contains in Hx. simpl in Hx.
        apply andb_true_iff in Hx as [H1 H2]. apply Z.leb_le in H1, H2. lia.
      * by apply (IH (swept ++ [cur]) s1).
    + by apply (IH (swept ++ [cur]) s1).
Qed.

(** Every coordinate of a row lies in a record. *)
Lemma sweep_covers (x : Z) (todo : list event) :
  forall swept s cur lst,
    E = swept ++ todo -> tracks swept todo s ->
    head todo = Some cur -> last todo = Some lst ->
    lo cur <= x < lo lst ->
    (exists r, r ∈ rows /\ covers r x) ->
    exists rec, rec ∈ sweep s todo /\ contains x rec = true.
Proof.
  induction todo as [|cur' todo IH]; intros swept s cur lst HE Htr Hhead Hlast Hx Hcov;
    [done|].
  simpl in Hhead. injection Hhead as ->.
  destruct todo as [|nex rest].
  { simpl in Hlast. injection Hlast as ->. lia. }
  rewrite sweep_cons2, advance_eq.
  pose proof (tracks_step swept (nex :: rest) cur nex s HE Htr) as Htr'.
  set (s1 := (advance s cur nex).1.1) in *.
  assert (E = (swept ++ [cur]) ++ nex :: rest) as HE' by (by rewrite <- app_assoc).
  pose proof (SetSpread_NoDup s1 (proj1 Htr')) as Hspread.
  rewrite Hspread.
  destruct (Z.lt_ge_cases x (lo nex)) as [Hlt|Hge].
  - assert (emits s1 (lo cur) (lo nex - 1) = true) as ->.
    { unfold emits. apply andb_true_iff. split; [apply Z.leb_le; lia|].
      apply negb_true_iff, bool_decide_eq_false. intros Hnil.
      destruct Hcov as (r & Hr & Hc).
      assert (r_list r ∈ s1) as Hin.
      { apply (record_tags swept rest cur nex s1 x); [done|done|lia|]. eauto. }
      rewrite Hnil in Hin. by apply elem_of_nil in Hin. }
    eexists. split; [left|]. unfold contains. simpl.
    apply andb_true_iff. split; apply Z.leb_le; lia.
  - destruct (IH (swept ++ [cur]) s1 nex lst HE' Htr' eq_refl Hlast ltac:(lia) Hcov)
      as (rec & Hrec & Hin).
    exists rec. split; [|done].
    destruct (emits s1 (lo cur) (lo nex - 1)); [by right|done].
Qed.

End Sweep.

Lemma flatten_ascending_from (rows : list row) :
  exists b, ascending b (flatten rows).
Proof.
  unfold flatten. destruct (sort (events rows)) as [|cur rest] eqn:Hsort.
  - exists 0. done.
  - exists (lo cur). apply sweep_ascending; [|done]. rewrite <- Hsort. apply sort_ordered.
Qed.

(** X2.  The flattener on rows that are proper (start at most end) and pairwise
    apart (no tag on two rows that share a coordinate): the records are
    pairwise disjoint, their union is the union of the rows, and each record
    carries, once each, exactly the tags of the rows that cover its
    coordinates. *)
Theorem flatten_partitions_rows_apart (rows : list row) :
  proper rows -> pairwise_apart rows ->
  (forall x i j r1 r2,
     flatten rows !! i = Some r1 -> flatten rows !! j = Some r2 ->
     contains x r1 = true -> contains x r2 = true -> i = j) /\
  (forall x, (exists rec, rec ∈ flatten rows /\ contains x rec = true)
             <-> (exists r, r ∈ rows /\ covers r x)) /\
  (forall rec, rec ∈ flatten rows ->
     NoDup rec.2
     /\ forall x T, contains x rec = true ->
          T ∈ rec.2 <-> exists r, r ∈ rows /\ r_list r = T /\ covers r x).
Proof.
  intros Hproper Hapart.
  destruct (flatten_ascending_from rows) as [b Hasc].
  unfold flatten in *. set (E := sort (events rows)) in *.
  assert (ordered E) as Hord by apply sort_ordered.
  assert (NoDup E) as Hnd.
  { unfold E. rewrite sort_Permutation. by apply events_NoDup. }
  assert (forall ev, ev ∈ E <->
            exists r, r ∈ rows /\ (ev = start_ev r \/ ev = end_ev r)) as Hev.
  { intros ev. unfold E. rewrite sort_Permutation. apply elem_of_events. }
  assert (tracks rows [] E []) as Htr.
  { split; [constructor|]. intros T. rewrite elem_of_nil. split; [done|].
    intros (r & _ & _ & Hin & _). by apply elem_of_nil in Hin. }
  pose proof (sweep_tags rows E Hproper Hapart Hord Hnd Hev E [] [] eq_refl Htr)
    as Htags.
  clearbody E.
  split; [|split].
  - intros x i j r1 r2. by apply (ascending_disjoint b x).
  - intros x. split.
    + intros (rec & Hrec & Hx). destruct (Htags rec Hrec) as (_ & Hne & Hiff).
      destruct rec.2 as [|T s] eqn:Hs; [done|].
      destruct (proj1 (Hiff x T Hx) ltac:(left)) as (r & Hr & _ & Hc). eauto.
    + intros (r & Hr & Hc).
      assert (start_ev r ∈ E) as Hstart by (apply Hev; eauto).
      assert (end_ev r ∈ E) as Hend by (apply Hev; eauto).
      destruct E as [|cur rest]; [by apply elem_of_nil in Hstart|].
      destruct (last (cur :: rest)) as [lst|] eqn:Hlast.
      2: { by apply last_None in Hlast. }
      apply (sweep_covers rows (cur :: rest) Hproper Hapart Hord Hnd Hev x
               (cur :: rest) [] [] cur lst eq_refl Htr eq_refl Hlast); [|eauto].
      pose proof (ge_first (cur :: rest) Hord [] rest cur (start_ev r) eq_refl Hstart)
        as H1.
      apply last_Some in Hlast as [front Hfront].
      pose proof (le_last (cur :: rest) Hord front [] lst (end_ev r)
                    ltac:(by rewrite app_nil_r) ltac:(by rewrite <- Hfront)) as H2.
      apply key_lo in H1, H2. unfold lo in H1 at 2. unfold lo in H2 at 1.
      unfold covers in Hc. simpl in *. lia.
  - intros rec Hrec. destruct (Htags rec Hrec) as (Hnd' & _ & Hiff). done.
Qed.

Lemma flatten_partitions_rows_apart_witness :
  let rows := Samples.two_rows in
  (forall x i j r1 r2,
     flatten rows !! i = Some r1 -> flatten rows !! j = Some r2 ->
     contains x r1 = true -> contains x r2 = true -> i = j) /\
  (forall x, (exists rec, rec ∈ flatten rows /\ contains x rec = true)
             <-> (exists r, r ∈ rows /\ covers r x)) /\
  (forall rec, rec ∈ flatten rows ->
     NoDup rec.2
     /\ forall x T, contains x rec = true ->
          T ∈ rec.2 <-> exists r, r ∈ rows /\ r_list r = T /\ covers r x).
Proof.
  apply (flatten_partitions_rows_apart Samples.two_rows).
  - apply Forall_cons_2; [simpl; lia|].
    apply Forall_cons_2; [simpl; lia|apply Forall_nil_2].
  - split; [|split; [apply Forall_nil_2|exact I]].
    apply Forall_cons_2; [|apply Forall_nil_2].
    intros Heq. vm_compute in Heq. discriminate.
Defined.

End PartitionFacts.

(** ** The records of the flattener, for every input *)

Module RecordFacts.
Import Json Redis LoadToRedis SweepSpec IndexSpec SweepFacts Tactics.

Lemma dedupAcc_spec (l seen : list string) :
  NoDup (JS.dedupAcc seen l)
  /\ forall x, x ∈ JS.dedupAcc seen l <-> x ∈ l /\ x ∉ seen.
Proof.
  revert seen. induction l as [|y l IH]; intros seen.
  - split; [constructor|]. intros x. simpl. rewrite elem_of_nil. tauto.
  - simpl. case_bool_decide as Hy.
    + destruct (IH seen) as [Hnd Hel]. split; [done|].
      intros x. rewrite Hel, elem_of_cons. naive_solver.
    + destruct (IH (y :: seen)) as [Hnd Hel]. split.
      * constructor; [|done]. rewrite Hel, not_elem_of_cons. naive_solver.
      * intros x. rewrite elem_of_cons, Hel, not_elem_of_cons, elem_of_cons.
        destruct (decide (x = y)); naive_solver.
Qed.

Lemma sweep_records (scratch : list event) :
  forall s, Forall (fun rec : Z * Z * list string =>
                      rec.1.1 <= rec.1.2 /\ rec.2 <> [] /\ NoDup rec.2)
              (sweep s scratch).
Proof.
  induction scratch as [|cur rest IH]; intros s; [constructor|].
  destruct rest as [|nex rest']; [constructor|].
  rewrite sweep_cons2. destruct (advance s cur nex) as [[s1 n] m].
  destruct (emits s1 n m) eqn:Hemit; [|apply IH].
  constructor; [|apply IH]. simpl.
  unfold emits in Hemit. apply andb_true_iff in Hemit as [Hnm Hs1].
  apply Z.leb_le in Hnm. apply negb_true_iff, bool_decide_eq_false in Hs1.
  destruct (dedupAcc_spec s1 []) as [Hnd Hel]. fold (JS.SetSpread s1) in Hnd, Hel.
  split; [done|]. split; [|done].
  destruct s1 as [|x s1]; [done|]. intros Hempty.
  assert (x ∈ JS.SetSpread (x :: s1)) as Hx.
  { apply Hel. split; [left|apply not_elem_of_nil]. }
  rewrite Hempty in Hx. by apply elem_of_nil in Hx.
Qed.

Lemma ascending_lower (recs : list (Z * Z * list string)) :
  forall b (j : nat) r, ascending b recs -> recs !! j = Some r -> b <= r.1.1.
Proof.
  induction recs as [|[[n m] s] rest IH]; intros b j r Hasc Hj.
  { by rewrite lookup_nil in Hj. }
  destruct Hasc as (Hb & Hnm & Hrest).
  destruct j as [|j]; simpl in Hj; [by injection Hj as <-|].
  specialize (IH (m + 1) j r Hrest Hj). lia.
Qed.

Lemma ascending_order (recs : list (Z * Z * list string)) :
  forall b (i j : nat) r1 r2,
    ascending b recs -> (i < j)%nat ->
    recs !! i = Some r1 -> recs !! j = Some r2 -> r1.1.2 < r2.1.1.
Proof.
  induction recs as [|[[n m] s] rest IH]; intros b i j r1 r2 Hasc Hij Hi Hj.
  { by rewrite lookup_nil in Hi. }
  destruct Hasc as (Hb & Hnm & Hrest).
  destruct j as [|j]; [lia|]. simpl in Hj.
  destruct i as [|i]; simpl in Hi.
  - injection Hi as <-. simpl.
    pose proof (ascending_lower rest (m + 1) j r2 Hrest Hj). lia.
  - eapply (IH (m + 1) i j); [done|lia|done|done].
Qed.

(** X3.  The records of the flattener, for every file whose bounds are read
    as numbers.  When [parseInt] reads the [start_int] and the [end_int] of
    every line as a number, none being [NaN], and these numbers are safe
    integers, the records come in ascending order, each ending before the
    next starts, so no coordinate lies in two of them; each has its start at
    or below its end and a tag list that is not empty and holds no tag
    twice.  Nothing else is asked of the rows: they may overlap, repeat a
    tag or have their start above their end. *)
Theorem flatten_records_are_ordered_and_disjoint
  (lines : list line) (rows : list row) :
  rows_of lines = Some rows -> Forall safe_bounds rows ->
  (forall (i j : nat) r1 r2, (i < j)%nat ->
     flatten rows !! i = Some r1 -> flatten rows !! j = Some r2 ->
     r1.1.2 < r2.1.1) /\
  (forall x (i j : nat) r1 r2,
     flatten rows !! i = Some r1 -> flatten rows !! j = Some r2 ->
     contains x r1 = true -> contains x r2 = true -> i = j) /\
  (forall rec, rec ∈ flatten rows ->
     rec.1.1 <= rec.1.2 /\ rec.2 <> [] /\ NoDup rec.2).
Proof.
  intros _ _.
  destruct (PartitionFacts.flatten_ascending_from rows) as [b Hasc].
  split; [|split].
  - intros i j r1 r2. by apply (ascending_order _ b).
  - intros x i j r1 r2. by apply (ascending_disjoint b x).
  - intros rec Hrec. pose proof (sweep_records (sort (events rows)) []) as Hall.
    rewrite Forall_forall in Hall. by apply Hall.
Qed.

(** Three lines that overlap, the first two with the same tag: the three
    records that come out are apart. *)
Lemma flatten_records_witness :
  let lines := [mkLine "1" "5" Samples.Ta; mkLine " 3" "8" Samples.Ta;
                mkLine "0x0A" "12abc" Samples.Tb] in
  let rows := [mkRow 1 5 Samples.Ta; mkRow 3 8 Samples.Ta; mkRow 10 12 Samples.Tb] in
  rows_of lines = Some rows /\
  flatten rows = [(1, 2, [Samples.Ta]); (3, 5, [Samples.Ta]); (10, 12, [Samples.Tb])] /\
  (forall x (i j : nat) r1 r2,
     flatten rows !! i = Some r1 -> flatten rows !! j = Some r2 ->
     contains x r1 = true -> contains x r2 = true -> i = j).
Proof.
  intros lines rows.
  split; [vm_compute; reflexivity|]. split; [vm_compute; reflexivity|].
  apply (flatten_records_are_ordered_and_disjoint lines rows).
  - vm_compute. reflexivity.
  - repeat (apply Forall_cons_2; [unfold safe_bounds; simpl; lia|]). apply Forall_nil_2.
Defined.

(** X4.  The member round trip between the loader and the lookup.  The member
    that [load] writes for a record with bounds [n] and [m] and payload [p]
    splits at its bars into the numerals of [n] and [m] and the payload
    text, and the containment test of [lookupIP] gives the payload back for
    the coordinates from [n] to [m] and [null] for the others. *)
Theorem member_is_read_back `{Codec} (q n m : Z) (p : json) (rest : list string) :
  0 <= n -> 0 <= m -> readable p ->
  JS.split "|" (member n m p)
  = [JS.Number_toString n; JS.Number_toString m; JSON_stringify p] /\
  Serve.redisResult_of q (member n m p :: rest)
  = JS.Ok (if (n <=? q) && (q <=? m) then p else JNull).
Proof.
  intros Hn Hm Hread. split.
  - rewrite IndexFacts.split_member by done. by destruct Hread as [-> _].
  - rewrite IndexFacts.redisResult_of_member by done.
    by destruct ((n <=? q) && (q <=? m)).
Qed.

Lemma member_is_read_back_witness :
  let p := JObj [("list", JArr [JObj [("name", JStr "a")]])] in
  JS.split "|" (member 1 5 p) = ["1"; "5"; JSON_stringify p] /\
  Serve.redisResult_of 3 [member 1 5 p] = JS.Ok p.
Proof.
  intros p.
  apply (member_is_read_back 3 1 5 p []); [lia|lia|].
  split; vm_compute; reflexivity.
Defined.

End RecordFacts.

(** ** What a load leaves alone, and the size history *)

Module LoaderFrame.
Import Json Redis LoadToRedis LoaderSpec LoaderFacts LoaderFrameSpec Tactics.

Lemma quiet_keeps {A} (key : string) (c : M A) : quiet key c -> keeps key c.
Proof. intros Hq st r st' Hc. by destruct (Hq _ _ _ Hc) as [? _]. Qed.

Lemma keeps_bind {A B} (key : string) (c : M A) (k : A -> M B) :
  keeps key c -> (forall a, keeps key (k a)) -> keeps key (c ≫= k).
Proof.
  intros Hc Hk st r st' Hrun. run.
  destruct (c st) as [[a|e] st1] eqn:Hc1.
  - rewrite (Hk a _ _ _ Hrun). exact (Hc _ _ _ Hc1).
  - simplify_eq. exact (Hc _ _ _ Hc1).
Qed.

Lemma keeps_bind_post {A B} (key : string) (c : M A) (k : A -> M B)
  (Post : A -> Prop) :
  keeps key c -> (forall st a st', c st = (JS.Ok a, st') -> Post a) ->
  (forall a, Post a -> keeps key (k a)) -> keeps key (c ≫= k).
Proof.
  intros Hc Hpost Hk st r st' Hrun. run.
  destruct (c st) as [[a|e] st1] eqn:Hc1.
  - rewrite (Hk a (Hpost _ _ _ Hc1) _ _ _ Hrun). exact (Hc _ _ _ Hc1).
  - simplify_eq. exact (Hc _ _ _ Hc1).
Qed.

Lemma keeps_try_catch {A} (key : string) (c : M A) (handler : JS.exn -> M A) :
  keeps key c -> (forall e, keeps key (handler e)) -> keeps key (try_catch c handler).
Proof.
  intros Hc Hk st r st' Hrun. run.
  destruct (c st) as [[a|e] st1] eqn:Hc1.
  - simplify_eq. exact (Hc _ _ _ Hc1).
  - rewrite (Hk e _ _ _ Hrun). exact (Hc _ _ _ Hc1).
Qed.

Lemma keeps_rename (key src dst : string) :
  src <> key -> dst <> key -> keeps key (rename src dst).
Proof.
  intros Hsrc Hdst st r st' Hrun. run.
  destruct (data st !! src); run; simplify_eq; simpl; [|done].
  by rewrite lookup_insert_ne, lookup_delete_ne.
Qed.

Section WithCodec.
Context `{Codec}.
Variable w : world.

Lemma keeps_interfere (key : string) :
  (forall d, concurrent w d !! key = d !! key) -> keeps key (interfere w).
Proof.
  intros Hw st r st' Hrun. unfold interfere in Hrun. run. simplify_eq. apply Hw.
Qed.

Lemma keeps_load (file : csv) (redisPrefix key : string) :
  key <> tempKey -> key <> redisPrefix +:+ "ranges" ->
  key <> redisPrefix +:+ "ipListSize" ->
  (forall d, concurrent w d !! key = d !! key) ->
  keeps key (load w file redisPrefix).
Proof.
  intros Htemp Hlive Hsize Hw.
  unfold load. destruct file as [rows|err].
  2: { apply quiet_keeps, quiet_bind; [|intros; apply quiet_throw].
       apply quiet_if; [|apply quiet_ret]. apply quiet_swallow. by apply quiet_del. }
  apply keeps_bind.
  { apply quiet_keeps, quiet_swallow. by apply quiet_del. }
  intros _. apply keeps_try_catch.
  2: { intros e. apply quiet_keeps. by apply (quiet_cleanup key e). }
  apply keeps_bind; [apply quiet_keeps, quiet_smembers|]. intros lists.
  apply keeps_bind; [apply quiet_keeps; by apply quiet_lpush|]. intros _.
  apply (keeps_bind_post key _ _ (Forall to_tempKey)).
  { apply quiet_keeps. by apply quiet_flatten_loop. }
  { intros st p' st' Hrun. by eapply flatten_loop_queue. }
  intros pipeline Hpipeline.
  apply keeps_bind; [apply quiet_keeps; by apply quiet_exec|]. intros pipelineResults.
  apply keeps_bind.
  { apply quiet_keeps, quiet_if; [apply quiet_throw | apply quiet_ret]. }
  intros _. apply keeps_bind; [apply quiet_keeps, quiet_zcard|]. intros tempKeySize.
  apply keeps_bind.
  { apply quiet_keeps, quiet_if; [apply quiet_throw | apply quiet_ret]. }
  intros _. apply keeps_bind; [by apply keeps_rename|].
  intros _. apply keeps_bind; [by apply keeps_interfere|].
  intros _. apply keeps_bind; [apply quiet_keeps, quiet_zcard|]. intros finalKeySize.
  apply keeps_bind.
  { apply quiet_keeps, quiet_if; [apply quiet_throw | apply quiet_ret]. }
  intros _. apply keeps_bind; [|intros; apply quiet_keeps, quiet_ret].
  apply quiet_keeps, quiet_swallow. by apply quiet_del.
Qed.


(** X5.  The footprint of the loader.  Whatever its outcome, [load] leaves every
    key as it is except the temporary key, the live key and the size
    history, as long as no other client writes the key meanwhile: the cache
    entries and the update lock are not touched. *)
Theorem load_keeps_other_keys (file : csv) (redisPrefix key : string) (st : state) :
  key <> tempKey -> key <> redisPrefix +:+ "ranges" ->
  key <> redisPrefix +:+ "ipListSize" ->
  (forall d, concurrent w d !! key = d !! key) ->
  data (load w file redisPrefix st).2 !! key = data st !! key.
Proof.
  intros Htemp Hlive Hsize Hw.
  destruct (load w file redisPrefix st) as [r st'] eqn:Hrun.
  by apply (keeps_load file redisPrefix key Htemp Hlive Hsize Hw) in Hrun.
Qed.

Lemma keeps_then {A B} (key : string) (c : M A) (k : A -> M B)
  (st st1 : state) (a : A) (v : option value) :
  c st = (JS.Ok a, st1) -> data st1 !! key = v -> keeps key (k a) ->
  data ((c ≫= k) st).2 !! key = v.
Proof.
  intros Hc Hv Hk. rewrite (bind_run c k st st1 a Hc).
  destruct (k a st1) as [r st'] eqn:Hrun. simpl.
  by rewrite (Hk _ _ _ Hrun).
Qed.

Lemma try_catch_post {A} (key : string) (c : M A) (handler : JS.exn -> M A)
  (st : state) (v : option value) :
  (forall e, keeps key (handler e)) -> data (c st).2 !! key = v ->
  data (try_catch c handler st).2 !! key = v.
Proof.
  intros Hh Hc. unfold try_catch.
  destruct (c st) as [[a|e] st1] eqn:Hrun; [done|].
  destruct (handler e st1) as [r st'] eqn:Hrun'. simpl in *.
  by rewrite (Hh _ _ _ _ Hrun').
Qed.

(** X6.  The size history.  Once the CSV has been read, [load] puts one entry
    at the head of the list [<prefix>ipListSize], with the number of rows
    read and the members of [<prefix>lists]; the entry is written before the
    index is built, so it is there whether the load succeeds or fails
    afterwards. *)
Theorem load_logs_its_size_first
  (rows : list row) (redisPrefix : string) (st : state)
  (lists old : list string) :
  members_of (data st !! (redisPrefix +:+ "lists")) = Some lists ->
  items_of (data st !! (redisPrefix +:+ "ipListSize")) = Some old ->
  (forall d, concurrent w d !! (redisPrefix +:+ "ipListSize")
             = d !! (redisPrefix +:+ "ipListSize")) ->
  data (load w (Rows rows) redisPrefix st).2 !! (redisPrefix +:+ "ipListSize")
  = Some (VList (size_entry w rows lists :: old)).
Proof.
  intros Hlists Hold Hw.
  pose proof (tempKey_not_ipListSize redisPrefix) as Htemp.
  pose proof (ipListSize_not_ranges redisPrefix) as Hlive.
  pose proof (lists_not_tempKey redisPrefix) as Htemp'.
  set (sizeKey := redisPrefix +:+ "ipListSize") in *.
  unfold load.
  rewrite (bind_run _ _ st (mkState (delete tempKey (data st)) (log st ++ [DEL tempKey])) tt)
    by reflexivity.
  apply try_catch_post.
  { intros e. apply quiet_keeps. by apply (quiet_cleanup sizeKey e). }
  assert (smembers (redisPrefix +:+ "lists")
            (mkState (delete tempKey (data st)) (log st ++ [DEL tempKey]))
          = (JS.Ok lists, mkState (delete tempKey (data st))
                            ((log st ++ [DEL tempKey])
                             ++ [SMEMBERS (redisPrefix +:+ "lists")]))) as Hsm.
  { unfold smembers. run. rewrite lookup_delete_ne by done.
    destruct (data st !! (redisPrefix +:+ "lists")) as [[]|];
      simpl in Hlists; by simplify_eq. }
  rewrite (bind_run _ _ _ _ _ Hsm).
  eapply keeps_then.
  - unfold lpush. run. rewrite lookup_delete_ne by done. fold sizeKey.
    instantiate (1 := mkState (<[sizeKey := VList (size_entry w rows lists :: old)]>
                                 (delete tempKey (data st))) _).
    destruct (data st !! sizeKey) as [[]|]; simpl in Hold; simplify_eq;
      run; reflexivity.
  - simpl. apply lookup_insert_eq.
  - apply (keeps_bind_post sizeKey _ _ (Forall to_tempKey)).
    { apply quiet_keeps. by apply quiet_flatten_loop. }
    { intros st0 p' st' Hrun. by eapply flatten_loop_queue. }
    intros pipeline Hpipeline.
    apply keeps_bind; [apply quiet_keeps; by apply quiet_exec|]. intros pipelineResults.
    apply keeps_bind.
    { apply quiet_keeps, quiet_if; [apply quiet_throw | apply quiet_ret]. }
    intros _. apply keeps_bind; [apply quiet_keeps, quiet_zcard|]. intros tempKeySize.
    apply keeps_bind.
    { apply quiet_keeps, quiet_if; [apply quiet_throw | apply quiet_ret]. }
    intros _. apply keeps_bind; [by apply keeps_rename|].
    intros _. apply keeps_bind; [by apply keeps_interfere|].
    intros _. apply keeps_bind; [apply quiet_keeps, quiet_zcard|]. intros finalKeySize.
    apply keeps_bind.
    { apply quiet_keeps, quiet_if; [apply quiet_throw | apply quiet_ret]. }
    intros _. apply keeps_bind; [|intros; apply quiet_keeps, quiet_ret].
    apply quiet_keeps, quiet_swallow. by apply quiet_del.
Qed.

End WithCodec.
Lemma load_keeps_other_keys_witness :
  let st := mkState {[ "ip_lists:cache:10.0.0.1" := VString "null" (Some 172800) ]} [] in
  data (load Samples.quiet (Rows [mkRow 1 5 Samples.Ta]) "ip_lists:" st).2
    !! "ip_lists:cache:10.0.0.1"
  = data st !! "ip_lists:cache:10.0.0.1".
Proof.
  intros st.
  apply (load_keeps_other_keys Samples.quiet (Rows [mkRow 1 5 Samples.Ta])
           "ip_lists:" "ip_lists:cache:10.0.0.1" st).
  - vm_compute. discriminate.
  - vm_compute. discriminate.
  - vm_compute. discriminate.
  - intros d. reflexivity.
Defined.

Lemma load_logs_its_size_first_witness :
  data (load Samples.quiet (Rows []) "ip_lists:" Samples.empty_server).2
    !! ("ip_lists:" +:+ "ipListSize")
  = Some (VList [size_entry Samples.quiet [] []]).
Proof.
  apply (load_logs_its_size_first Samples.quiet [] "ip_lists:"
           Samples.empty_server [] []).
  - reflexivity.
  - reflexivity.
  - intros d. reflexivity.
Defined.

End LoaderFrame.

(** ** The loader succeeds *)

Module LoadRun.
Import Json Redis LoadToRedis LoaderSpec LoaderFacts IndexSpec PublishSpec
  SweepSpec PublishFacts LoaderFrameSpec LoadRunSpec LoaderFrame Tactics.

Lemma filter_replicate_false (n : nat) :
  List.filter (fun r : bool => r) (replicate n false) = [].
Proof. induction n; [done|]. simpl. exact IHn. Qed.

Lemma tempOK_zadd_data (e : Z * string) (d : gmap string value) :
  tempOK d -> tempOK (zadd_data tempKey e d).
Proof.
  unfold tempOK, zadd_data.
  destruct (d !! tempKey) as [[]|] eqn:Hd; try done; by rewrite lookup_insert_eq.
Qed.

Lemma tempOK_publish (es : list (Z * string)) (d : gmap string value) :
  tempOK d -> tempOK (publish es d).
Proof.
  revert d. induction es as [|e es IH]; intros d Hd; [done|].
  simpl. apply IH. by apply tempOK_zadd_data.
Qed.

Section WithCodec.
Context `{Codec}.
Variable w : world.
Hypothesis writes_succeed : forall k, zadd_fails w k = false.

(** With the temporary key absent or a sorted set, every queued write is
    accepted. *)
Lemma exec_runs (pipeline : list queued) :
  Forall to_tempKey pipeline ->
  forall st, tempOK (data st) ->
    exists st',
      exec w pipeline st = (JS.Ok (replicate (length pipeline) false), st')
      /\ data st' = publish (List.map queued_entry pipeline) (data st).
Proof.
  induction 1 as [|[[[k key] score] mem] rest Hq Hall IH]; intros st Hok.
  - exists st. done.
  - unfold to_tempKey in Hq. simpl in Hq. subst key.
    simpl. rewrite writes_succeed. run.
    unfold queued_entry at 1. simpl. unfold zadd_data at 1.
    unfold tempOK in Hok.
    destruct (data st !! tempKey) as [[]|] eqn:Htemp; try done; run;
      match goal with
      | |- context [exec w rest ?st1] =>
          destruct (IH st1) as (st' & -> & Hdata)
      end;
      simpl in *; eauto; unfold tempOK; simpl; by rewrite lookup_insert_eq.
Qed.

(** The flattening loop runs to its end when every tag list it meets can be
    grouped. *)
Lemma flatten_loop_runs (scratch : list event) :
  forall k s pipeline st es,
    Forall to_tempKey pipeline -> tempOK (data st) ->
    index_of (sweep s scratch) = JS.Ok es ->
    exists p' st',
      flatten_loop w k scratch s pipeline st = (JS.Ok p', st')
      /\ tempOK (data st').
Proof.
  induction scratch as [|cur rest IH]; intros k s pipeline st es Hall Hok Hidx.
  - exists pipeline, st. done.
  - destruct rest as [|nex rest'].
    { exists pipeline, st. done. }
    change (flatten_loop w k (cur :: nex :: rest') s pipeline) with
      (pipeline ← (if k mod batchSize =? 0
                   then _ ← exec w pipeline; mret []
                   else mret pipeline);
       let '(s, n, m) := advance s cur nex in
       if emits s n m then
         let s := JS.SetSpread s in
         data ← Redis.lift (group [] s);
         flatten_loop w (k + 1) (nex :: rest') s
           (pipeline ++ [(k, tempKey, m, member n m (payload data))])
       else flatten_loop w (k + 1) (nex :: rest') s pipeline).
    rewrite SweepFacts.sweep_cons2 in Hidx.
    destruct (advance s cur nex) as [[s1 n] m].
    assert (exists p1 st1,
              (if k mod batchSize =? 0
               then _ ← exec w pipeline; mret []
               else mret pipeline) st = (JS.Ok p1, st1)
              /\ Forall to_tempKey p1 /\ tempOK (data st1))
      as (p1 & st1 & Hfirst & Hp1 & Hok1).
    { destruct (k mod batchSize =? 0).
      - destruct (exec_runs pipeline Hall st Hok) as (st1 & Hexec & Hdata).
        exists [], st1. rewrite (bind_run _ _ _ _ _ Hexec).
        split; [done|]. split; [constructor|]. rewrite Hdata.
        by apply tempOK_publish.
      - exists pipeline, st. done. }
    rewrite (bind_run _ _ _ _ _ Hfirst).
    destruct (emits s1 n m).
    + remember (sweep (JS.SetSpread s1) (nex :: rest')) as recs eqn:Hrecs.
      change (index_of ((n, m, JS.SetSpread s1) :: recs))
        with (e ← entry (n, m, JS.SetSpread s1);
              es ← index_of recs;
              mret (e :: es)) in Hidx.
      unfold entry in Hidx. simpl in Hidx.
      destruct (group [] (JS.SetSpread s1)) as [data|] eqn:Hgroup; [|done].
      simpl in Hidx.
      destruct (index_of recs) as [es'|] eqn:Hes; [|done].
      simpl. rewrite Hgroup.
      rewrite (bind_run (lift (JS.Ok data)) _ st1 st1 data) by reflexivity.
      subst recs.
      eapply IH; [|done|exact Hes].
      apply Forall_app. split; [done|]. by constructor.
    + eapply IH; [done|done|exact Hidx].
Qed.

Hypothesis no_interference : forall d, concurrent w d = d.

Lemma try_catch_run {A} (c : M A) (handler : JS.exn -> M A)
  (st : state) (a : A) (P : state -> Prop) :
  (exists st', c st = (JS.Ok a, st') /\ P st') ->
  exists st', try_catch c handler st = (JS.Ok a, st') /\ P st'.
Proof.
  intros (st' & Hc & HP). exists st'. split; [|done].
  unfold try_catch. by rewrite Hc.
Qed.

Lemma load_runs
  (rows : list row) (redisPrefix : string) (st : state)
  (idx : list (Z * string)) (lists old : list string) :
  Forall (fun r => 0 <= start_int r /\ 0 <= end_int r) rows ->
  index_of (flatten rows) = JS.Ok idx -> idx <> [] ->
  members_of (data st !! (redisPrefix +:+ "lists")) = Some lists ->
  items_of (data st !! (redisPrefix +:+ "ipListSize")) = Some old ->
  exists st',
    load w (Rows rows) redisPrefix st = (JS.Ok tt, st')
    /\ data st' !! (redisPrefix +:+ "ranges") = Some (VZSet idx)
    /\ data st' !! tempKey = None.
Proof.
  intros Hrows Hidx Hne Hlists Hold.
  pose proof (tempKey_not_ipListSize redisPrefix) as Htemp.
  pose proof (tempKey_not_ranges redisPrefix) as Hlive.
  pose proof (lists_not_tempKey redisPrefix) as Htemp'.
  unfold load.
  set (sizeKey := redisPrefix +:+ "ipListSize") in *.
  set (live := redisPrefix +:+ "ranges") in *.
  rewrite (bind_run _ _ st (mkState (delete tempKey (data st)) (log st ++ [DEL tempKey])) tt)
    by reflexivity.
  apply (try_catch_run _ _ _ tt
           (fun st' => data st' !! live = Some (VZSet idx) /\ data st' !! tempKey = None)).
  assert (smembers (redisPrefix +:+ "lists")
            (mkState (delete tempKey (data st)) (log st ++ [DEL tempKey]))
          = (JS.Ok lists, mkState (delete tempKey (data st))
                            ((log st ++ [DEL tempKey])
                             ++ [SMEMBERS (redisPrefix +:+ "lists")]))) as Hsm.
  { unfold smembers. run. rewrite lookup_delete_ne by done.
    destruct (data st !! (redisPrefix +:+ "lists")) as [[]|];
      simpl in Hlists; by simplify_eq. }
  rewrite (bind_run _ _ _ _ _ Hsm).
  match goal with
  | |- context [lpush sizeKey ?v ≫= _] =>
      assert (exists st3, lpush sizeKey v
                (mkState (delete tempKey (data st))
                   ((log st ++ [DEL tempKey]) ++ [SMEMBERS (redisPrefix +:+ "lists")]))
              = (JS.Ok tt, st3) /\ data st3 !! tempKey = None)
        as (st3 & Hlp & Htemp3)
  end.
  { unfold lpush. run. rewrite lookup_delete_ne by done.
    destruct (data st !! sizeKey) as [[]|]; simpl in Hold; simplify_eq; run;
      (eexists; split; [reflexivity|]); simpl;
      rewrite lookup_insert_ne by done; apply lookup_delete_eq. }
  rewrite (bind_run _ _ _ _ _ Hlp).
  assert (tempOK (data st3)) as Hok3 by (unfold tempOK; by rewrite Htemp3).
  destruct (flatten_loop_runs (sort (events rows)) 0 [] [] st3 idx
              (Forall_nil_2 _) Hok3 Hidx) as (pipeline & st4 & Hloop & Hok4).
  rewrite (bind_run _ _ _ _ _ Hloop).
  pose proof (flatten_loop_queue w _ _ _ _ _ _ _ (Forall_nil_2 _) Hloop) as Hqueue.
  destruct (flatten_loop_effect w writes_succeed _ _ _ _ _ _ _ (Forall_nil_2 _) Hloop)
    as (es & Hes & Hpub).
  assert (es = idx) as -> by (unfold flatten in Hidx; congruence).
  destruct (exec_runs pipeline Hqueue st4 Hok4) as (st5 & Hexec & Hd5).
  rewrite (bind_run _ _ _ _ _ Hexec).
  rewrite filter_replicate_false. simpl length.
  change (0 <? Z.of_nat 0) with false. cbv iota.
  rewrite (bind_run (mret tt) _ st5 st5 tt) by reflexivity.
  assert (zadd_all idx [] = idx) as Hz.
  { rewrite (IndexFacts.zadd_all_above idx 0 []); [done|lia| |constructor].
    eapply IndexFacts.index_of_entries_above; [|exact Hidx].
    by apply SweepFacts.flatten_ascending. }
  assert (data st5 !! tempKey = Some (VZSet idx)) as Htemp5.
  { rewrite Hd5, Hpub. simpl. rewrite publish_tempKey by done.
    rewrite Hz. by destruct idx. }
  assert (zcard tempKey st5
          = (JS.Ok (Z.of_nat (length idx)),
             mkState (data st5) (log st5 ++ [ZCARD tempKey]))) as Hcard.
  { unfold zcard. run. by rewrite Htemp5. }
  rewrite (bind_run _ _ _ _ _ Hcard).
  assert ((Z.of_nat (length idx) =? 0) = false) as ->.
  { apply Z.eqb_neq. destruct idx; [done|]. simpl. lia. }
  rewrite (bind_run (mret tt) _ _ _ tt) by reflexivity.
  assert (rename tempKey live (mkState (data st5) (log st5 ++ [ZCARD tempKey]))
          = (JS.Ok tt, mkState (<[live := VZSet idx]> (delete tempKey (data st5)))
                         ((log st5 ++ [ZCARD tempKey]) ++ [RENAME tempKey live])))
    as Hren.
  { unfold rename. run. by rewrite Htemp5. }
  rewrite (bind_run _ _ _ _ _ Hren).
  assert (interfere w (mkState (<[live := VZSet idx]> (delete tempKey (data st5)))
                         ((log st5 ++ [ZCARD tempKey]) ++ [RENAME tempKey live]))
          = (JS.Ok tt, mkState (<[live := VZSet idx]> (delete tempKey (data st5)))
                         ((log st5 ++ [ZCARD tempKey]) ++ [RENAME tempKey live])))
    as Hint.
  { unfold interfere. run. by rewrite no_interference. }
  rewrite (bind_run _ _ _ _ _ Hint).
  match goal with
  | |- context [zcard live ≫= _] =>
      rewrite (bind_run (zcard live) _ _
                 (mkState (<[live := VZSet idx]> (delete tempKey (data st5)))
                    (((log st5 ++ [ZCARD tempKey]) ++ [RENAME tempKey live])
                     ++ [ZCARD live]))
                 (Z.of_nat (length idx)))
        by (unfold zcard; run; by rewrite lookup_insert_eq)
  end.
  rewrite Z.eqb_refl. simpl negb. cbv iota.
  rewrite (bind_run (mret tt) _ _ _ tt) by reflexivity.
  eexists. split; [reflexivity|]. simpl. split.
  - rewrite lookup_delete_ne by done. apply lookup_insert_eq.
  - apply lookup_delete_eq.
Qed.

(** X1.  The loader succeeds.  When the rows have non-negative bounds, every tag
    list of the flattened records can be grouped, there is at least one
    record, the two metadata keys hold values of their kinds, the server
    refuses no write and no other client writes meanwhile, [load] returns
    without an error; the live key then holds one member for each flattened
    record, at the score of its end and in ascending order, and the
    temporary key is gone. *)
Theorem load_succeeds_and_publishes
  (rows : list row) (redisPrefix : string) (st : state)
  (idx : list (Z * string)) (lists old : list string) :
  Forall (fun r => 0 <= start_int r /\ 0 <= end_int r) rows ->
  index_of (flatten rows) = JS.Ok idx -> idx <> [] ->
  members_of (data st !! (redisPrefix +:+ "lists")) = Some lists ->
  items_of (data st !! (redisPrefix +:+ "ipListSize")) = Some old ->
  let out := load w (Rows rows) redisPrefix st in
  out.1 = JS.Ok tt
  /\ data out.2 !! (redisPrefix +:+ "ranges") = Some (VZSet idx)
  /\ data out.2 !! tempKey = None.
Proof.
  intros Hrows Hidx Hne Hlists Hold.
  destruct (load_runs rows redisPrefix st idx lists old Hrows Hidx Hne Hlists Hold)
    as (st' & Hrun & Hlive & Htemp).
  cbv zeta. by rewrite Hrun.
Qed.

End WithCodec.
Lemma load_succeeds_and_publishes_witness :
  let out := load Samples.quiet (Rows [mkRow 1 5 Samples.Ta]) "ip_lists:"
               Samples.previous in
  out.1 = JS.Ok tt
  /\ data out.2 !! ("ip_lists:" +:+ "ranges") = Some (VZSet [(5, Samples.old_member)])
  /\ data out.2 !! tempKey = None.
Proof.
  apply (load_succeeds_and_publishes Samples.quiet (fun _ => eq_refl)
           (fun _ => eq_refl) [mkRow 1 5 Samples.Ta] "ip_lists:" Samples.previous
           [(5, Samples.old_member)] [] []).
  - apply Forall_cons_2; [simpl; lia|apply Forall_nil_2].
  - vm_compute. reflexivity.
  - discriminate.
  - reflexivity.
  - reflexivity.
Defined.

End LoadRun.

(** ** Taking, refusing and releasing the update lock *)

Module LockFacts.
Import Redis UpdateLock LockQueries LockSpec Tactics.

Lemma truthy_nonempty (v : string) : JS.truthy v = true <-> v <> EmptyString.
Proof. destruct v; simpl; split; done. Qed.

Lemma isLockStale_string (h : host) (lockKey v : string) (ttl : option Z) (st : state) :
  data st !! lockKey = Some (VString v ttl) ->
  isLockStale h lockKey st
  = (JS.Ok (stale h v), mkState (data st) (log st ++ [GET lockKey])).
Proof.
  intros Hkey. unfold isLockStale, stale. run. rewrite Hkey. run.
  destruct v as [|c v]; simpl; [done|].
  fold (JS.trim (String c v)).
  assert (length (JS.split "-" (JS.trim (String c v))) <> 0%nat) as Hlen.
  { destruct (JS.trim (String c v)) as [|c' v']; simpl; [done|].
    destruct (Ascii.eqb c' "-"); [done|]. by destruct (JS.split "-" v'). }
  destruct (length (JS.split "-" (JS.trim (String c v)))) as [|n] eqn:Hl; [done|].
  simpl. fold (holder (String c v)).
  destruct (holder (String c v)) as [p|] eqn:Hp; simpl; [|done].
  destruct (Z.eqb_spec p (pid h)) as [->|Hne]; simpl; done.
Qed.

Lemma isLockStale_other (h : host) (lockKey : string) (st : state) :
  (forall v ttl, data st !! lockKey <> Some (VString v ttl)) ->
  isLockStale h lockKey st
  = (JS.Ok false, mkState (data st) (log st ++ [GET lockKey])).
Proof.
  intros Hkey. unfold isLockStale. run.
  destruct (data st !! lockKey) as [[v ttl| | |]|]; run; try done.
  by destruct (Hkey v ttl).
Qed.

Lemma acquireLock_spec
  (h : host) (lockKey : string) (ttlSeconds : Z) (st : state) :
  let out := acquireLock h lockKey ttlSeconds st in
  match data st !! lockKey with
  | Some (VZSet _) | Some (VList _) | Some (VSet _) =>
      out.1 = JS.Throw WRONGTYPE /\ data out.2 = data st
  | o =>
      out.1 = JS.Ok (free h o) /\
      data out.2 = if free h o
                   then <[lockKey := VString (own_value h) (Some ttlSeconds)]> (data st)
                   else data st
  end.
Proof.
  unfold acquireLock. run.
  destruct (data st !! lockKey) as [[v ttl| | |]|] eqn:Hkey; run; try done.
  - destruct v as [|c v]; run.
    { rewrite Hkey. done. }
    rewrite (isLockStale_string h lockKey (String c v) ttl
               (mkState (data st) (log st ++ [GET lockKey])) Hkey).
    simpl. destruct (stale h (String c v)) eqn:Hstale; run; [|done].
    rewrite lookup_delete_eq. run. split; [done|].
    fold (own_value h). apply insert_delete_eq.
  - rewrite Hkey. done.
Qed.

Lemma acquireLock_true (h : host) (lockKey : string) (ttlSeconds : Z) (st : state) :
  (acquireLock h lockKey ttlSeconds st).1 = JS.Ok true ->
  free h (data st !! lockKey) = true /\
  data (acquireLock h lockKey ttlSeconds st).2
  = <[lockKey := VString (own_value h) (Some ttlSeconds)]> (data st).
Proof.
  intros Hacq. pose proof (acquireLock_spec h lockKey ttlSeconds st) as Hspec.
  simpl in Hspec.
  assert (forall b : bool, JS.Ok b = JS.Ok true -> b = true) as Hinj
    by (by intros ? [= ->]).
  destruct (data st !! lockKey) as [[v ttl| | |]|];
    destruct Hspec as [Hr Hd]; rewrite Hr in Hacq; try discriminate;
    apply Hinj in Hacq; rewrite Hd; rewrite ?Hacq; done.
Qed.

(** X7.  [acquireLock] takes the lock exactly when the key is absent or holds a
    stale value; the key then holds the caller's value with the time to live
    asked for.  In every other case the keyspace is as it was: the answer is
    [false], or, on a key that holds no string, the error of [GET]. *)
Theorem acquireLock_takes_free_or_stale_lock
  (h : host) (lockKey : string) (ttlSeconds : Z) (st : state) :
  let out := acquireLock h lockKey ttlSeconds st in
  (out.1 = JS.Ok true <-> free h (data st !! lockKey) = true) /\
  (out.1 = JS.Ok true ->
     data out.2 = <[lockKey := VString (own_value h) (Some ttlSeconds)]> (data st)) /\
  (out.1 <> JS.Ok true -> data out.2 = data st) /\
  (out.1 = JS.Ok true \/ out.1 = JS.Ok false \/ out.1 = JS.Throw WRONGTYPE) /\
  (out.1 = JS.Throw WRONGTYPE <->
     is_Some (data st !! lockKey) /\
     forall v ttl, data st !! lockKey <> Some (VString v ttl)).
Proof.
  pose proof (acquireLock_spec h lockKey ttlSeconds st) as Hspec. simpl in *.
  destruct (data st !! lockKey) as [[v ttl| | |]|] eqn:Hkey;
    destruct Hspec as [Hr Hd]; rewrite Hr, Hd; simpl;
    try destruct (stale h v); naive_solver.
Qed.

Lemma holder_own_value (h : host) : 0 <= pid h -> holder (own_value h) = Some (pid h).
Proof.
  intros Hpid. unfold holder, own_value.
  rewrite UpdateLockFacts.own_value_first_field by done. simpl.
  by apply TextFacts.parseInt10_Number_toString.
Qed.

Lemma own_value_not_empty (h : host) : own_value h <> EmptyString.
Proof.
  unfold own_value. pose proof (TextFacts.Number_toString_not_empty (pid h)).
  by destruct (JS.Number_toString (pid h)).
Qed.

Lemma trim_own_value (h : host) :
  0 <= pid h -> 0 <= Date_now h -> JS.trim (own_value h) = own_value h.
Proof.
  intros Hpid Hnow. unfold own_value, JS.trim.
  pose proof (TextFacts.Number_toString_decimal _ Hpid) as Hdec.
  pose proof (TextFacts.Number_toString_decimal _ Hnow) as Hdec'.
  assert (JS.trimStart (JS.Number_toString (pid h) +:+ "-" +:+ JS.Number_toString (Date_now h))
          = JS.Number_toString (pid h) +:+ "-" +:+ JS.Number_toString (Date_now h)) as ->.
  { pose proof (TextFacts.Number_toString_not_empty (pid h)) as Hne.
    destruct (JS.Number_toString (pid h)) as [|c s]; [done|].
    apply TextFacts.decimal_cons in Hdec as [Hc _].
    apply (TextFacts.trimStart_decimal c _ Hc). }
  rewrite TextFacts.trimEnd_decimal by done.
  change ("-" +:+ JS.Number_toString (Date_now h))
    with (String "-" (JS.Number_toString (Date_now h))).
  rewrite TextFacts.trimEnd_cons by reflexivity.
  rewrite <- (TextFacts.string_app_empty (JS.Number_toString (Date_now h))) at 1.
  rewrite TextFacts.trimEnd_decimal by done. simpl.
  by rewrite TextFacts.string_app_empty.
Qed.

(** X8.  Mutual exclusion.  Once a process has taken the lock, [acquireLock] by
    a process that has the same pid, or on whose host the holder's pid is
    running, answers [false] and leaves the lock as it is. *)
Theorem held_lock_is_refused
  (h1 h2 : host) (lockKey : string) (ttl1 ttl2 : Z) (st : state) :
  0 <= pid h1 ->
  pid h2 = pid h1 \/ isProcessRunning h2 (pid h1) = true ->
  (acquireLock h1 lockKey ttl1 st).1 = JS.Ok true ->
  let st1 := (acquireLock h1 lockKey ttl1 st).2 in
  (acquireLock h2 lockKey ttl2 st1).1 = JS.Ok false /\
  data (acquireLock h2 lockKey ttl2 st1).2 = data st1 /\
  data st1 !! lockKey = Some (VString (own_value h1) (Some ttl1)).
Proof.
  intros Hpid Hsees Hacq st1.
  assert (data st1 !! lockKey = Some (VString (own_value h1) (Some ttl1))) as Hkey.
  { unfold st1. apply acquireLock_true in Hacq as [_ ->]. apply lookup_insert_eq. }
  pose proof (acquireLock_spec h2 lockKey ttl2 st1) as Hspec.
  simpl in Hspec. rewrite Hkey in Hspec.
  assert (stale h2 (own_value h1) = false) as Hstale.
  { unfold stale. rewrite holder_own_value by done.
    destruct Hsees as [->| ->]; [rewrite Z.eqb_refl|]; simpl;
      by rewrite ?andb_false_r. }
  simpl in Hspec. rewrite Hstale in Hspec. naive_solver.
Qed.

(** X9.  The lock round trip of [main].  After [acquireLock] has answered
    [true], [getLockValue] gives the value stored, and [releaseLock] with
    that value answers [true] and leaves no lock. *)
Theorem acquired_lock_is_released
  (h : host) (lockKey : string) (ttlSeconds : Z) (st : state) :
  0 <= pid h -> 0 <= Date_now h ->
  (acquireLock h lockKey ttlSeconds st).1 = JS.Ok true ->
  let st1 := (acquireLock h lockKey ttlSeconds st).2 in
  let got := getLockValue lockKey st1 in
  let released := releaseLock lockKey (Some (own_value h)) got.2 in
  got.1 = JS.Ok (Some (own_value h)) /\
  data got.2 = data st1 /\
  released.1 = JS.Ok true /\
  data released.2 !! lockKey = None /\
  (forall key, key <> lockKey -> data released.2 !! key = data st !! key).
Proof.
  intros Hpid Hnow Hacq st1 got released.
  apply acquireLock_true in Hacq as [_ Hd1]. fold st1 in Hd1.
  assert (data st1 !! lockKey = Some (VString (own_value h) (Some ttlSeconds))) as Hkey.
  { rewrite Hd1. apply lookup_insert_eq. }
  pose proof (own_value_not_empty h) as Hne.
  assert (got = (JS.Ok (Some (own_value h)),
                 mkState (data st1) (log st1 ++ [GET lockKey]))) as Hgot.
  { unfold got, getLockValue. run. rewrite Hkey. run.
    rewrite (proj2 (truthy_nonempty _) Hne). by rewrite trim_own_value. }
  unfold released. rewrite Hgot. simpl. split; [done|]. split; [done|].
  unfold releaseLock, compare_and_delete. run.
  rewrite (proj2 (truthy_nonempty _) Hne). run.
  rewrite trim_own_value by done. rewrite Hkey. run.
  rewrite bool_decide_eq_true_2 by done. run.
  split; [done|]. split; [apply lookup_delete_eq|].
  intros key Hne'. rewrite lookup_delete_ne by done.
  rewrite Hd1. by rewrite lookup_insert_ne.
Qed.

(** X10.  [cleanupStaleLock] deletes the lock and answers [true] exactly when the
    key holds a stale value; otherwise it answers [false] and the keyspace
    is as it was.  It never throws. *)
Theorem cleanupStaleLock_removes_only_stale_locks
  (h : host) (lockKey : string) (st : state) :
  let out := cleanupStaleLock h lockKey st in
  let found := match data st !! lockKey with
               | Some (VString v _) => stale h v
               | _ => false
               end in
  out.1 = JS.Ok found /\
  data out.2 = if found then delete lockKey (data st) else data st.
Proof.
  unfold cleanupStaleLock.
  destruct (data st !! lockKey) as [[v ttl| | |]|] eqn:Hkey.
  - unfold try_catch, mbind, M_bind.
    rewrite (isLockStale_string h lockKey v ttl st Hkey).
    destruct (stale h v); run; done.
  - unfold try_catch, mbind, M_bind. rewrite isLockStale_other by congruence. done.
  - unfold try_catch, mbind, M_bind. rewrite isLockStale_other by congruence. done.
  - unfold try_catch, mbind, M_bind. rewrite isLockStale_other by congruence. done.
  - unfold try_catch, mbind, M_bind. rewrite isLockStale_other by congruence. done.
Qed.

Lemma held_lock_is_refused_witness :
  let st1 := (acquireLock Samples.sample_host "ip_lists:update_lock" 3600
                Samples.empty_server).2 in
  (acquireLock Samples.other_host "ip_lists:update_lock" 3600 st1).1 = JS.Ok false /\
  data (acquireLock Samples.other_host "ip_lists:update_lock" 3600 st1).2 = data st1 /\
  data st1 !! "ip_lists:update_lock"
  = Some (VString (own_value Samples.sample_host) (Some 3600)).
Proof.
  apply (held_lock_is_refused Samples.sample_host Samples.other_host
           "ip_lists:update_lock" 3600 3600 Samples.empty_server).
  - vm_compute. discriminate.
  - right. reflexivity.
  - vm_compute. reflexivity.
Defined.

Lemma acquired_lock_is_released_witness :
  let st1 := (acquireLock Samples.sample_host "ip_lists:update_lock" 3600
                Samples.empty_server).2 in
  let got := getLockValue "ip_lists:update_lock" st1 in
  let released := releaseLock "ip_lists:update_lock"
                    (Some (own_value Samples.sample_host)) got.2 in
  got.1 = JS.Ok (Some (own_value Samples.sample_host)) /\
  data got.2 = data st1 /\
  released.1 = JS.Ok true /\
  data released.2 !! "ip_lists:update_lock" = None /\
  (forall key, key <> "ip_lists:update_lock" ->
     data released.2 !! key = data Samples.empty_server !! key).
Proof.
  apply (acquired_lock_is_released Samples.sample_host
           "ip_lists:update_lock" 3600 Samples.empty_server).
  - vm_compute. discriminate.
  - vm_compute. discriminate.
  - vm_compute. reflexivity.
Defined.

End LockFacts.

(** ** The cache round trip and the footprint of a lookup *)

Module CacheRoundTrip.
Import Json Redis Serve CacheSpec ReadBackSpec Tactics.

Section WithInterfaces.
Context `{Codec} `{IpUtils}.

Lemma lookupIP_hit (w : world) (redisPrefix ip : string) (includeDroneBL : bool)
  (st : state) (c : string) (ttl : option Z) (r : json) :
  isValidIpv4 ip = true ->
  data st !! cacheKey redisPrefix ip includeDroneBL = Some (VString c ttl) ->
  (if bool_decide (c = "null") then Some NotFound else JSON_parse c) = Some r ->
  lookupIP w redisPrefix ip includeDroneBL st
  = (JS.Ok r, mkState (data st)
                (log st ++ [GET (cacheKey redisPrefix ip includeDroneBL)])).
Proof.
  intros Hvalid Hkey Hc. unfold lookupIP.
  fold (cacheKey redisPrefix ip includeDroneBL).
  rewrite Hvalid. run. rewrite Hkey. run. rewrite Hc. done.
Qed.

(** X11.  A cached entry that parses is the answer: one [GET] is sent, the index
    is not read and nothing is written, whatever the index and the DroneBL
    resolver hold by then. *)
Theorem cached_entry_answers_without_index
  (w : world) (redisPrefix ip : string) (includeDroneBL : bool)
  (st : state) (c : string) (ttl : option Z) (r : json) :
  isValidIpv4 ip = true ->
  data st !! cacheKey redisPrefix ip includeDroneBL = Some (VString c ttl) ->
  c <> "null" -> JSON_parse c = Some r ->
  lookupIP w redisPrefix ip includeDroneBL st
  = (JS.Ok r, mkState (data st)
                (log st ++ [GET (cacheKey redisPrefix ip includeDroneBL)])).
Proof.
  intros Hvalid Hkey Hnull Hparse. eapply lookupIP_hit; [done..|].
  by rewrite bool_decide_eq_false_2.
Qed.

(** X12.  The cache round trip.  When a lookup that missed the cache has answered
    [r] and its cache write went through, the next lookup of the address
    answers [r] again after a single [GET], whatever has become of the index
    and of the resolver. *)
Theorem second_lookup_is_served_from_cache
  (w w' : world) (redisPrefix ip : string) (includeDroneBL : bool)
  (st : state) (r : json) :
  isValidIpv4 ip = true ->
  miss (cacheKey redisPrefix ip includeDroneBL) (data st) ->
  cache_write_fails w = false ->
  (lookupIP w redisPrefix ip includeDroneBL st).1 = JS.Ok r ->
  reads_back r ->
  let st1 := (lookupIP w redisPrefix ip includeDroneBL st).2 in
  forall st2, data st2 !! cacheKey redisPrefix ip includeDroneBL
              = data st1 !! cacheKey redisPrefix ip includeDroneBL ->
  lookupIP w' redisPrefix ip includeDroneBL st2
  = (JS.Ok r, mkState (data st2)
                (log st2 ++ [GET (cacheKey redisPrefix ip includeDroneBL)])).
Proof.
  intros Hvalid Hmiss Hw Hout Hback st1 st2 Hsame.
  destruct (CacheFacts.lookupIP_miss w redisPrefix ip includeDroneBL st Hvalid Hmiss)
    as (_ & _ & Hdata).
  specialize (Hdata r Hout). rewrite Hw in Hdata.
  assert (data st2 !! cacheKey redisPrefix ip includeDroneBL
          = Some (VString (cacheValue r) (Some 172800))) as Hkey.
  { rewrite Hsame. unfold st1. rewrite Hdata. apply lookup_insert_eq. }
  eapply lookupIP_hit; [done..|].
  destruct Hback as [->|[Hne Hparse]]; [done|].
  destruct r; try done; simpl; by rewrite bool_decide_eq_false_2.
Qed.

(** X13.  The footprint of a lookup.  [lookupIP] changes no key other than the
    cache entry of the address; a lookup that throws has written nothing;
    and for a string that is no IPv4 address the answer is [false] and the
    server is not contacted. *)
Theorem lookupIP_writes_only_its_cache_entry
  (w : world) (redisPrefix ip : string) (includeDroneBL : bool) (st : state) :
  let out := lookupIP w redisPrefix ip includeDroneBL st in
  (forall key, key <> cacheKey redisPrefix ip includeDroneBL ->
     data out.2 !! key = data st !! key) /\
  (forall e, out.1 = JS.Throw e -> data out.2 = data st) /\
  (isValidIpv4 ip = false -> out = (JS.Ok Invalid, st)).
Proof.
  unfold lookupIP. fold (cacheKey redisPrefix ip includeDroneBL).
  destruct (isValidIpv4 ip); simpl; [|done].
  split; [|split; [|done]].
  - intros key Hkey. run.
    repeat (case_match; run; simplify_eq; try done);
      by rewrite lookup_insert_ne.
  - intros e. run.
    repeat (case_match; run; simplify_eq; try done).
Qed.

End WithInterfaces.
Lemma cached_entry_answers_without_index_witness :
  let r := JObj [("list", JArr [])] in
  let st := mkState {[ "ip_lists:cache:10.0.0.1"
                       := VString (Reference.stringify r) (Some 172800) ]} [] in
  lookupIP Samples.silent "ip_lists:" "10.0.0.1" false st
  = (JS.Ok r, mkState (data st)
                (log st ++ [GET (cacheKey "ip_lists:" "10.0.0.1" false)])).
Proof.
  intros r st.
  apply (cached_entry_answers_without_index Samples.silent
           "ip_lists:" "10.0.0.1" false st (Reference.stringify r) (Some 172800) r).
  - reflexivity.
  - reflexivity.
  - vm_compute. discriminate.
  - vm_compute. reflexivity.
Defined.

Lemma second_lookup_is_served_from_cache_witness :
  let r := JObj [("list", JArr [JObj [("name", JStr "a")]])] in
  let st1 := (lookupIP Samples.silent "ip_lists:" "0.0.0.3" false Samples.serving).2 in
  lookupIP Samples.silent "ip_lists:" "0.0.0.3" false st1
  = (JS.Ok r, mkState (data st1)
                (log st1 ++ [GET (cacheKey "ip_lists:" "0.0.0.3" false)])).
Proof.
  intros r st1.
  apply (second_lookup_is_served_from_cache Samples.silent Samples.silent
           "ip_lists:" "0.0.0.3" false Samples.serving r).
  - reflexivity.
  - left. reflexivity.
  - reflexivity.
  - vm_compute. reflexivity.
  - right. split; [vm_compute; discriminate|vm_compute; reflexivity].
  - reflexivity.
Defined.

End CacheRoundTrip.

(** ** The DroneBL query *)

Module DroneBLFacts.
Import Serve DroneBL DroneBLSpec TextSpec.

Lemma split_decimal_alone (sep : ascii) (d : string) :
  decimal d -> ~ (48 <= Z.of_nat (nat_of_ascii sep) <= 57) ->
  JS.split sep d = [d].
Proof.
  intros Hd Hsep. induction d as [|c d IH]; [done|].
  apply TextFacts.decimal_cons in Hd as [Hc Hd]. simpl.
  rewrite (TextFacts.isDecimal_neq c sep Hc Hsep). by rewrite (IH Hd).
Qed.

Lemma split_dotted (a b c d : Z) :
  0 <= a -> 0 <= b -> 0 <= c -> 0 <= d ->
  JS.split "." (dotted a b c d)
  = [JS.Number_toString a; JS.Number_toString b; JS.Number_toString c;
     JS.Number_toString d].
Proof.
  intros Ha Hb Hc Hd. unfold dotted.
  assert (forall x, "." +:+ x = String "." x) as Hdot by reflexivity.
  assert (~ (48 <= Z.of_nat (nat_of_ascii ".") <= 57)) as Hsep
    by (vm_compute; intros [? ?]; auto).
  rewrite !Hdot.
  rewrite !TextFacts.split_decimal by (by apply TextFacts.Number_toString_decimal || done).
  rewrite split_decimal_alone by (by apply TextFacts.Number_toString_decimal || done).
  done.
Qed.

Section WithResolver.
Context `{IpUtils}.
Variable resolve4 : string -> JS.result (list string).

(** X21.  The DroneBL query.  For a valid address [a.b.c.d] the resolver is asked
    for [d.c.b.a.dnsbl.dronebl.org]; when its first answer ends in the
    octet [k], the listing is [{name: dronebl_type_k, source: dronebl,
    type: k}]; when it gives no address, or fails in whatever way, the
    answer is [null]. *)
Theorem lookupDroneBL_asks_reversed_name
  (a b c d : Z) (x y z k : Z) (more : list string) (e : JS.exn) :
  0 <= a -> 0 <= b -> 0 <= c -> 0 <= d ->
  0 <= x -> 0 <= y -> 0 <= z -> 0 <= k ->
  isValidIpv4 (dotted a b c d) = true ->
  dnsblHostname (dotted a b c d) = dotted d c b a +:+ ".dnsbl.dronebl.org" /\
  (resolve4 (dotted d c b a +:+ ".dnsbl.dronebl.org") = JS.Ok (dotted x y z k :: more) ->
   lookupDroneBL resolve4 (dotted a b c d)
   = Some (mkListing ("dronebl_type_" +:+ JS.Number_toString k) "dronebl" (Some k))) /\
  (resolve4 (dotted d c b a +:+ ".dnsbl.dronebl.org") = JS.Ok [] ->
   lookupDroneBL resolve4 (dotted a b c d) = None) /\
  (resolve4 (dotted d c b a +:+ ".dnsbl.dronebl.org") = JS.Throw e ->
   lookupDroneBL resolve4 (dotted a b c d) = None).
Proof.
  intros Ha Hb Hc Hd Hx Hy Hz Hk Hvalid.
  assert (dnsblHostname (dotted a b c d) = dotted d c b a +:+ ".dnsbl.dronebl.org")
    as Hname.
  { unfold dnsblHostname. rewrite split_dotted by done. reflexivity. }
  split; [done|]. unfold lookupDroneBL. rewrite Hvalid, Hname. simpl negb. cbv iota.
  split; [|split]; intros ->; [|done..].
  rewrite split_dotted by done. simpl last. simpl default.
  by rewrite TextFacts.parseInt10_Number_toString.
Qed.

End WithResolver.

Lemma lookupDroneBL_asks_reversed_name_witness :
  let resolve4 := fun host : string =>
    if bool_decide (host = "99.255.46.193.dnsbl.dronebl.org")
    then JS.Ok ["127.0.0.3"] else JS.Throw (JS.Error "ENOTFOUND") in
  dnsblHostname (dotted 193 46 255 99) = dotted 99 255 46 193 +:+ ".dnsbl.dronebl.org" /\
  lookupDroneBL resolve4 (dotted 193 46 255 99)
  = Some (mkListing ("dronebl_type_" +:+ JS.Number_toString 3) "dronebl" (Some 3)).
Proof.
  intros resolve4.
  destruct (@lookupDroneBL_asks_reversed_name Reference.ipUtils resolve4 193 46 255 99 127 0 0 3 []
              (JS.Error "ENOTFOUND")
              ltac:(lia) ltac:(lia) ltac:(lia) ltac:(lia)
              ltac:(lia) ltac:(lia) ltac:(lia) ltac:(lia) ltac:(vm_compute; reflexivity))
    as (Hname & Hlisted & _).
  split; [exact Hname|]. apply Hlisted. reflexivity.
Defined.

End DroneBLFacts.

(** ** ip2int on dotted quads *)

Module Ip2IntFacts.
Import Ip2Int.

Lemma isDigit_digitValue (c : ascii) :
  Reference.isDigit c = true ->
  JS.digitValue 10 c = Some (Z.of_nat (nat_of_ascii c) - 48)
  /\ JS.isWhiteSpace c = false /\ Ascii.eqb c "-" = false /\ Ascii.eqb c "+" = false.
Proof.
  unfold Reference.isDigit, JS.digitValue, JS.isWhiteSpace.
  intros Hd. apply andb_true_iff in Hd as [H1 H2].
  apply Nat.leb_le in H1, H2.
  assert (exists n, (48 <= n <= 57)%nat /\ c = ascii_of_nat n) as (n & Hn & ->).
  { exists (nat_of_ascii c). split; [lia|]. by rewrite ascii_nat_embedding. }
  clear H1 H2.
  assert (n = 48 \/ n = 49 \/ n = 50 \/ n = 51 \/ n = 52 \/ n = 53 \/ n = 54
          \/ n = 55 \/ n = 56 \/ n = 57)%nat as Hcases by lia.
  repeat (destruct Hcases as [->|Hcases]); try subst n; vm_compute; done.
Qed.

Lemma parseDigits_digits (s : string) (acc : Z) :
  forallb Reference.isDigit (list_ascii_of_string s) = true ->
  JS.parseDigits 10 (Some acc) s = Some (Reference.digits acc s).1.
Proof.
  revert acc. induction s as [|c s IH]; intros acc Hall; [done|].
  simpl in Hall. apply andb_true_iff in Hall as [Hc Hall].
  simpl. rewrite Hc.
  destruct (isDigit_digitValue c Hc) as (-> & _). simpl. by apply IH.
Qed.

Lemma digits_bounds (s : string) (acc : Z) :
  0 <= acc -> 0 <= (Reference.digits acc s).1.
Proof.
  revert acc. induction s as [|c s IH]; intros acc Hacc; [done|].
  simpl. destruct (Reference.isDigit c) eqn:Hc; [|done].
  apply IH. unfold Reference.isDigit in Hc.
  apply andb_true_iff in Hc as [H1 H2]. apply Nat.leb_le in H1, H2. lia.
Qed.

(** An octet of a dotted quad is read by [parseInt(_, 10)] as its value. *)
Lemma octet_parseInt10 (s : string) (v : Z) :
  Reference.octet s = Some v -> JS.parseInt10 s = Some v /\ 0 <= v <= 255.
Proof.
  unfold Reference.octet. intros Hoct.
  destruct ((1 <=? String.length s)%nat && (String.length s <=? 3)%nat
            && forallb Reference.isDigit (list_ascii_of_string s)) eqn:Hok;
    [|discriminate].
  apply andb_true_iff in Hok as [Hlen Hall].
  destruct (Z.leb_spec (Reference.digits 0 s).1 255) as [Hle|]; [|discriminate].
  injection Hoct as <-. split; [|split; [by apply digits_bounds|done]].
  destruct s as [|c s]; [done|].
  pose proof Hall as Hall'. simpl in Hall'.
  apply andb_true_iff in Hall' as [Hc _].
  destruct (isDigit_digitValue c Hc) as (Hv & Hw & Hm & Hp).
  unfold JS.parseInt10. simpl JS.trimStart. rewrite Hw.
  unfold JS.stripSign. rewrite Hm, Hp. unfold JS.applySign.
  simpl JS.parseDigits. rewrite Hv. simpl default.
  rewrite parseDigits_digits.
  - simpl. rewrite Hc. done.
  - simpl in Hall. by apply andb_true_iff in Hall as [_ ?].
Qed.

Lemma shl8_small (x : Z) : 0 <= x < 2 ^ 23 -> shl (Some x) 8 = x * 256.
Proof.
  intros Hx. unfold shl, ToInt32. simpl default.
  rewrite (Z.mod_small x) by lia.
  destruct (Z.ltb_spec x (2 ^ 31)); [|lia].
  rewrite Z.shiftl_mul_pow2 by lia. change (2 ^ 8) with 256.
  rewrite Z.mod_small by lia.
  destruct (Z.ltb_spec (x * 256) (2 ^ 31)); lia.
Qed.

(** X14.  [ip2int] gives every dotted quad its unsigned 32-bit value, also when
    the first octet is 128 or more and the last shift gives a negative
    number. *)
Theorem ip2int_of_dotted_quad (ip : string) (v : Z) :
  Reference.quad ip = Some v -> ip2int ip = v /\ 0 <= v < 2 ^ 32.
Proof.
  unfold Reference.quad, ip2int. intros Hquad.
  destruct (JS.split "." ip) as [|s1 [|s2 [|s3 [|s4 [|]]]]]; simpl in Hquad;
    try discriminate; try (repeat case_match; discriminate).
  destruct (Reference.octet s1) as [a|] eqn:H1; [|discriminate].
  destruct (Reference.octet s2) as [b|] eqn:H2; [|discriminate].
  destruct (Reference.octet s3) as [c|] eqn:H3; [|discriminate].
  destruct (Reference.octet s4) as [d|] eqn:H4; [|discriminate].
  injection Hquad as <-.
  apply octet_parseInt10 in H1 as [Hp1 Ha], H2 as [Hp2 Hb], H3 as [Hp3 Hc],
    H4 as [Hp4 Hd].
  simpl fold_left. rewrite Hp1, Hp2, Hp3, Hp4.
  rewrite (shl8_small 0) by lia. simpl add. change (0 * 256 + a) with a.
  rewrite (shl8_small a) by lia. simpl add.
  rewrite (shl8_small (a * 256 + b)) by lia. simpl add.
  set (x := (a * 256 + b) * 256 + c).
  assert (0 <= x < 2 ^ 24) as Hx by (unfold x; lia).
  unfold shl, ToInt32, ToUint32. simpl default.
  rewrite (Z.mod_small x) by lia.
  destruct (Z.ltb_spec x (2 ^ 31)); [|lia].
  rewrite Z.shiftl_mul_pow2 by lia. change (2 ^ 8) with 256.
  rewrite (Z.mod_small (x * 256)) by lia.
  split; [|lia].
  destruct (Z.ltb_spec (x * 256) (2 ^ 31)).
  - apply Z.mod_small. lia.
  - symmetry. apply (Z.mod_unique _ _ (-1)); lia.
Qed.

Lemma ip2int_of_dotted_quad_witness :
  Reference.quad "193.46.255.99" = Some 3241082723 /\
  ip2int "193.46.255.99" = 3241082723 /\ 0 <= 3241082723 < 2 ^ 32.
Proof.
  split; [reflexivity|].
  apply (ip2int_of_dotted_quad "193.46.255.99" 3241082723). reflexivity.
Defined.

End Ip2IntFacts.

(** ** An update with nothing staged *)

Module StagingFacts.
Import Launch LaunchSpec Tactics.

Lemma merged_nothing (staging : list (string * string)) (acc : string) :
  Forall (fun f => hidden f.1 = true \/ f.2 = EmptyString) staging ->
  fold_left (fun acc f => if hidden f.1 then acc else acc +:+ f.2) staging acc = acc.
Proof.
  intros Hall. revert acc. induction Hall as [|f staging Hf Hall IH]; intros acc; [done|].
  simpl. rewrite IH.
  destruct (hidden f.1) eqn:Hh; [done|]. destruct Hf as [Hf|Hf]; [done|].
  rewrite Hf. apply TextFacts.string_app_empty.
Qed.

(** X15.  An update with nothing staged fails.  When the staging directory holds
    only hidden or empty files, the merged file is the header line alone;
    the validation refuses it for want of a data row, the stage throws, the
    temporary file is removed and the live CSV and its backup are as they
    were. *)
Theorem nothing_staged_keeps_live_csv
  (csvFile : string) (staging : list (string * string)) (fs : gmap string string) :
  Forall (fun f => hidden f.1 = true \/ f.2 = EmptyString) staging ->
  let out := process_or_cleanup csvFile staging fs in
  out.1 = JS.Throw (JS.Error "CSV validation failed") /\
  out.2 !! csvFile = fs !! csvFile /\
  out.2 !! (csvFile +:+ ".backup") = fs !! (csvFile +:+ ".backup") /\
  out.2 !! tempCsvFile csvFile = None.
Proof.
  intros Hall. unfold process_or_cleanup, process.
  rewrite merged_nothing by done.
  assert (validateCsvFile
            (<[tempCsvFile csvFile := "start_int|end_int|list" +:+ String LF EmptyString]> fs)
            (tempCsvFile csvFile) = false) as ->.
  { unfold validateCsvFile. rewrite lookup_insert_eq. vm_compute. reflexivity. }
  simpl.
  assert (tempCsvFile csvFile <> csvFile) as Hne.
  { unfold tempCsvFile. by apply LaunchFacts.app_not_self. }
  assert (tempCsvFile csvFile <> csvFile +:+ ".backup") as Hne'.
  { unfold tempCsvFile. intros Heq. apply CacheFacts.app_inv_head in Heq. done. }
  split; [done|].
  rewrite !lookup_delete_ne, !lookup_insert_ne by done.
  split; [done|]. split; [done|]. apply lookup_delete_eq.
Qed.

Lemma nothing_staged_keeps_live_csv_witness :
  let fs : gmap string string := {[ "ipFile" := "start_int|end_int|list" ]} in
  let out := process_or_cleanup "ipFile" [(".gitkeep", "x")] fs in
  out.1 = JS.Throw (JS.Error "CSV validation failed") /\
  out.2 !! "ipFile" = fs !! "ipFile" /\
  out.2 !! ("ipFile" +:+ ".backup") = fs !! ("ipFile" +:+ ".backup") /\
  out.2 !! tempCsvFile "ipFile" = None.
Proof.
  apply (nothing_staged_keeps_live_csv "ipFile" [(".gitkeep", "x")]).
  apply Forall_cons_2; [left; reflexivity|apply Forall_nil_2].
Defined.

End StagingFacts.

(** ** The rate limit of a WebSocket connection *)

Module RateLimitFacts.
Import WebSocket RateLimitSpec.

Lemma arrivals_in_window (window max : Z) (id : string) (times : list Z) :
  forall (m : gmap string counts) (c : counts),
    m !! id = Some c ->
    Forall (fun t => t <= resetTime c) times ->
    (arrivals window max times id m).1
    = List.map (fun i => max <? count c + Z.of_nat i) (seq 1 (length times)).
Proof.
  induction times as [|now rest IH]; intros m c Hm Hall; [done|].
  apply Forall_cons in Hall as [Hnow Hrest].
  cbn [arrivals]. unfold checkRateLimit at 1. rewrite Hm. simpl default.
  destruct (Z.ltb_spec (resetTime c) now) as [|_]; [lia|].
  specialize (IH (<[id := mkCounts (count c + 1) (resetTime c)]> m)
                 (mkCounts (count c + 1) (resetTime c))
                 (lookup_insert_eq _ _ _) Hrest).
  destruct (arrivals window max rest id _) as [bs m'] eqn:Hrun.
  simpl in IH. subst bs. simpl. f_equal.
  rewrite <- (seq_shift _ 1), List.map_map. apply List.map_ext. intros i. f_equal. lia.
Qed.

(** X16.  The rate limit of a connection.  From the first message of a new
    connection at time [t0] until [t0 + rateLimitWindow], [checkRateLimit]
    answers [false] for the first [maxMessages] messages and [true] for
    every later one: the answer to the i-th message is [maxMessages < i]. *)
Theorem rate_limit_counts_messages_in_window
  (window max t0 : Z) (id : string) (times : list Z) (m : gmap string counts) :
  m !! id = None ->
  Forall (fun t => t <= t0 + window) times ->
  (arrivals window max (t0 :: times) id m).1
  = List.map (fun i => max <? Z.of_nat i) (seq 1 (S (length times))).
Proof.
  intros Hm Hall.
  assert (checkRateLimit window max t0 id m
          = (max <? 1, <[id := mkCounts 1 (t0 + window)]> m)) as Hfirst.
  { unfold checkRateLimit. rewrite Hm. simpl.
    by destruct (t0 + window <? t0). }
  cbn [arrivals]. rewrite Hfirst.
  pose proof (arrivals_in_window window max id times
                (<[id := mkCounts 1 (t0 + window)]> m)
                (mkCounts 1 (t0 + window)) (lookup_insert_eq _ _ _) Hall) as Hin.
  destruct (arrivals window max times id _) as [bs m'] eqn:Hrun.
  simpl in Hin. subst bs. simpl. f_equal.
  rewrite <- (seq_shift _ 1), List.map_map. apply List.map_ext. intros i. f_equal. lia.
Qed.

Lemma rate_limit_counts_messages_in_window_witness :
  (arrivals 60000 2 [1000; 1001; 1002; 61000] "10.0.0.1-1000" ∅).1
  = [false; false; true; true].
Proof.
  apply (rate_limit_counts_messages_in_window 60000 2 1000 "10.0.0.1-1000"
           [1001; 1002; 61000] ∅).
  - reflexivity.
  - repeat (apply Forall_cons_2; [lia|]). apply Forall_nil_2.
Defined.

End RateLimitFacts.

(** ** main: the lock, the skipped update, the early failures *)

Module MainFacts.
Import Json Redis Main MainSpec LockSpec LoaderFrameSpec Tactics.

Section Rules.
Context {A B : Type}.

Lemma triple_ret (a : A) (Q : A -> store -> Prop) (E : JS.exn -> store -> Prop) :
  triple (Q a) (mret a) Q E.
Proof. intros s Hs. exact Hs. Qed.

Lemma triple_throw (e : JS.exn) (Q : A -> store -> Prop)
  (E : JS.exn -> store -> Prop) :
  triple (E e) (throw e) Q E.
Proof. intros s Hs. exact Hs. Qed.

Lemma triple_bind (P : store -> Prop) (c : M A) (k : A -> M B)
  (Q1 : A -> store -> Prop) (Q : B -> store -> Prop)
  (E : JS.exn -> store -> Prop) :
  triple P c Q1 E -> (forall a, triple (Q1 a) (k a) Q E) ->
  triple P (c ≫= k) Q E.
Proof.
  intros Hc Hk s Hs. specialize (Hc s Hs). unfold mbind, M_bind.
  destruct (c s) as [[a|e] s1]; [|done]. by apply Hk.
Qed.

Lemma triple_try_catch (P : store -> Prop) (c : M A) (handler : JS.exn -> M A)
  (Q : A -> store -> Prop) (E1 E : JS.exn -> store -> Prop) :
  triple P c Q E1 -> (forall e, triple (E1 e) (handler e) Q E) ->
  triple P (try_catch c handler) Q E.
Proof.
  intros Hc Hh s Hs. specialize (Hc s Hs). unfold try_catch.
  destruct (c s) as [[a|e] s1]; [done|]. by apply Hh.
Qed.

Lemma triple_weaken (P P' : store -> Prop) (c : M A)
  (Q Q' : A -> store -> Prop) (E E' : JS.exn -> store -> Prop) :
  triple P' c Q' E' -> (forall s, P s -> P' s) ->
  (forall a s, Q' a s -> Q a s) -> (forall e s, E' e s -> E e s) ->
  triple P c Q E.
Proof.
  intros Hc HP HQ HE s Hs. specialize (Hc s (HP s Hs)).
  destruct (c s) as [[a|e] s1]; auto.
Qed.

(** A Redis computation that keeps the keys a property of the keyspace
    looks at, keeps the property of the store. *)
Lemma triple_on_redis (c : Redis.M A) (I : store -> Prop) :
  (forall s r st', I s -> c (redis s) = (r, st') ->
     I (mkStore st' (files s) (lockValue s))) ->
  triple I (on_redis c) (fun _ => I) (fun _ => I).
Proof.
  intros Hc s Hs. unfold on_redis.
  destruct (c (redis s)) as [[a|e] st'] eqn:Hrun; by eapply Hc.
Qed.

End Rules.

Section WithWorld.
Context `{Codec}.
Variable w : world.
Variable redisPrefix : string.
Variable csvFile : string.

Local Abbreviation lockKey := (Main.lockKey redisPrefix).
Local Abbreviation statusKey := (Main.statusKey redisPrefix).

Lemma statusKey_not_lockKey : statusKey <> lockKey.
Proof.
  unfold Main.statusKey, Main.lockKey. intros Heq.
  apply CacheFacts.app_inv_head in Heq. discriminate.
Qed.

Lemma keeps_updateStatus (key status : string) (metadata : list (string * json)) :
  statusKey <> key -> keeps key (updateStatus w redisPrefix status metadata).
Proof.
  intros Hkey st r st' Hrun. unfold updateStatus, set in Hrun. run.
  simplify_eq. simpl. by rewrite lookup_insert_ne.
Qed.


Lemma lockKey_not_tempKey : lockKey <> LoadToRedis.tempKey.
Proof.
  unfold Main.lockKey. intros Heq.
  pose proof (LoaderFacts.ends_with_app redisPrefix "update_lock") as Hends.
  rewrite Heq in Hends. vm_compute in Hends. discriminate.
Qed.

Lemma lockKey_not_ranges : lockKey <> redisPrefix +:+ "ranges".
Proof.
  unfold Main.lockKey. intros Heq. apply CacheFacts.app_inv_head in Heq. discriminate.
Qed.

Lemma lockKey_not_ipListSize : lockKey <> redisPrefix +:+ "ipListSize".
Proof.
  unfold Main.lockKey. intros Heq. apply CacheFacts.app_inv_head in Heq. discriminate.
Qed.

Section Holding.
Variable own : string.
Hypothesis quiet_clients :
  forall d, LoadToRedis.concurrent (loader w) d !! lockKey = d !! lockKey.

Local Abbreviation held := (holding lockKey own).

Lemma held_on_redis {A} (c : Redis.M A) :
  keeps lockKey c -> triple held (on_redis c) (fun _ => held) (fun _ => held).
Proof.
  intros Hc. apply triple_on_redis. intros s r st' [Hkey Hlv] Hrun.
  split; [|done]. simpl. by rewrite (Hc _ _ _ Hrun).
Qed.

Lemma held_updateStatus (status : string) (metadata : list (string * json)) :
  triple held (on_redis (updateStatus w redisPrefix status metadata))
    (fun _ => held) (fun _ => held).
Proof. apply held_on_redis, keeps_updateStatus, statusKey_not_lockKey. Qed.

Lemma held_download :
  triple held (download w redisPrefix) (fun _ => held) (fun _ => held).
Proof.
  unfold download. destruct (args_download w); [|by intros s Hs].
  eapply triple_bind; [apply held_updateStatus|]. intros ?.
  intros s Hs. unfold lift. by destruct (settle (plugins w)).
Qed.

Lemma held_process :
  triple held (process w redisPrefix csvFile) (fun _ => held) (fun _ => held).
Proof.
  unfold process. destruct (args_process w); [|by intros s Hs].
  eapply triple_bind; [apply held_updateStatus|]. intros ?.
  intros s Hs. unfold on_files.
  by destruct (Launch.process csvFile (staging w) (files s)) as [[] fs].
Qed.

Lemma held_load :
  triple held (load w redisPrefix csvFile) (fun _ => held) (fun _ => held).
Proof.
  unfold load. destruct (args_load w); [|by intros s Hs].
  eapply triple_bind; [apply held_updateStatus|]. intros ?.
  eapply (triple_bind _ _ _ (fun _ => held)); [by intros s Hs|]. intros fs.
  apply held_on_redis.
  apply LoaderFrame.keeps_load;
    [apply lockKey_not_tempKey | apply lockKey_not_ranges
    | apply lockKey_not_ipListSize | exact quiet_clients].
Qed.

(** With the lock held under the value in [lockValue], [release] removes
    it. *)
Lemma held_release :
  own <> EmptyString -> JS.trim own = own ->
  triple held (release redisPrefix)
    (fun _ s => data (redis s) !! lockKey = None) (fun _ _ => False).
Proof.
  intros Hne Htrim s [Hkey Hlv]. unfold release, get_lockValue.
  unfold mbind at 1, M_bind at 1. rewrite Hlv.
  change (default "" (Some own)) with own.
  rewrite (proj2 (LockFacts.truthy_nonempty own) Hne).
  unfold mbind, M_bind, on_redis.
  unfold UpdateLock.releaseLock, UpdateLock.compare_and_delete. run.
  rewrite (proj2 (LockFacts.truthy_nonempty own) Hne). run.
  rewrite Htrim, Hkey. run. rewrite bool_decide_eq_true_2 by done. run.
  apply lookup_delete_eq.
Qed.

End Holding.


(** X17.  The lock is given back.  When [main] finds the lock free (absent, or
    stale), then whatever becomes of the update, success or failure at any
    stage, the lock is gone when [main] returns or throws; after a failure
    the temporary CSV is gone as well.  (No other client writes the lock
    meanwhile.) *)
Theorem main_releases_the_lock (s : store) :
  0 <= UpdateLock.pid (host w) -> 0 <= UpdateLock.Date_now (host w) ->
  free (host w) (data (redis s) !! lockKey) = true ->
  (forall d, LoadToRedis.concurrent (loader w) d !! lockKey = d !! lockKey) ->
  let out := main w redisPrefix csvFile s in
  (out.1 = JS.Ok "success" \/ exists e, out.1 = JS.Throw e) /\
  data (redis out.2) !! lockKey = None /\
  (forall e, out.1 = JS.Throw e ->
     files out.2 !! Launch.tempCsvFile csvFile = None).
Proof.
  intros Hpid Hnow Hfree Hquiet.
  set (own := own_value (host w)).
  pose proof (LockFacts.own_value_not_empty (host w)) as Hne.
  pose proof (LockFacts.trim_own_value (host w) Hpid Hnow) as Htrim.
  fold own in Hne, Htrim.
  enough (triple (fun s => free (host w) (data (redis s) !! lockKey) = true)
            (main w redisPrefix csvFile)
            (fun r s' => r = "success" /\ data (redis s') !! lockKey = None)
            (fun _ s' => data (redis s') !! lockKey = None
                         /\ files s' !! Launch.tempCsvFile csvFile = None))
    as Hmain.
  { specialize (Hmain s Hfree). simpl.
    destruct (main w redisPrefix csvFile s) as [[r|e] s']; simpl.
    - destruct Hmain as [-> ?]. split; [by left|]. split; [done|]. intros; done.
    - destruct Hmain as [? ?]. split; [by eauto|]. split; [done|]. intros; done. }
  clear s Hfree. unfold main.
  apply (triple_try_catch _ _ _ _ (fun _ => holding lockKey own)).
  - unfold attempt.
    apply (triple_bind _ _ _
             (fun acquired s' =>
                acquired = true
                /\ data (redis s') !! lockKey = Some (VString own (Some 3600))
                /\ lockValue s' = lockValue s')).
    { intros s Hfree. unfold on_redis.
      pose proof (LockFacts.acquireLock_spec (host w) lockKey 3600 (redis s)) as Hspec.
      simpl in Hspec.
      destruct (UpdateLock.acquireLock (host w) lockKey 3600 (redis s))
        as [[acquired|e] st'] eqn:Hacq; simpl in *.
      - destruct (data (redis s) !! lockKey) as [[v ttl| | |]|];
          destruct Hspec as [Hr Hd]; simplify_eq; simpl in Hfree;
          rewrite ?Hfree in *; rewrite Hd; rewrite ?Hfree;
          by rewrite lookup_insert_eq.
      - destruct (data (redis s) !! lockKey) as [[v ttl| | |]|];
          destruct Hspec as [Hr Hd]; simplify_eq. }
    intros acquired s (-> & Hkey & _). simpl negb. cbv iota.
    revert s Hkey.
    apply (triple_bind (fun s => data (redis s) !! lockKey = Some (VString own (Some 3600)))
             _ _
             (fun v s' => v = Some own
                          /\ data (redis s') !! lockKey = Some (VString own (Some 3600)))).
    { intros s Hkey. unfold on_redis, LockQueries.getLockValue. run.
      rewrite Hkey. run.
      rewrite (proj2 (LockFacts.truthy_nonempty own) Hne), Htrim. done. }
    intros v s [-> Hkey].
    unfold mbind at 1, M_bind at 1, set_lockValue.
    assert (holding lockKey own (mkStore (redis s) (files s) (Some own))) as Hheld
      by done.
    revert Hheld. generalize (mkStore (redis s) (files s) (Some own)). clear s Hkey.
    change (triple (holding lockKey own)
              (_ ← on_redis (updateStatus w redisPrefix "in_progress"
                               [("stage", JStr "starting")]);
               _ ← download w redisPrefix;
               _ ← process w redisPrefix csvFile;
               _ ← load w redisPrefix csvFile;
               _ ← on_redis (updateStatus w redisPrefix "completed"
                               [("timestamp", JStr (toISOString w))]);
               _ ← release redisPrefix;
               mret "success")
              (fun r s' => r = "success" /\ data (redis s') !! lockKey = None)
              (fun _ => holding lockKey own)).
    apply (triple_bind _ _ _ (fun _ => holding lockKey own)); [apply (held_updateStatus own)|]. intros ?.
    apply (triple_bind _ _ _ (fun _ => holding lockKey own)); [apply (held_download own)|]. intros ?.
    apply (triple_bind _ _ _ (fun _ => holding lockKey own)); [apply (held_process own)|]. intros ?.
    apply (triple_bind _ _ _ (fun _ => holding lockKey own)); [by apply (held_load own)|]. intros ?.
    apply (triple_bind _ _ _ (fun _ => holding lockKey own)); [apply (held_updateStatus own)|]. intros ?.
    apply (triple_bind _ _ _ (fun _ s' => data (redis s') !! lockKey = None)).
    { eapply triple_weaken; [by apply (held_release own)|done|..].
      - intros a' s' Hs'. exact Hs'.
      - intros e s' []. }
    intros ? s Hs. done.
  - intros e. cbv beta. unfold recover.
    apply (triple_bind _ _ _ (fun _ => holding lockKey own)); [apply (held_updateStatus own)|]. intros ?.
    apply (triple_bind _ _ _ (fun _ s' => data (redis s') !! lockKey = None)).
    { eapply triple_weaken; [by apply (held_release own)|done|..].
      - intros a' s' Hs'. exact Hs'.
      - intros e' s' []. }
    intros ? s Hs. unfold mbind, M_bind, on_files, throw. simpl.
    split; [done|]. apply lookup_delete_eq.
Qed.


(** X18.  The update is skipped.  When the lock holds a string that is not stale
    (its holder runs, or is the caller, or cannot be told, or the string is
    empty), [main] returns ['skipped']: it writes the status and nothing
    else, the lock and the files are as they were. *)
Theorem main_skips_when_lock_is_held
  (s : store) (v : string) (ttl : option Z) :
  data (redis s) !! lockKey = Some (VString v ttl) ->
  stale (host w) v = false ->
  let out := main w redisPrefix csvFile s in
  out.1 = JS.Ok "skipped" /\
  data (redis out.2)
  = <[statusKey := VString (status_text w "skipped"
                              [("reason", JStr "Lock already held")]) None]>
      (data (redis s)) /\
  files out.2 = files s.
Proof.
  intros Hkey Hstale.
  assert (exists l,
            main w redisPrefix csvFile s
            = (JS.Ok "skipped",
               mkStore (mkState
                          (<[statusKey := VString (status_text w "skipped"
                                             [("reason", JStr "Lock already held")])
                                           None]> (data (redis s))) l)
                       (files s) (lockValue s))) as [l Hmain].
  { pose proof (LockFacts.acquireLock_spec (host w) lockKey 3600 (redis s)) as Hspec.
    simpl in Hspec. rewrite Hkey in Hspec. simpl in Hspec. rewrite Hstale in Hspec.
    destruct Hspec as [Hr Hd].
    unfold main, try_catch, attempt.
    unfold mbind at 1, M_bind at 1, on_redis at 1.
    destruct (UpdateLock.acquireLock (host w) lockKey 3600 (redis s))
      as [r st1] eqn:Hacq.
    simpl in Hr, Hd. subst r. destruct st1 as [d1 l1]. simpl in Hd. subst d1.
    simpl negb. cbv iota.
    unfold mbind at 1, M_bind at 1, on_redis at 1, LockQueries.isLocked. run.
    rewrite Hkey. run.
    unfold mbind, M_bind, on_redis, updateStatus, set, status_text. run.
    eexists. reflexivity. }
  simpl. rewrite Hmain. done.
Qed.


Section Untouched.
Variable d0 : gmap string value.
Variable G : gmap string string -> Prop.

Local Abbreviation same := (untouched redisPrefix d0 G).

(** A Redis computation that always returns and keeps the other keys. *)
Lemma same_on_redis {A} (c : Redis.M A) :
  (forall key, key <> statusKey -> key <> lockKey -> keeps key c) ->
  (forall st, exists a st', c st = (JS.Ok a, st')) ->
  triple same (on_redis c) (fun _ => same) (fun _ _ => False).
Proof.
  intros Hc Htotal s [Hkeys Hfiles]. unfold on_redis.
  destruct (Htotal (redis s)) as (a & st' & Hrun). rewrite Hrun.
  split; [|done]. simpl. intros key H1 H2.
  rewrite (Hc key H1 H2 _ _ _ Hrun). by apply Hkeys.
Qed.

Lemma same_updateStatus (status : string) (metadata : list (string * json)) :
  triple same (on_redis (updateStatus w redisPrefix status metadata))
    (fun _ => same) (fun _ _ => False).
Proof.
  apply same_on_redis.
  - intros key H1 H2. by apply keeps_updateStatus.
  - intros st. unfold updateStatus, swallow. eauto.
Qed.

Lemma same_getLockValue :
  triple same (on_redis (LockQueries.getLockValue lockKey))
    (fun _ => same) (fun _ _ => False).
Proof.
  apply same_on_redis.
  - intros key _ _ st r st' Hrun. unfold LockQueries.getLockValue in Hrun. run.
    repeat (case_match; run; simplify_eq; try done).
  - intros st. unfold LockQueries.getLockValue. run.
    repeat (case_match; run; simplify_eq; eauto).
Qed.

Lemma keeps_releaseLock (key : string) (lv : option string) :
  key <> lockKey -> keeps key (UpdateLock.releaseLock lockKey lv).
Proof.
  intros Hkey st r st' Hrun.
  unfold UpdateLock.releaseLock, UpdateLock.compare_and_delete in Hrun. run.
  repeat (case_match; run; simplify_eq; try done);
    simpl; by rewrite lookup_delete_ne.
Qed.

Lemma same_release :
  triple same (release redisPrefix) (fun _ => same) (fun _ _ => False).
Proof.
  intros s Hs. unfold release, get_lockValue.
  unfold mbind at 1, M_bind at 1.
  destruct (JS.truthy (default "" (lockValue s))); [|done].
  assert (triple same (on_redis (UpdateLock.releaseLock lockKey (lockValue s)))
            (fun _ => same) (fun _ _ => False)) as Hrel.
  { apply same_on_redis.
    - intros key _ Hk. by apply keeps_releaseLock.
    - intros st. unfold UpdateLock.releaseLock, UpdateLock.compare_and_delete. run.
      repeat (case_match; run; simplify_eq; eauto). }
  specialize (Hrel s Hs). unfold mbind, M_bind.
  by destruct (on_redis (UpdateLock.releaseLock lockKey (lockValue s)) s) as [[] s'].
Qed.

End Untouched.

Lemma release_keeps (key : string) (s : store) :
  key <> lockKey ->
  data (redis (release redisPrefix s).2) !! key = data (redis s) !! key.
Proof.
  intros Hkey. unfold release, get_lockValue.
  unfold mbind at 1, M_bind at 1.
  destruct (JS.truthy (default "" (lockValue s))); [|done].
  unfold mbind, M_bind, on_redis.
  destruct (UpdateLock.releaseLock lockKey (lockValue s) (redis s))
    as [[b|e] st'] eqn:Hrun; simpl;
    exact (keeps_releaseLock key (lockValue s) Hkey _ _ _ Hrun).
Qed.

(** X19.  A failure before the load stage.  When [main] finds the lock free and
    an aborting plugin was rejected, or else the merged CSV is refused,
    [main] throws that error; on the server nothing but the status and the
    lock has changed, so the live index is the one before; the status
    says [failed] with the message of the error; and no file has changed
    but the temporary CSV, which is gone. *)
Theorem main_early_failure_keeps_index (s : store) (e0 : JS.exn) :
  free (host w) (data (redis s) !! lockKey) = true ->
  early_failure w csvFile (files s) = Some e0 ->
  let out := main w redisPrefix csvFile s in
  out.1 = JS.Throw e0 /\
  (forall key, key <> statusKey -> key <> lockKey ->
     data (redis out.2) !! key = data (redis s) !! key) /\
  data (redis out.2) !! statusKey
  = Some (VString (status_text w "failed"
                     [("error", JStr (message w e0));
                      ("timestamp", JStr (toISOString w))]) None) /\
  files out.2 = delete (Launch.tempCsvFile csvFile) (files s).
Proof.
  intros Hfree Hearly.
  set (strict := untouched redisPrefix (data (redis s)) (fun fs => fs = files s)).
  set (weak := untouched redisPrefix (data (redis s))
                 (fun fs => delete (Launch.tempCsvFile csvFile) fs
                            = delete (Launch.tempCsvFile csvFile) (files s))).
  enough (triple (fun s' => s' = s) (main w redisPrefix csvFile)
            (fun _ _ => False)
            (fun e s' => e = e0
                         /\ (forall key, key <> statusKey -> key <> lockKey ->
                               data (redis s') !! key = data (redis s) !! key)
                         /\ data (redis s') !! statusKey
                            = Some (VString (status_text w "failed"
                     [("error", JStr (message w e0));
                      ("timestamp", JStr (toISOString w))]) None)
                         /\ files s' = delete (Launch.tempCsvFile csvFile) (files s)))
    as Hmain.
  { specialize (Hmain s eq_refl). simpl.
    destruct (main w redisPrefix csvFile s) as [[r|e] s']; [done|].
    simpl. by destruct Hmain as (-> & ? & ? & ?). }
  assert (forall s', strict s' -> weak s') as Hweak.
  { intros s' [Hkeys Hfiles]. split; [done|]. simpl in *. by rewrite Hfiles. }
  unfold main.
  apply (triple_try_catch _ _ _ _ (fun e s' => e = e0 /\ weak s')).
  - unfold attempt.
    apply (triple_bind _ _ _ (fun acquired s' => acquired = true /\ strict s')).
    { intros s1 ->. unfold on_redis.
      pose proof (LockFacts.acquireLock_spec (host w) lockKey 3600 (redis s)) as Hspec.
      simpl in Hspec.
      destruct (UpdateLock.acquireLock (host w) lockKey 3600 (redis s))
        as [[acquired|e] st'] eqn:Hacq; simpl in *.
      - destruct (data (redis s) !! lockKey) as [[v ttl| | |]|];
          destruct Hspec as [Hr Hd]; simplify_eq; simpl in Hfree;
          rewrite ?Hfree in *; (split; [done|]); (split; [|done]);
          simpl; intros key _ Hk; rewrite Hd; by rewrite lookup_insert_ne.
      - destruct (data (redis s) !! lockKey) as [[v ttl| | |]|];
          destruct Hspec as [Hr Hd]; simplify_eq. }
    intros acquired s1 [-> Hsame]. simpl negb. cbv iota. revert s1 Hsame.
    apply (triple_bind strict _ _ (fun _ => strict)).
    { eapply triple_weaken; [apply (same_getLockValue (data (redis s)) (fun fs => fs = files s))|done|done|]. by intros. }
    intros v.
    apply (triple_bind strict _ _ (fun _ => strict)).
    { by intros s1 Hs1. }
    intros ?.
    apply (triple_bind strict _ _ (fun _ => strict)).
    { eapply triple_weaken; [apply (same_updateStatus (data (redis s)) (fun fs => fs = files s))|done|done|]. by intros. }
    intros ?.
    unfold early_failure in Hearly.
    apply (triple_bind strict _ _
             (fun _ s' => strict s' /\ args_process w = true
                          /\ (Launch.process csvFile (staging w) (files s)).1
                             = JS.Throw e0)).
    { unfold download. destruct (args_download w).
      - apply (triple_bind strict _ _ (fun _ => strict)).
        { eapply triple_weaken; [apply (same_updateStatus (data (redis s)) (fun fs => fs = files s))|done|done|]. by intros. }
        intros ? s1 Hs1. unfold lift.
        destruct (settle (plugins w)) as [[]|e].
        + repeat case_match; by simplify_eq.
        + injection Hearly as ->. split; [done|]. by apply Hweak.
      - intros s1 Hs1. simpl. repeat case_match; by simplify_eq. }
    intros ? s1 (Hs1 & Hproc & Hthrow). revert s1 Hs1.
    apply (triple_bind strict _ _ (fun _ _ => False)); [|by intros ? ? []].
    unfold process. rewrite Hproc.
    apply (triple_bind strict _ _ (fun _ => strict)).
    { eapply triple_weaken; [apply (same_updateStatus (data (redis s)) (fun fs => fs = files s))|done|done|]. by intros. }
    intros ? s1 [Hkeys Hfiles]. unfold on_files. rewrite Hfiles.
    destruct (Launch.process csvFile (staging w) (files s)) as [[[]|e] fs] eqn:Hp;
      simpl in Hthrow; [done|]. injection Hthrow as ->.
    split; [done|]. split; [done|]. simpl.
    unfold Launch.process in Hp.
    destruct (Launch.validateCsvFile _ _); simpl in Hp; simplify_eq.
    apply delete_insert_eq.
  - intros e. cbv beta. unfold recover.
    apply (triple_bind _ _ _
             (fun _ s' => e = e0 /\ weak s'
                          /\ data (redis s') !! statusKey
                             = Some (VString (status_text w "failed"
                     [("error", JStr (message w e0));
                      ("timestamp", JStr (toISOString w))]) None))).
    { intros s1 [-> Hs1]. pose proof (same_updateStatus (data (redis s))
        (fun fs => delete (Launch.tempCsvFile csvFile) fs
                   = delete (Launch.tempCsvFile csvFile) (files s)) "failed"
        [("error", JStr (message w e0)); ("timestamp", JStr (toISOString w))] s1 Hs1)
        as Hst.
      unfold on_redis in *.
      destruct (updateStatus w redisPrefix "failed" _ (redis s1)) as [[[]|] st'] eqn:Hrun;
        [|done].
      split; [done|]. split; [done|]. simpl.
      unfold updateStatus, set in Hrun. run. simplify_eq. simpl.
      apply lookup_insert_eq. }
    intros ?.
    apply (triple_bind _ _ _
             (fun _ s' => e = e0 /\ weak s'
                          /\ data (redis s') !! statusKey
                             = Some (VString (status_text w "failed"
                     [("error", JStr (message w e0));
                      ("timestamp", JStr (toISOString w))]) None))).
    { intros s1 (-> & Hs1 & Hstatus). pose proof (same_release (data (redis s))
        (fun fs => delete (Launch.tempCsvFile csvFile) fs
                   = delete (Launch.tempCsvFile csvFile) (files s)) s1 Hs1) as Hrel.
      pose proof (release_keeps statusKey s1 statusKey_not_lockKey) as Hkeep.
      destruct (release redisPrefix s1) as [[[]|] s'] eqn:Hrun; [|done].
      simpl in Hkeep. split; [done|]. split; [done|]. by rewrite Hkeep. }
    intros ? s1 (-> & [Hkeys Hfiles] & Hstatus).
    unfold mbind, M_bind, on_files, throw. simpl.
    split; [done|]. split; [done|]. split; [done|].
    rewrite Hfiles. done.
Qed.

End WithWorld.

Lemma main_releases_the_lock_witness :
  let out := main Samples.aborting "ip_lists:" "ipFile" Samples.fresh_store in
  (out.1 = JS.Ok "success" \/ exists e, out.1 = JS.Throw e) /\
  data (redis out.2) !! Main.lockKey "ip_lists:" = None /\
  (forall e, out.1 = JS.Throw e ->
     files out.2 !! Launch.tempCsvFile "ipFile" = None).
Proof.
  apply (main_releases_the_lock Samples.aborting "ip_lists:" "ipFile"
           Samples.fresh_store).
  - vm_compute. discriminate.
  - vm_compute. discriminate.
  - reflexivity.
  - intros d. reflexivity.
Defined.

Lemma main_skips_when_lock_is_held_witness :
  let out := main Samples.onlooker "ip_lists:" "ipFile" Samples.locked_store in
  out.1 = JS.Ok "skipped" /\
  data (redis out.2)
  = <[Main.statusKey "ip_lists:"
      := VString (status_text Samples.onlooker "skipped"
                    [("reason", JStr "Lock already held")]) None]>
      (data (redis Samples.locked_store)) /\
  files out.2 = files Samples.locked_store.
Proof.
  apply (main_skips_when_lock_is_held Samples.onlooker "ip_lists:" "ipFile"
           Samples.locked_store "4242-1700000000000" (Some 3600)).
  - reflexivity.
  - vm_compute. reflexivity.
Defined.

Lemma main_early_failure_keeps_index_witness :
  let out := main Samples.aborting "ip_lists:" "ipFile" Samples.fresh_store in
  out.1 = JS.Throw (JS.Error
            "Abort: plugin [firehol] has been set to abort process on fail.") /\
  (forall key, key <> Main.statusKey "ip_lists:" -> key <> Main.lockKey "ip_lists:" ->
     data (redis out.2) !! key = data (redis Samples.fresh_store) !! key) /\
  data (redis out.2) !! Main.statusKey "ip_lists:"
  = Some (VString
            (status_text Samples.aborting "failed"
               [("error", JStr (message Samples.aborting
                   (JS.Error "Abort: plugin [firehol] has been set to abort process on fail.")));
                ("timestamp", JStr (toISOString Samples.aborting))]) None) /\
  files out.2 = delete (Launch.tempCsvFile "ipFile") (files Samples.fresh_store).
Proof.
  apply (main_early_failure_keeps_index Samples.aborting "ip_lists:" "ipFile"
           Samples.fresh_store).
  - reflexivity.
  - reflexivity.
Defined.

End MainFacts.

(** ** main: the update succeeds *)

Module MainSuccess.
Import Json Redis Main MainSpec LockSpec LoaderFrameSpec IndexSpec MainFacts Tactics.

Lemma triple_on_redis_run {A} (c : Redis.M A) (P : store -> Prop)
  (Q : A -> store -> Prop) (E : JS.exn -> store -> Prop) :
  (forall s, P s ->
     match c (redis s) with
     | (JS.Ok a, st') => Q a (mkStore st' (files s) (lockValue s))
     | (JS.Throw e, st') => E e (mkStore st' (files s) (lockValue s))
     end) ->
  triple P (on_redis c) Q E.
Proof.
  intros Hc s Hs. specialize (Hc s Hs). unfold on_redis.
  by destruct (c (redis s)) as [[a|e] st'].
Qed.

Section WithWorld.
Context `{Codec}.
Variable w : world.
Variable redisPrefix : string.
Variable csvFile : string.

Local Abbreviation lockKey := (Main.lockKey redisPrefix).
Local Abbreviation statusKey := (Main.statusKey redisPrefix).

Lemma updateStatus_run (status : string) (metadata : list (string * json))
  (st : state) :
  updateStatus w redisPrefix status metadata st
  = (JS.Ok tt, mkState (<[statusKey := VString (status_text w status metadata) None]>
                          (data st)) (log st)).
Proof. reflexivity. Qed.

(** A property of the store that looks at keys other than the status
    only, survives [updateStatus]. *)
Lemma triple_updateStatus (status : string) (metadata : list (string * json))
  (P : store -> Prop) (Q : store -> Prop) :
  (forall s, P s ->
     Q (mkStore (mkState (<[statusKey := VString (status_text w status metadata) None]>
                            (data (redis s))) (log (redis s)))
          (files s) (lockValue s))) ->
  triple P (on_redis (updateStatus w redisPrefix status metadata))
    (fun _ => Q) (fun _ _ => False).
Proof.
  intros HQ. apply triple_on_redis_run. intros s Hs.
  rewrite updateStatus_run. by apply HQ.
Qed.

Section Success.
Variables (s : store) (fs1 : gmap string string) (rows : list LoadToRedis.row).
Variables (idx : list (Z * string)) (lists old : list string).
Hypothesis Hpid : 0 <= UpdateLock.pid (host w).
Hypothesis Hnow : 0 <= UpdateLock.Date_now (host w).
Hypothesis Hfree : free (host w) (data (redis s) !! lockKey) = true.
Hypothesis Hsettled :
  (if args_download w then settle (plugins w) else JS.Ok tt) = JS.Ok tt.
Hypothesis Hprocess : args_process w = true.
Hypothesis Hmerged : Launch.process csvFile (staging w) (files s) = (JS.Ok tt, fs1).
Hypothesis Hload : args_load w = true.
Hypothesis Hread : read_csv w (fs1 !! csvFile) = LoadToRedis.Rows rows.
Hypothesis Hrows :
  Forall (fun r => 0 <= LoadToRedis.start_int r /\ 0 <= LoadToRedis.end_int r) rows.
Hypothesis Hidx : index_of (LoadToRedis.flatten rows) = JS.Ok idx.
Hypothesis Hne : idx <> [].
Hypothesis Hlists : members_of (data (redis s) !! (redisPrefix +:+ "lists")) = Some lists.
Hypothesis Hold : items_of (data (redis s) !! (redisPrefix +:+ "ipListSize")) = Some old.
Hypothesis writes_succeed : forall k, LoadToRedis.zadd_fails (loader w) k = false.
Hypothesis no_interference : forall d, LoadToRedis.concurrent (loader w) d = d.

Local Abbreviation own := (own_value (host w)).

Local Abbreviation working := (MainSpec.working w redisPrefix s).
Local Abbreviation loaded := (MainSpec.loaded w redisPrefix idx fs1).

Lemma lists_not_statusKey : redisPrefix +:+ "lists" <> statusKey.
Proof. intros Heq. apply CacheFacts.app_inv_head in Heq. discriminate. Qed.
Lemma lists_not_lockKey : redisPrefix +:+ "lists" <> lockKey.
Proof. intros Heq. apply CacheFacts.app_inv_head in Heq. discriminate. Qed.
Lemma ipListSize_not_statusKey : redisPrefix +:+ "ipListSize" <> statusKey.
Proof. intros Heq. apply CacheFacts.app_inv_head in Heq. discriminate. Qed.
Lemma ipListSize_not_lockKey : redisPrefix +:+ "ipListSize" <> lockKey.
Proof. intros Heq. apply CacheFacts.app_inv_head in Heq. discriminate. Qed.
Lemma ranges_not_statusKey : redisPrefix +:+ "ranges" <> statusKey.
Proof. intros Heq. apply CacheFacts.app_inv_head in Heq. discriminate. Qed.

Lemma working_updateStatus (fs : gmap string string) (status : string)
  (metadata : list (string * json)) :
  triple (working fs) (on_redis (updateStatus w redisPrefix status metadata))
    (fun _ => working fs) (fun _ _ => False).
Proof.
  apply triple_updateStatus. intros s' ([Hkey Hlv] & H1 & H2 & H3).
  pose proof (statusKey_not_lockKey redisPrefix).
  pose proof lists_not_statusKey. pose proof ipListSize_not_statusKey.
  repeat split; simpl; rewrite ?lookup_insert_ne by done; done.
Qed.


Lemma working_download :
  triple (working (files s)) (download w redisPrefix)
    (fun _ => working (files s)) (fun _ _ => False).
Proof.
  unfold download. destruct (args_download w); [|by intros s' Hs'].
  apply (triple_bind _ _ _ (fun _ => working (files s)));
    [apply working_updateStatus|].
  intros ? s' Hs'. unfold lift. by rewrite Hsettled.
Qed.

Lemma working_process :
  triple (working (files s)) (process w redisPrefix csvFile)
    (fun _ => working fs1) (fun _ _ => False).
Proof.
  unfold process. rewrite Hprocess.
  apply (triple_bind _ _ _ (fun _ => working (files s)));
    [apply working_updateStatus|].
  intros ? s' (Hheld & H1 & H2 & Hfiles). unfold on_files.
  rewrite Hfiles, Hmerged. done.
Qed.

Lemma working_load :
  triple (working fs1) (load w redisPrefix csvFile)
    (fun _ => loaded) (fun _ _ => False).
Proof.
  unfold load. rewrite Hload.
  apply (triple_bind _ _ _ (fun _ => working fs1));
    [apply working_updateStatus|].
  intros ?.
  apply (triple_bind _ _ _ (fun fs s' => fs = fs1 /\ working fs1 s')).
  { intros s' Hs'. unfold get_files. simpl. split; [|done]. by destruct Hs' as (_ & _ & _ & ?). }
  intros fs. apply triple_on_redis_run. intros s' (-> & [Hkey Hlv] & H1 & H2 & Hfiles).
  rewrite Hread.
  destruct (LoadRun.load_runs (loader w) writes_succeed no_interference rows redisPrefix
              (redis s') idx lists old Hrows Hidx Hne
              ltac:(by rewrite H1) ltac:(by rewrite H2))
    as (st' & Hrun & Hlive & Htemp).
  rewrite Hrun. split; [split|split]; simpl; try done.
  pose proof (LoaderFrame.keeps_load (loader w) (LoadToRedis.Rows rows) redisPrefix lockKey
                (lockKey_not_tempKey redisPrefix) (lockKey_not_ranges redisPrefix)
                (lockKey_not_ipListSize redisPrefix)
                (fun d => f_equal (fun m => m !! lockKey) (no_interference d))
                _ _ _ Hrun) as Hkeeps.
  by rewrite Hkeeps.
Qed.

(** X20.  The update succeeds.  When [main] finds the lock free, no aborting
    plugin was rejected, the merged CSV passes the validation, the loader
    reads from it rows on which it succeeds, [main] returns ['success']:
    the live key holds the index of the flattened rows, the status says
    [completed], the lock is given back and the merged file is the live
    CSV. *)
Theorem main_succeeds :
  let out := main w redisPrefix csvFile s in
  out.1 = JS.Ok "success" /\
  data (redis out.2) !! (redisPrefix +:+ "ranges") = Some (VZSet idx) /\
  data (redis out.2) !! statusKey
  = Some (VString (status_text w "completed"
                     [("timestamp", JStr (toISOString w))]) None) /\
  data (redis out.2) !! lockKey = None /\
  files out.2 = fs1.
Proof.
  pose proof (LockFacts.own_value_not_empty (host w)) as Hown.
  pose proof (LockFacts.trim_own_value (host w) Hpid Hnow) as Htrim.
  pose proof (statusKey_not_lockKey redisPrefix) as Hsl.
  pose proof ranges_not_statusKey as Hrs.
  pose proof (lockKey_not_ranges redisPrefix) as Hlr.
  set (final := fun s' : store =>
         data (redis s') !! (redisPrefix +:+ "ranges") = Some (VZSet idx) /\
         data (redis s') !! statusKey
         = Some (VString (status_text w "completed"
                            [("timestamp", JStr (toISOString w))]) None) /\
         data (redis s') !! lockKey = None /\
         files s' = fs1).
  enough (triple (fun s' => s' = s) (main w redisPrefix csvFile)
            (fun r s' => r = "success" /\ final s') (fun _ _ => False)) as Hmain.
  { specialize (Hmain s eq_refl). simpl.
    destruct (main w redisPrefix csvFile s) as [[r|e] s']; [|done].
    destruct Hmain as [-> Hfinal]. split; [done|]. exact Hfinal. }
  unfold main.
  apply (triple_try_catch _ _ _ _ (fun _ _ => False)); [|by intros e s' []].
  unfold attempt.
  apply (triple_bind _ _ _
           (fun acquired s' =>
              acquired = true
              /\ working (files s) (mkStore (redis s') (files s') (Some own)))).
  { intros s1 ->. unfold on_redis.
    pose proof (LockFacts.acquireLock_spec (host w) lockKey 3600 (redis s)) as Hspec.
    simpl in Hspec.
    pose proof lists_not_lockKey. pose proof ipListSize_not_lockKey.
    destruct (UpdateLock.acquireLock (host w) lockKey 3600 (redis s))
      as [[acquired|e] st'] eqn:Hacq; simpl in *.
    - destruct (data (redis s) !! lockKey) as [[v ttl| | |]|];
        destruct Hspec as [Hr Hd]; simplify_eq; simpl in Hfree;
        rewrite ?Hfree in *; (split; [done|]); unfold working, holding; simpl;
        rewrite Hd, lookup_insert_eq, !lookup_insert_ne by done; done.
    - destruct (data (redis s) !! lockKey) as [[v ttl| | |]|];
        destruct Hspec as [Hr Hd]; simplify_eq. }
  intros acquired s1 [-> Hwork]. simpl negb. cbv iota. revert s1 Hwork.
  apply (triple_bind
           (fun s' => working (files s) (mkStore (redis s') (files s') (Some own)))
           _ _
           (fun v s' => v = Some own
                        /\ working (files s) (mkStore (redis s') (files s') (Some own)))).
  { apply triple_on_redis_run. intros s1 ([Hkey _] & H1 & H2 & Hfiles). simpl in *.
    unfold LockQueries.getLockValue. run. rewrite Hkey. run.
    rewrite (proj2 (LockFacts.truthy_nonempty own) Hown), Htrim. done. }
  intros v s1 [-> Hwork].
  unfold mbind at 1, M_bind at 1, set_lockValue.
  revert Hwork. generalize (mkStore (redis s1) (files s1) (Some own)). clear s1.
  change (triple (working (files s))
            (_ ← on_redis (updateStatus w redisPrefix "in_progress"
                             [("stage", JStr "starting")]);
             _ ← download w redisPrefix;
             _ ← process w redisPrefix csvFile;
             _ ← load w redisPrefix csvFile;
             _ ← on_redis (updateStatus w redisPrefix "completed"
                             [("timestamp", JStr (toISOString w))]);
             _ ← release redisPrefix;
             mret "success")
            (fun r s' => r = "success" /\ final s') (fun _ _ => False)).
  apply (triple_bind _ _ _ (fun _ => working (files s)));
    [apply working_updateStatus|]. intros ?.
  apply (triple_bind _ _ _ (fun _ => working (files s)));
    [apply working_download|]. intros ?.
  apply (triple_bind _ _ _ (fun _ => working fs1));
    [apply working_process|]. intros ?.
  apply (triple_bind _ _ _ (fun _ => loaded));
    [apply working_load|]. intros ?.
  apply (triple_bind _ _ _
           (fun _ s' => loaded s'
                        /\ data (redis s') !! statusKey
                           = Some (VString (status_text w "completed"
                                              [("timestamp", JStr (toISOString w))])
                                     None))).
  { apply triple_updateStatus. intros s' ([Hkey Hlv] & Hlive & Hfiles).
    unfold loaded, holding. simpl.
    rewrite lookup_insert_eq, !lookup_insert_ne by done. done. }
  intros ?.
  apply (triple_bind _ _ _ (fun _ => final)); [|by intros ? s' Hs'].
  intros s' (([Hkey Hlv] & Hlive & Hfiles) & Hstatus).
  pose proof (held_release redisPrefix own Hown Htrim s' (conj Hkey Hlv)) as Hrel.
  pose proof (keeps_releaseLock redisPrefix (redisPrefix +:+ "ranges") (lockValue s')
                ltac:(done)) as Hk1.
  pose proof (keeps_releaseLock redisPrefix statusKey (lockValue s') Hsl) as Hk2.
  unfold release, get_lockValue in *.
  unfold mbind at 1, M_bind at 1 in Hrel. unfold mbind at 1, M_bind at 1.
  rewrite Hlv in *. change (default "" (Some own)) with own in *.
  rewrite (proj2 (LockFacts.truthy_nonempty own) Hown) in *.
  unfold mbind, M_bind, on_redis in *.
  destruct (UpdateLock.releaseLock lockKey (Some own) (redis s')) as [[b|e] st'] eqn:Hr;
    [|done].
  simpl in *. unfold final. simpl.
  rewrite (Hk1 _ _ _ Hr), (Hk2 _ _ _ Hr). done.
Qed.

End Success.
End WithWorld.
Lemma main_succeeds_witness :
  let out := main Samples.working_update "ip_lists:" "ipFile" Samples.fresh_store in
  out.1 = JS.Ok "success" /\
  data (redis out.2) !! ("ip_lists:" +:+ "ranges")
  = Some (VZSet [(5, Samples.old_member)]) /\
  data (redis out.2) !! Main.statusKey "ip_lists:"
  = Some (VString (status_text Samples.working_update "completed"
                     [("timestamp", JStr (toISOString Samples.working_update))]) None) /\
  data (redis out.2) !! Main.lockKey "ip_lists:" = None /\
  files out.2 = Samples.installed.
Proof.
  apply (main_succeeds Samples.working_update "ip_lists:" "ipFile"
           Samples.fresh_store Samples.installed [LoadToRedis.mkRow 1 5 Samples.Ta]
           [(5, Samples.old_member)] [] []).
  - vm_compute. discriminate.
  - vm_compute. discriminate.
  - reflexivity.
  - reflexivity.
  - reflexivity.
  - vm_compute. reflexivity.
  - reflexivity.
  - reflexivity.
  - apply Forall_cons_2; [simpl; lia|apply Forall_nil_2].
  - vm_compute. reflexivity.
  - discriminate.
  - reflexivity.
  - reflexivity.
  - intros k. reflexivity.
  - intros d. reflexivity.
Defined.

End MainSuccess.
